(** * forg: a shallow embedding of the file organizer (src/main.cpp)

    The development follows the source top-down: string helpers, the
    category table and the classifier, the skip rules, collision
    resolution, the argument parser, the directory walker and the mover.
    File-system access goes through the interface [FileSystem], so every
    theorem about the program holds for any behaviour of the underlying
    system, including the calls of [std::filesystem] that throw; a small
    concrete instance, [FlatFS], is used to run the program on concrete
    directory states. *)

From Stdlib Require Import String Ascii List ZArith Lia Bool DecimalString.
From Stdlib Require Import OrderedTypeEx.
Import ListNotations.
Open Scope string_scope.
Open Scope Z_scope.

(** ** std::string helpers *)

Definition dot : ascii := "."%char.
Definition slash : ascii := "/"%char.

(** [std::tolower] in the "C" locale (the program never calls setlocale):
    only 'A'..'Z' are mapped, by adding 32. *)
Definition tolower (c : ascii) : ascii :=
  let n := nat_of_ascii c in
  if (Nat.leb 65 n && Nat.leb n 90)%bool then ascii_of_nat (n + 32) else c.

(** [toLowerCase]: std::transform of [tolower] over the string. *)
Fixpoint toLowerCase (str : string) : string :=
  match str with
  | EmptyString => EmptyString
  | String c rest => String (tolower c) (toLowerCase rest)
  end.

(** [s.rfind(c)]: position of the last occurrence of [c]; [None] stands for
    [std::string::npos]. *)
Fixpoint rfind (c : ascii) (s : string) : option nat :=
  match s with
  | EmptyString => None
  | String a rest =>
      match rfind c rest with
      | Some k => Some (S k)
      | None => if Ascii.eqb a c then Some O else None
      end
  end.

(** [s.substr(pos)]: the suffix of [s] starting at [pos]. *)
Fixpoint substr_from (pos : nat) (s : string) : string :=
  match pos, s with
  | O, _ => s
  | S p, String _ rest => substr_from p rest
  | S _, EmptyString => EmptyString
  end.

(** [s.substr(0, n)]: the first [n] characters of [s]. *)
Fixpoint substr_to (n : nat) (s : string) : string :=
  match n, s with
  | S p, String a rest => String a (substr_to p rest)
  | _, _ => EmptyString
  end.

(** [s] contains the character [c]. *)
Fixpoint has_char (c : ascii) (s : string) : bool :=
  match s with
  | EmptyString => false
  | String a rest => (Ascii.eqb a c || has_char c rest)%bool
  end.

(** [std::to_string] of an [int] or a [long long]: decimal digits, with a
    leading '-' for negative values. *)
Definition to_string (n : Z) : string := NilZero.string_of_int (Z.to_int n).

(** ** The category table *)

(** The initializer list of [FILE_CATEGORIES], in the order it is written
    in the source. *)
Definition FILE_CATEGORIES_init : list (string * list string) :=
  [ ("Images", ["jpg"; "jpeg"; "png"; "gif"; "bmp"; "tiff"; "svg"; "webp";
                "ico"; "psd"; "ai"; "eps"]);
    ("Videos", ["mp4"; "mkv"; "avi"; "mov"; "wmv"; "flv"; "webm"; "m4v";
                "mpeg"; "mpg"; "3gp"; "rmvb"]);
    ("Audio", ["mp3"; "wav"; "flac"; "aac"; "ogg"; "m4a"; "wma"; "aiff";
               "mid"; "midi"]);
    ("Documents", ["pdf"; "doc"; "docx"; "txt"; "rtf"; "odt"; "xls"; "xlsx";
                   "ppt"; "pptx"; "csv"; "md"; "markdown"; "log"]);
    ("Archives", ["zip"; "rar"; "7z"; "tar"; "gz"; "bz2"; "xz"; "iso"; "dmg";
                  "pkg"; "deb"; "rpm"]);
    ("Code", ["cpp"; "c"; "h"; "hpp"; "py"; "js"; "ts"; "html"; "htm"; "css";
              "scss"; "java"; "go"; "rs"; "rb"; "php"; "swift"; "kt"; "scala";
              "sh"; "bash"; "json"; "xml"; "yaml"; "yml"; "toml"; "ini";
              "cfg"; "conf"]);
    ("Executables", ["exe"; "app"; "bin"; "msi"; "run"; "elf"; "so"; "dll";
                     "dylib"]);
    ("Database", ["sql"; "db"; "sqlite"; "mdb"; "accdb"; "frm"; "ibd"]);
    ("Books", ["epub"; "mobi"; "azw"; "azw3"; "fb2"; "djvu"; "chm"]) ].

(** [std::map<std::string, V>]: an association list kept sorted by key
    ([std::less<std::string>], the byte-wise lexicographic order).  This is
    the order in which a range-for over the map yields its pairs. *)
Section StdMap.
Context {V : Type}.

(** [m.insert({k, v})]: no effect when the key is already present. *)
Fixpoint map_insert (k : string) (v : V) (m : list (string * V))
  : list (string * V) :=
  match m with
  | [] => [(k, v)]
  | (k', v') :: rest =>
      match String.compare k k' with
      | Lt => (k, v) :: (k', v') :: rest
      | Eq => (k', v') :: rest
      | Gt => (k', v') :: map_insert k v rest
      end
  end.

(** Construction from an initializer list: the pairs are inserted one
    after the other. *)
Definition map_of_init (init : list (string * V)) : list (string * V) :=
  fold_left (fun m kv => map_insert (fst kv) (snd kv) m) init [].

Fixpoint map_find (k : string) (m : list (string * V)) : option V :=
  match m with
  | [] => None
  | (k', v) :: rest => if String.eqb k k' then Some v else map_find k rest
  end.
End StdMap.

Definition FILE_CATEGORIES : list (string * list string) :=
  map_of_init FILE_CATEGORIES_init.

(** [std::find(v.begin(), v.end(), x) != v.end()] on a vector of strings. *)
Definition vec_contains (v : list string) (x : string) : bool :=
  existsb (String.eqb x) v.

(** ** The classifier *)

Definition getFileExtension (filename : string) : string :=
  match rfind dot filename with
  | None => ""
  | Some dotPos =>
      (* a position was found, so the length is at least 1 and
         [length() - 1] does not wrap around *)
      if Nat.eqb dotPos (String.length filename - 1) then ""
      else toLowerCase (substr_from (dotPos + 1) filename)
  end.

(** The range-for of [getCategory], over an arbitrary table: the first pair,
    in iteration order, whose vector contains the extension. *)
Fixpoint first_category (table : list (string * list string))
  (extension : string) : string :=
  match table with
  | [] => "Others"
  | (category, extensions) :: rest =>
      if vec_contains extensions extension then category
      else first_category rest extension
  end.

(** [getCategory] over the map built from a given initializer list. *)
Definition getCategory_in (init : list (string * list string))
  (extension : string) : string :=
  if String.eqb extension "" then "Others"
  else first_category (map_of_init init) extension.

Definition getCategory (extension : string) : string :=
  if String.eqb extension "" then "Others"
  else first_category FILE_CATEGORIES extension.

(** The classifier of the specification is the composition the walker
    applies to every file name (lines 343-344 and 416-417). *)
Definition classify (filename : string) : string :=
  getCategory (getFileExtension filename).

(** ** Paths

    A [fs::path] is modelled by the list of its components, from the root.
    Names of directory entries are single components (the operating system
    guarantees it), so [dir / name] for such a name appends one element. *)

Definition path := list string.

Definition path_child (dir : path) (name : string) : path :=
  (dir ++ [name])%list.

(** [p.filename().string()] *)
Definition path_filename (p : path) : string := last p "".

(** The pieces of a string between its '/' separators, empty ones included. *)
Fixpoint split_raw (s : string) : list string :=
  match s with
  | EmptyString => [""]
  | String a rest =>
      if Ascii.eqb a slash then "" :: split_raw rest
      else match split_raw rest with
           | c :: cs => String a c :: cs
           | [] => [String a ""]
           end
  end.

Definition split_path (s : string) : path :=
  filter (fun c => negb (String.eqb c "")) (split_raw s).

(** [fs::path(s).filename().string()]: what follows the last separator. *)
Definition filename_of_string (s : string) : string := last (split_raw s) "".

(** [p / s] for a string [s] that may itself contain separators, as the
    prefix given on the command line may: an absolute [s] replaces [p],
    a relative one is appended component by component. *)
Definition path_append (p : path) (s : string) : path :=
  match s with
  | String a _ => if Ascii.eqb a slash then split_path s
      else (p ++ split_path s)%list
  | EmptyString => p
  end.

(** ** Skip rules *)

Definition SKIP_PATTERNS : list string :=
  [ ".git"; ".svn"; ".hg"; ".bzr";
    ".vscode"; ".idea"; ".vs";
    "build"; "dist"; "node_modules"; ".cache"; "__pycache__";
    ".DS_Store"; "Thumbs.db"; ".Spotlight-V100"; ".Trashes" ].

Definition starts_with_dot (filename : string) : bool :=
  match filename with
  | String c _ => Ascii.eqb c dot
  | EmptyString => false
  end.

Definition shouldSkip (p : path) : bool :=
  let filename := path_filename p in
  if starts_with_dot filename then true
  else existsb (fun pattern => String.eqb filename pattern) SKIP_PATTERNS.

(** ** The file-system interface

    What the program asks of [std::filesystem].  Every call may throw a
    [fs::filesystem_error].  The state of the file system is threaded
    explicitly; only [create_directories] and [rename] return a new
    one. *)

(** A directory entry as the iterator yields it: its name and what
    [entry.is_directory()] answers, [None] when that call throws. *)
Record dirent := { d_name : string; d_is_directory : option bool }.

Class FileSystem := {
  World : Type;
  (** [fs::directory_iterator(dir)] and its increments: the entries
      yielded, in the platform's order, and whether the iteration then
      reaches the end of the directory ([true]) or ends by a throw
      ([false]: of the constructor when no entry was yielded, of an
      increment otherwise) *)
  directory_iterator : World -> path -> list dirent * bool;
  (** [fs::exists(p)]: the answer, [None] when the call throws *)
  fs_exists : World -> path -> option bool;
  (** [fs::create_directories(p)]: the file system after the call, and
      whether the call returned ([true]) or threw ([false]); a call that
      throws may have created some of the directories on the way *)
  create_directories : World -> path -> World * bool;
  (** [fs::rename(from, to)]: the file system after the call, [None] when
      the call throws, which leaves the file system as it was *)
  fs_rename : World -> path -> path -> option World
}.

(** ** Collision resolution *)

Section UniquePath.
Context {FS : FileSystem}.
Variable w : World.
(** the reading of [system_clock::now()], in milliseconds since the epoch *)
Variable now : Z.
Variable dir : path.

(** The [while (true)] loop of [getUniquePath]; each unit of fuel pays for
    one iteration and the outer [None] means the fuel ran out.  The inner
    option is the result of the call: the path returned, or [None] when
    [fs::exists] throws, which ends the call since nothing in
    [getUniquePath] catches it. *)
Fixpoint getUniquePath_loop (fuel : nat) (baseName extension : string)
  (counter : Z) : option (option path) :=
  match fuel with
  | O => None
  | S fuel' =>
      let newName := baseName ++ "_" ++ to_string counter ++ extension in
      let newPath := path_child dir newName in
      match fs_exists w newPath with
      | None => Some None
      | Some false => Some (Some newPath)
      | Some true =>
          let counter := counter + 1 in
          if counter >? 1000 then
            let newName := baseName ++ "_" ++ to_string now ++ extension in
            Some (Some (path_child dir newName))
          else getUniquePath_loop fuel' baseName extension counter
      end
  end%string.

(** The split of the file name done before the loop. *)
Definition split_name (filename : string) : string * string :=
  match rfind dot filename with
  | Some dotPos =>
      if Nat.ltb 0 dotPos
      then (substr_to dotPos filename, substr_from dotPos filename)
      else (filename, "")
  | None => (filename, "")
  end.

Definition getUniquePath_fuel (fuel : nat) (filename : string)
  : option (option path) :=
  let targetPath := path_child dir filename in
  match fs_exists w targetPath with
  | None => Some None
  | Some false => Some (Some targetPath)
  | Some true =>
      let '(baseName, extension) := split_name filename in
      getUniquePath_loop fuel baseName extension 1
  end.

(** [getUniquePath]: the loop run with fuel for 1000 iterations, which
    is always enough (see the section on collision resolution).  [None]
    is the [fs::filesystem_error] that leaves the function. *)
Definition getUniquePath (filename : string) : option path :=
  match getUniquePath_fuel 1000 filename with
  | Some result => result
  | None => Some (path_child dir filename)
  end.
End UniquePath.

(** ** Configuration and output *)

Record Config := mkConfig {
  prefix : string;
  verbose : bool;
  dryRun : bool;
  recursive : bool;
  depth : Z;
  showHelp : bool;
  showVersion : bool
}.

(** The default member initializers of [struct Config]. *)
Definition default_config : Config :=
  mkConfig "" false false false 1 false false.

Definition set_prefix (c : Config) (v : string) : Config :=
  mkConfig v (verbose c) (dryRun c) (recursive c) (depth c) (showHelp c)
    (showVersion c).
Definition set_verbose (c : Config) (v : bool) : Config :=
  mkConfig (prefix c) v (dryRun c) (recursive c) (depth c) (showHelp c)
    (showVersion c).
Definition set_dryRun (c : Config) (v : bool) : Config :=
  mkConfig (prefix c) (verbose c) v (recursive c) (depth c) (showHelp c)
    (showVersion c).
Definition set_recursive (c : Config) (v : bool) : Config :=
  mkConfig (prefix c) (verbose c) (dryRun c) v (depth c) (showHelp c)
    (showVersion c).
Definition set_depth (c : Config) (v : Z) : Config :=
  mkConfig (prefix c) (verbose c) (dryRun c) (recursive c) v (showHelp c)
    (showVersion c).
Definition set_showHelp (c : Config) (v : bool) : Config :=
  mkConfig (prefix c) (verbose c) (dryRun c) (recursive c) (depth c) v
    (showVersion c).
Definition set_showVersion (c : Config) (v : bool) : Config :=
  mkConfig (prefix c) (verbose c) (dryRun c) (recursive c) (depth c)
    (showHelp c) v.

(** A planned move: the source path and the category. *)
Definition PendingMove : Type := path * string.

(** What the program writes, one constructor per message of the source.
    Colour codes and column layout are left out.  The messages of the mover
    also carry the paths of the operation they report. *)
Inductive event :=
  (* parseArguments, on the error stream *)
  | WarnDepthRange                  (* depth must be >= 1, using default *)
  | WarnDepthInvalid                (* invalid depth value, using default *)
  | UnknownOption (arg : string)
  (* main *)
  | PrintHelp
  | PrintVersion
  (* banner of organizeFiles *)
  | MsgOrganizing (currentDir : path)
  | MsgRecursive (maxDepth : Z)
  | MsgPrefix (pfx : string)
  | MsgDryRun
  | MsgNoFiles
  (* the walker *)
  | MsgSkippingPath (p : path)
  | MsgSkipping (filename : string)
  | MsgSkippingDirectory (name : string)
  | MsgSkippingProgram (filename : string)
  | ErrAccess (dir : path)          (* Error accessing directory *)
  (* the mover *)
  | ErrCreateDir (filePath : path) (folderName : string)
  | MsgMoving (filename : string) (from to : path)
  | MsgMoved (filePath targetPath : path) (folderName : string)
  | ErrMove (filePath targetPath : path)
  | MsgPreview (filePath targetPath : path) (folderName : string)
  (* the summary *)
  | MsgSummary (movedCount : list (string * Z)) (total : nat)
      (skippedCount errorCount : Z).

(** How the process ends: [return code] from [main], or [std::terminate]
    after an exception nobody caught. *)
Inductive outcome :=
  | Exit (code : Z)
  | Terminate.

(** ** std::stoi *)

Definition INT_MIN : Z := - 2 ^ 31.
Definition INT_MAX : Z := 2 ^ 31 - 1.

Inductive stoi_result :=
  | StoiValue (n : Z)
  | StoiInvalidArgument
  | StoiOutOfRange.

Definition isspace (c : ascii) : bool :=
  let n := nat_of_ascii c in
  (Nat.eqb n 32 || (Nat.leb 9 n && Nat.leb n 13))%bool.

Definition digit_val (c : ascii) : option Z :=
  let n := nat_of_ascii c in
  if (Nat.leb 48 n && Nat.leb n 57)%bool then Some (Z.of_nat n - 48) else None.

Fixpoint skip_space (s : string) : string :=
  match s with
  | String c rest => if isspace c then skip_space rest else s
  | EmptyString => s
  end.

(** The longest run of decimal digits at the front of [s], as a number;
    [acc] is [None] until a digit has been read. *)
Fixpoint read_digits (s : string) (acc : option Z) : option Z :=
  match s with
  | String c rest =>
      match digit_val c with
      | Some d =>
          read_digits rest
            (Some (10 * match acc with Some a => a | None => 0 end + d))
      | None => acc
      end
  | EmptyString => acc
  end.

(** [std::stoi(str)]: leading white space is skipped, an optional sign and
    then as many digits as there are get read, what follows is ignored.
    No digit at all is [invalid_argument]; a value outside [int] is
    [out_of_range]. *)
Definition stoi (str : string) : stoi_result :=
  let s := skip_space str in
  let '(negative, digits) :=
    match s with
    | String c rest =>
        if Ascii.eqb c "-"%char then (true, rest)
        else if Ascii.eqb c "+"%char then (false, rest)
        else (false, s)
    | EmptyString => (false, s)
    end in
  match read_digits digits None with
  | None => StoiInvalidArgument
  | Some m =>
      let v := if negative : bool then - m else m in
      if ((INT_MIN <=? v) && (v <=? INT_MAX))%bool then StoiValue v
      else StoiOutOfRange
  end.

(** ** The argument parser *)

Definition emit {A : Type} (e : event) (r : A * list event) : A * list event :=
  (fst r, e :: snd r).

Definition is_flag (arg short long : string) : bool :=
  (String.eqb arg short || String.eqb arg long)%bool.

(** The [for] loop of [parseArguments] over [argv[i..argc)].  [args] is the
    part of [argv] from index [i] on; [i + 1 < argc] holds when something
    follows [arg].  The events are the warnings written to [std::cerr]. *)
Fixpoint parse_loop (args : list string) (config : Config)
  : Config * list event :=
  match args with
  | [] => (config, [])
  | arg :: rest =>
      if is_flag arg "-h" "--help" then
        parse_loop rest (set_showHelp config true)
      else if String.eqb arg "--version" then
        parse_loop rest (set_showVersion config true)
      else if is_flag arg "-v" "--verbose" then
        parse_loop rest (set_verbose config true)
      else if is_flag arg "-n" "--dry-run" then
        parse_loop rest (set_dryRun config true)
      else if is_flag arg "-r" "--recursive" then
        parse_loop rest (set_recursive config true)
      else
        match is_flag arg "-d" "--depth", rest with
        | true, value :: rest' =>
            (* [argv[++i]] has advanced [i] before [stoi] runs *)
            match stoi value with
            | StoiValue n =>
                if n <? 1 then
                  emit WarnDepthRange (parse_loop rest' (set_depth config 1))
                else parse_loop rest' (set_depth config n)
            | StoiInvalidArgument | StoiOutOfRange =>
                (* catch (...): the warning, then [i++] once more *)
                match rest' with
                | [] => (config, [WarnDepthInvalid])
                | _ :: rest'' =>
                    emit WarnDepthInvalid (parse_loop rest'' config)
                end
            end
        | _, _ =>
            match is_flag arg "-p" "--prefix", rest with
            | true, value :: rest' => parse_loop rest' (set_prefix config value)
            | _, _ => emit (UnknownOption arg) (parse_loop rest config)
            end
        end
  end.

(** [parseArguments(argc, argv)]: the loop starts at index 1. *)
Definition parseArguments (argv : list string) : Config * list event :=
  parse_loop (tl argv) default_config.

(** ** The directory walker *)

(** The vector [filesToMove] together with what has been printed so far. *)
Definition wstate : Type := list PendingMove * list event.

Definition say (e : event) (st : wstate) : wstate :=
  (fst st, (snd st ++ [e])%list).

(** A message printed only under [config.verbose]. *)
Definition say_if (b : bool) (e : event) (st : wstate) : wstate :=
  if b then say e st else st.

Definition push_back (m : PendingMove) (st : wstate) : wstate :=
  ((fst st ++ [m])%list, snd st).

Definition is_program (filename programName : string) : bool :=
  (String.eqb filename programName || String.eqb filename "forg")%bool.

Section Walker.
Context {FS : FileSystem}.
Variable w : World.
Variable programName : string.
Variable config : Config.
Variable maxDepth : Z.

(** The range-for of [collectFiles] over the directory [dir], of which
    [entries] are still to come; [complete] tells whether the iterator
    reaches the end after them or throws.  [recurse] is the nested call
    of [collectFiles].  The result is the state in which the loop is
    left, and whether it is left normally ([true]) or by a
    [fs::filesystem_error] ([false]): thrown by [entry.is_directory()]
    or by the iterator.  What was collected and printed before the throw
    stays.  [None] means that the nested calls ran out of fuel. *)
Fixpoint each_entry (recurse : path -> Z -> wstate -> option wstate)
  (dir : path) (currentDepth : Z) (entries : list dirent) (complete : bool)
  (st : wstate) : option (wstate * bool) :=
  match entries with
  | [] => Some (st, complete)
  | entry :: more =>
      let entry_path := path_child dir (d_name entry) in
      match d_is_directory entry with
      | None => Some (st, false)
      | Some true =>
          if shouldSkip entry_path then
            each_entry recurse dir currentDepth more complete
              (say_if (verbose config) (MsgSkippingPath entry_path) st)
          else if (recursive config && (currentDepth <? maxDepth))%bool then
            match recurse entry_path (currentDepth + 1) st with
            | Some st' => each_entry recurse dir currentDepth more complete st'
            | None => None
            end
          else
            each_entry recurse dir currentDepth more complete
              (say_if (verbose config)
                 (MsgSkippingDirectory (path_filename entry_path)) st)
      | Some false =>
          let filename := path_filename entry_path in
          if is_program filename programName then
            each_entry recurse dir currentDepth more complete
              (say_if (verbose config) (MsgSkippingProgram filename) st)
          else if shouldSkip entry_path then
            each_entry recurse dir currentDepth more complete
              (say_if (verbose config) (MsgSkipping filename) st)
          else
            let extension := getFileExtension filename in
            let category := getCategory extension in
            each_entry recurse dir currentDepth more complete
              (push_back (entry_path, category) st)
      end
  end.

(** [collectFiles].  A unit of fuel pays for one call; [None] means the
    fuel ran out.  A [fs::filesystem_error] thrown inside the [try] block
    is caught by this call: the message is printed and the call returns,
    so the call itself never throws.  The [int] depths are integers here:
    [currentDepth + 1] is computed only below [maxDepth], so it never
    leaves the range of [int]. *)
Fixpoint collectFiles (fuel : nat) (dir : path) (currentDepth : Z)
  (st : wstate) : option wstate :=
  match fuel with
  | O => None
  | S fuel' =>
      if currentDepth >? maxDepth then Some st
      else
        let '(entries, complete) := directory_iterator w dir in
        match each_entry (collectFiles fuel') dir currentDepth entries
                complete st with
        | Some (st', true) => Some st'
        | Some (st', false) => Some (say (ErrAccess dir) st')
        | None => None
        end
  end.

(** The loop over the top-level entries that [organizeFiles] runs when
    [config.recursive] is off.  The result is the state and
    [skippedCount] when the loop is left, and whether it is left normally
    ([true]) or by a [fs::filesystem_error] ([false]), which nothing
    catches here. *)
Fixpoint collectTopLevel (currentDir : path) (entries : list dirent)
  (complete : bool) (st : wstate) (skippedCount : Z)
  : wstate * Z * bool :=
  match entries with
  | [] => (st, skippedCount, complete)
  | entry :: more =>
      let entry_path := path_child currentDir (d_name entry) in
      match d_is_directory entry with
      | None => (st, skippedCount, false)
      | Some true =>
          collectTopLevel currentDir more complete
            (say_if (verbose config)
               (MsgSkippingDirectory (path_filename entry_path)) st)
            skippedCount
      | Some false =>
          let filename := path_filename entry_path in
          if is_program filename programName then
            collectTopLevel currentDir more complete
              (say_if (verbose config) (MsgSkippingProgram filename) st)
              skippedCount
          else if shouldSkip entry_path then
            collectTopLevel currentDir more complete
              (say_if (verbose config) (MsgSkipping filename) st)
              (skippedCount + 1)
          else
            let extension := getFileExtension filename in
            let category := getCategory extension in
            collectTopLevel currentDir more complete
              (push_back (entry_path, category) st) skippedCount
      end
  end.
End Walker.

(** Fuel that covers every call [collectFiles] can make below a call at
    depth [currentDepth]: the depth grows by one per nested call and no call
    is made beyond [maxDepth]. *)
Definition walk_fuel (currentDepth maxDepth : Z) : nat :=
  S (Z.to_nat (maxDepth - currentDepth)).

(** ** The mover *)

(** [movedCount[category]++] on a [std::map<std::string, int>]. *)
Fixpoint map_increment (k : string) (m : list (string * Z))
  : list (string * Z) :=
  match m with
  | [] => [(k, 1)]
  | (k', v) :: rest =>
      match String.compare k k' with
      | Lt => (k, 1) :: (k', v) :: rest
      | Eq => (k', v + 1) :: rest
      | Gt => (k', v) :: map_increment k rest
      end
  end.

Record mstate {FS : FileSystem} := mkMstate {
  m_world : World;
  m_movedCount : list (string * Z);
  m_errorCount : Z;
  m_log : list event
}.
Arguments mkMstate {FS} _ _ _ _.

Section Mover.
Context {FS : FileSystem}.
(** [clock i] is what [system_clock::now()] reads, in milliseconds, while
    the [i]-th pending move is processed. *)
Variable clock : nat -> Z.
Variable currentDir : path.
Variable config : Config.

Definition folder_name (category : string) : string :=
  if String.eqb (prefix config) "" then category
  else prefix config ++ category.

Definition print (e : event) (s : mstate) : mstate :=
  mkMstate (m_world s) (m_movedCount s) (m_errorCount s)
    (m_log s ++ [e])%list.

Definition print_if (b : bool) (e : event) (s : mstate) : mstate :=
  if b then print e s else s.

Definition count_error (s : mstate) : mstate :=
  mkMstate (m_world s) (m_movedCount s) (m_errorCount s + 1) (m_log s).

Definition count_moved (category : string) (s : mstate) : mstate :=
  mkMstate (m_world s) (map_increment category (m_movedCount s))
    (m_errorCount s) (m_log s).

Definition with_world (w : World) (s : mstate) : mstate :=
  mkMstate w (m_movedCount s) (m_errorCount s) (m_log s).

(** One iteration of the "Process files" loop: the state it leaves, and
    whether the loop goes on ([true]) or is left by the
    [fs::filesystem_error] of [fs::exists], thrown inside
    [getUniquePath] and caught nowhere ([false]). *)
Definition process_one (i : nat) (m : PendingMove) (s : mstate)
  : mstate * bool :=
  let '(filePath, category) := m in
  let filename := path_filename filePath in
  let folderName := folder_name category in
  let targetDir := path_append currentDir folderName in
  (* create the directory unless this is a dry run *)
  let created :=
    if negb (dryRun config) then create_directories (m_world s) targetDir
    else (m_world s, true) in
  match created with
  | (w1, false) =>
      (count_error
         (print (ErrCreateDir filePath folderName) (with_world w1 s)),
       true)
  | (w1, true) =>
      let s := with_world w1 s in
      match getUniquePath w1 (clock i) targetDir filename with
      | None => (s, false)
      | Some targetPath =>
          let s :=
            print_if (verbose config)
              (MsgMoving filename filePath targetPath) s in
          if negb (dryRun config) then
            match fs_rename w1 filePath targetPath with
            | Some w2 =>
                (count_moved category
                   (print (MsgMoved filePath targetPath folderName)
                      (with_world w2 s)), true)
            | None =>
                (count_error (print (ErrMove filePath targetPath) s), true)
            end
          else
            (count_moved category
               (print (MsgPreview filePath targetPath folderName) s), true)
      end
  end.

Fixpoint process_files (i : nat) (files : list PendingMove) (s : mstate)
  : mstate * bool :=
  match files with
  | [] => (s, true)
  | m :: more =>
      match process_one i m s with
      | (s', true) => process_files (S i) more s'
      | (s', false) => (s', false)
      end
  end.

(** The banner [organizeFiles] prints first. *)
Definition banner : list event :=
  ([MsgOrganizing currentDir]
   ++ (if recursive config then [MsgRecursive (depth config)] else [])
   ++ (if negb (String.eqb (prefix config) "")
       then [MsgPrefix (prefix config)] else [])
   ++ (if dryRun config then [MsgDryRun] else []))%list.

(** "Get list of files to process": the pending moves with the output so
    far, [skippedCount], and whether this part returns ([true]) or is
    left by a [fs::filesystem_error] of the top-level loop ([false]).
    The recursive walk is run with [walk_fuel], which
    [collectFiles_total] shows is enough. *)
Definition collect (w : World) (programName : string)
  : wstate * Z * bool :=
  if recursive config then
    match collectFiles w programName config (depth config)
            (walk_fuel 1 (depth config)) currentDir 1 ([], banner) with
    | Some st => (st, 0, true)
    | None => (([], banner), 0, true)
    end
  else
    let '(entries, complete) := directory_iterator w currentDir in
    collectTopLevel programName config currentDir entries complete
      ([], banner) 0.

(** [organizeFiles]: the outcome, the file system left behind and the
    output.  [fs::current_path()] is the parameter [currentDir]: the run
    is described from the point where that call has returned.  An
    exception that leaves the function leaves [main] too and ends the
    process by [std::terminate]. *)
Definition organizeFiles (w : World) (programName : string)
  : outcome * World * list event :=
  match collect w programName with
  | ((_, log), _, false) => (Terminate, w, log)
  | ((filesToMove, log), skippedCount, true) =>
      match filesToMove with
      | [] => (Exit 0, w, (log ++ [MsgNoFiles])%list)
      | _ :: _ =>
          match process_files 0 filesToMove (mkMstate w [] 0 log) with
          | (s, false) => (Terminate, m_world s, m_log s)
          | (s, true) =>
              let log :=
                (m_log s ++ [MsgSummary (m_movedCount s)
                               (length filesToMove) skippedCount
                               (m_errorCount s)])%list in
              if m_errorCount s >? 0 then (Exit 1, m_world s, log)
              else (Exit 0, m_world s, log)
          end
      end
  end.
End Mover.

(** [main]: [argv] is the whole argument vector, program name first.  Help
    and version are answered before [organizeFiles] is entered. *)
Definition main {FS : FileSystem} (clock : nat -> Z) (currentDir : path)
  (w : World) (argv : list string) : outcome * World * list event :=
  let programName := filename_of_string (hd "" argv) in
  let '(config, warnings) := parseArguments argv in
  if showHelp config then (Exit 0, w, (warnings ++ [PrintHelp])%list)
  else if showVersion config then
    (Exit 0, w, (warnings ++ [PrintVersion])%list)
  else
    let '(result, w', output) :=
      organizeFiles clock currentDir config w programName in
    (result, w', (warnings ++ output)%list).

(** ** A concrete file system

    A directory state is a list of the paths that exist, each a regular
    file, a directory, or an entry whose status cannot be read (such as a
    symbolic link that leads back to itself).  A directory that is not
    [accessible] can neither be listed nor searched nor changed: asking for
    anything below it throws.  The root always exists.  Entries are listed
    in the order of the list. *)
Module FlatFS.

Inductive kind :=
  | KFile
  | KDir (accessible : bool)
  | KBroken.

Definition world : Type := list (path * kind).

Fixpoint path_eqb (p q : path) : bool :=
  match p, q with
  | [], [] => true
  | a :: p', b :: q' => (String.eqb a b && path_eqb p' q')%bool
  | _, _ => false
  end.

Fixpoint find_path (p : path) (fs : world) : option kind :=
  match fs with
  | [] => None
  | (q, k) :: rest => if path_eqb p q then Some k else find_path p rest
  end.

(** What is at [p].  An empty last component, as [dir / ""] has, names
    the directory before it. *)
Definition lookup (p : path) (fs : world) : option kind :=
  match p with
  | [] => Some (KDir true)
  | _ :: _ =>
      if String.eqb (last p "") "" then
        match removelast p with
        | [] => Some (KDir true)
        | q => match find_path q fs with
               | Some (KDir a) => Some (KDir a)
               | Some KBroken => Some KBroken
               | _ => None
               end
        end
      else find_path p fs
  end.

Definition is_dir (k : kind) : option bool :=
  match k with
  | KDir _ => Some true
  | KFile => Some false
  | KBroken => None
  end.

Definition usable_dir (p : path) (fs : world) : bool :=
  match lookup p fs with
  | Some (KDir true) => true
  | _ => false
  end.

(** A directory above [p] cannot be searched. *)
Definition blocked (p : path) (fs : world) : bool :=
  existsb (fun k => match lookup (firstn k p) fs with
                    | Some (KDir false) => true
                    | _ => false
                    end)
    (seq 1 (length p - 1)).

Definition list_dir (fs : world) (dir : path) : list dirent * bool :=
  if (usable_dir dir fs && negb (blocked dir fs))%bool then
    (flat_map
       (fun e : path * kind =>
          match fst e with
          | [] => []
          | _ :: _ =>
              if path_eqb (removelast (fst e)) dir
              then [Build_dirent (last (fst e) "") (is_dir (snd e))]
              else []
          end) fs, true)
  else ([], false).

Definition exists_ (fs : world) (p : path) : option bool :=
  if blocked p fs then None
  else
    match lookup p fs with
    | Some KBroken => None
    | Some _ => Some true
    | None => Some false
    end.

(** The directories of [todo] are created below [done] one after the
    other where they are missing; those created before a failure
    stay. *)
Fixpoint mkdirs (done : path) (todo : list string) (fs : world)
  : world * bool :=
  match todo with
  | [] => (fs, true)
  | c :: todo' =>
      let d := (done ++ [c])%list in
      match lookup d fs with
      | Some (KDir _) => mkdirs d todo' fs
      | Some _ => (fs, false)
      | None =>
          if usable_dir done fs
          then mkdirs d todo' (fs ++ [(d, KDir true)])%list
          else (fs, false)
      end
  end.

Definition mkdir_p (fs : world) (p : path) : world * bool :=
  if blocked p fs then (fs, false) else mkdirs [] p fs.

(** Renaming a regular file; an existing regular file at the target is
    replaced. *)
Definition rename (fs : world) (from to : path) : option world :=
  match lookup from fs, lookup to fs with
  | Some KFile, Some (KDir _) => None
  | Some KFile, _ =>
      if (usable_dir (removelast from) fs
          && usable_dir (removelast to) fs
          && negb (blocked from fs) && negb (blocked to fs))%bool then
        if path_eqb from to then Some fs
        else
          Some (map (fun e : path * kind =>
                       if path_eqb (fst e) from then (to, snd e) else e)
                  (filter (fun e : path * kind => negb (path_eqb (fst e) to))
                     fs))
      else None
  | _, _ => None
  end.

Definition fs : FileSystem :=
  {| World := world;
     directory_iterator := list_dir;
     fs_exists := exists_;
     create_directories := mkdir_p;
     fs_rename := rename |}.

(** A directory of plain files, directories, unreadable directories and
    broken entries below [dir], for building examples. *)
Definition file (dir : path) (name : string) : path * kind :=
  (path_child dir name, KFile).
Definition folder (dir : path) (name : string) : path * kind :=
  (path_child dir name, KDir true).
Definition locked (dir : path) (name : string) : path * kind :=
  (path_child dir name, KDir false).
Definition broken (dir : path) (name : string) : path * kind :=
  (path_child dir name, KBroken).

End FlatFS.

(** The working directory of the examples and a fixed clock. *)
Definition home : path := ["home"; "u"].
Definition home_dirs : FlatFS.world :=
  [ (["home"], FlatFS.KDir true); (home, FlatFS.KDir true) ].
Definition clock0 : nat -> Z := fun _ => 1700000000000.

(** The end-to-end scenario of the specification. *)
Definition scenario : FlatFS.world :=
  (home_dirs ++
   [ FlatFS.file home "photo.JPG"; FlatFS.file home "notes.md";
     FlatFS.file home "archive.zip"; FlatFS.file home "unknown.xyz";
     FlatFS.folder home "sub"; FlatFS.file (path_child home "sub") "deep.txt"
   ])%list.

(** ** Definitions used to state the properties *)

(** The spelling of an extension in capitals, for stating that the
    classifier ignores case. *)
Definition toupper (c : ascii) : ascii :=
  let n := nat_of_ascii c in
  if (Nat.leb 97 n && Nat.leb n 122)%bool then ascii_of_nat (n - 32) else c.

Fixpoint toUpperCase (str : string) : string :=
  match str with
  | EmptyString => EmptyString
  | String c rest => String (toupper c) (toUpperCase rest)
  end.

(** No string occurs twice in the list. *)
Fixpoint distinct (l : list string) : bool :=
  match l with
  | [] => true
  | x :: rest => (negb (existsb (String.eqb x) rest) && distinct rest)%bool
  end.

Section KeyOrderDefs.
Context {V : Type}.

(** [k] is before every key of [m]. *)
Definition below (k : string) (m : list (string * V)) : Prop :=
  Forall (fun p => String.compare k (fst p) = Lt) m.

(** Keys strictly increase along the list. *)
Fixpoint increasing (m : list (string * V)) : Prop :=
  match m with
  | [] => True
  | p :: rest => below (fst p) rest /\ increasing rest
  end.
End KeyOrderDefs.

(** A table in which "x" is listed under both Images and Audio. *)
Definition overlapping_table : list (string * list string) :=
  [ ("Images", ["x"]); ("Audio", ["x"]) ].

(** The candidate of [getUniquePath] with the number [k] between base name
    and extension. *)
Definition numbered (dir : path) (baseName extension : string) (k : Z)
  : path :=
  path_child dir (baseName ++ "_" ++ to_string k ++ extension).

(** The destination folder of the examples. *)
Definition docs : path := path_child home "Documents".

(** [docs] holding a.txt and a_1.txt. *)
Definition taken_twice : FlatFS.world :=
  (home_dirs ++
   [ FlatFS.folder home "Documents"; FlatFS.file docs "a.txt";
     FlatFS.file docs "a_1.txt" ])%list.

(** [docs] holding a.txt, a_1.txt up to a_1000.txt and the name stamped
    with the reading of [clock0]. *)
Definition crowded : FlatFS.world :=
  (home_dirs ++
   [ FlatFS.folder home "Documents"; FlatFS.file docs "a.txt" ] ++
   map (fun k => FlatFS.file docs ("a_" ++ to_string (Z.of_nat k) ++ ".txt"))
     (seq 1 1000) ++
   [ FlatFS.file docs ("a_" ++ to_string (clock0 O) ++ ".txt") ])%list.

(** C4 as the specification states it: the original name when it is free,
    otherwise a free name whose number is the smallest positive one that is
    free. *)
Definition smallest_free_suffix_claim {FS : FileSystem} (w : World) (now : Z)
  (dir : path) (filename : string) : Prop :=
  let result := getUniquePath w now dir filename in
  let '(baseName, extension) := split_name filename in
  match fs_exists w (path_child dir filename) with
  | Some true =>
      exists k,
        1 <= k
        /\ result = Some (numbered dir baseName extension k)
        /\ fs_exists w (numbered dir baseName extension k) = Some false
        /\ (forall j, 1 <= j < k ->
              fs_exists w (numbered dir baseName extension j) = Some true)
  | Some false => result = Some (path_child dir filename)
  | None => result = None
  end.

(** A decimal integer as a user would write it: an optional sign and then
    digits only, at least one. *)
Definition all_digits (s : string) : bool :=
  match s with
  | EmptyString => false
  | _ =>
      (fix go (s : string) : bool :=
         match s with
         | EmptyString => true
         | String c rest =>
             match digit_val c with
             | Some _ => go rest
             | None => false
             end
         end) s
  end.

Definition integer_literal (s : string) : bool :=
  match s with
  | String c rest =>
      if (Ascii.eqb c "-"%char || Ascii.eqb c "+"%char)%bool
      then all_digits rest else all_digits s
  | EmptyString => false
  end.

(** One of the seven options of the program. *)
Definition known_flag (arg : string) : bool :=
  (is_flag arg "-h" "--help" || String.eqb arg "--version"
   || is_flag arg "-v" "--verbose" || is_flag arg "-n" "--dry-run"
   || is_flag arg "-r" "--recursive" || is_flag arg "-d" "--depth"
   || is_flag arg "-p" "--prefix")%bool.

(** C9 as the specification states it, for a command line with nothing but
    a depth option: a value that is not an integer gives a warning and
    depth 1. *)
Definition non_integer_depth_claim : Prop :=
  forall value,
    integer_literal value = false ->
    depth (fst (parseArguments ["forg"; "--depth"; value])) = 1
    /\ snd (parseArguments ["forg"; "--depth"; value]) <> [].

(** What the walker may add to [filesToMove] during a call on [dir] at
    depth [currentDepth]: a file [name] below [dir], under directories
    [comps] that are not skipped, not skipped itself and not the program,
    with the category of its name, and not deeper than [maxDepth]. *)
Definition found (programName : string) (config : Config) (maxDepth : Z)
  (dir : path) (currentDepth : Z) (m : PendingMove) : Prop :=
  exists comps name,
    fst m = (dir ++ comps ++ [name])%list
    /\ Forall (fun d => shouldSkip [d] = false) comps
    /\ shouldSkip [name] = false
    /\ is_program name programName = false
    /\ snd m = classify name
    /\ currentDepth + Z.of_nat (length comps) <= maxDepth
    /\ (recursive config = false -> comps = []).

(** [entry.is_directory()] answers. *)
Definition answers (entry : dirent) : Prop := d_is_directory entry <> None.

(** The loop over the directory [dir] gets to [entry]: the iterator yields
    it, and [is_directory()] has answered for the entries before it. *)
Definition gets_to {FS : FileSystem} (w : World) (dir : path)
  (entry : dirent) : Prop :=
  exists before after,
    fst (directory_iterator w dir) = (before ++ entry :: after)%list
    /\ Forall answers before.

(** [reaches w maxDepth root d dir]: [dir] is a directory at depth [d],
    counting [root] as depth 1, that lies within the depth bound and below
    directories that are not skipped and that the walk gets to. *)
Inductive reaches {FS : FileSystem} (w : World) (maxDepth : Z) (root : path)
  : Z -> path -> Prop :=
  | reaches_root : reaches w maxDepth root 1 root
  | reaches_sub d dir entry :
      reaches w maxDepth root d dir ->
      d < maxDepth ->
      gets_to w dir entry ->
      d_is_directory entry = Some true ->
      shouldSkip [d_name entry] = false ->
      reaches w maxDepth root (d + 1) (path_child dir (d_name entry)).

(** [collects w programName config maxDepth dir d m]: every call of
    [collectFiles] on [dir] at depth [d] that returns has [m] in
    [filesToMove]. *)
Definition collects {FS : FileSystem} (w : World) (programName : string)
  (config : Config) (maxDepth : Z) (dir : path) (d : Z) (m : PendingMove)
  : Prop :=
  forall fuel st st',
    collectFiles w programName config maxDepth fuel dir d st = Some st' ->
    In m (fst st').

(** The events that report a failed [create_directories] or [rename]:
    those for which [organizeFiles] increments [errorCount]. *)
Definition is_move_error (e : event) : bool :=
  match e with
  | ErrCreateDir _ _ | ErrMove _ _ => true
  | _ => false
  end.

(** How many such events a log holds. *)
Definition count_errors (log : list event) : Z :=
  Z.of_nat (length (filter is_move_error log)).

(** Every event printed in red: the two above and the traversal error of
    [collectFiles]. *)
Definition is_error (e : event) : bool :=
  match e with
  | ErrAccess _ | ErrCreateDir _ _ | ErrMove _ _ => true
  | _ => false
  end.

(** The events of the banner and of the walker. *)
Definition is_walker_event (e : event) : bool :=
  match e with
  | MsgOrganizing _ | MsgRecursive _ | MsgPrefix _ | MsgDryRun
  | MsgSkippingPath _ | MsgSkipping _ | MsgSkippingDirectory _
  | MsgSkippingProgram _ | ErrAccess _ => true
  | _ => false
  end.

(** What an event of the mover says about the pending moves [files]: it
    names one of them as its source, and its target lies directly in the
    folder [currentDir / (prefix + category)] of that move. *)
Definition from_pending (currentDir : path) (config : Config)
  (files : list PendingMove) (e : event) : Prop :=
  match e with
  | MsgMoved src dst folderName | MsgPreview src dst folderName =>
      exists category,
        In (src, category) files
        /\ folderName = folder_name config category
        /\ removelast dst = path_append currentDir folderName
  | ErrMove src dst =>
      exists category,
        In (src, category) files
        /\ removelast dst
           = path_append currentDir (folder_name config category)
  | ErrCreateDir src folderName =>
      exists category,
        In (src, category) files /\ folderName = folder_name config category
  | MsgMoving filename src dst =>
      exists category, In (src, category) files
  | _ => False
  end.

(** ** The file system after a run

    The calls that change the file system, and what a sequence of them
    makes of a file system: a call of [create_directories] leaves what it
    leaves, whether it returns or throws; the renames are calls that
    succeed. *)

Inductive fs_op :=
  | OpCreateDirectories (dir : path)
  | OpRename (from to : path).

Definition apply_op {FS : FileSystem} (w : World) (op : fs_op)
  : option World :=
  match op with
  | OpCreateDirectories dir => Some (fst (create_directories w dir))
  | OpRename from to => fs_rename w from to
  end.

Fixpoint run_ops {FS : FileSystem} (ops : list fs_op) (w : World)
  : option World :=
  match ops with
  | [] => Some w
  | op :: rest =>
      match apply_op w op with
      | Some w1 => run_ops rest w1
      | None => None
      end
  end.

(** The renames among [ops], in order. *)
Fixpoint renames (ops : list fs_op) : list (path * path) :=
  match ops with
  | [] => []
  | OpRename from to :: rest => (from, to) :: renames rest
  | OpCreateDirectories _ :: rest => renames rest
  end.

(** The renames that the output reports as done, in order. *)
Fixpoint moved_lines (log : list event) : list (path * path) :=
  match log with
  | [] => []
  | MsgMoved src dst _ :: rest => (src, dst) :: moved_lines rest
  | _ :: rest => moved_lines rest
  end.

(** The folder a pending move goes to. *)
Definition target_dir (currentDir : path) (config : Config)
  (m : PendingMove) : path :=
  path_append currentDir (folder_name config (snd m)).

(** [ops] are calls the mover makes for the pending moves [files]: every
    folder created is the target folder of one of them, and every file
    renamed is one of them, renamed to a name directly in its target
    folder, which is among the folders created. *)
Definition ops_for (currentDir : path) (config : Config)
  (files : list PendingMove) (ops : list fs_op) : Prop :=
  forall op, In op ops ->
    match op with
    | OpCreateDirectories dir =>
        exists m, In m files /\ dir = target_dir currentDir config m
    | OpRename from to =>
        exists m,
          In m files /\ from = fst m
          /\ removelast to = target_dir currentDir config m
          /\ In (OpCreateDirectories (removelast to)) ops
    end.

(** ** Runs that are cut short *)

(** The listing [l] of a directory ends by a [fs::filesystem_error]: of the
    iterator, or of [is_directory()] on one of the entries. *)
Definition listing_throws (l : list dirent * bool) : bool :=
  (negb (forallb (fun e => match d_is_directory e with
                           | Some _ => true
                           | None => false
                           end) (fst l))
   || negb (snd l))%bool.

(** The mover, started in [s0] on [files], is stopped by [fs::exists]: it
    has dealt with the pending moves [done], the folder for the next one,
    [m], is there (it was created, or this is a dry run), and the
    collision resolution for [m] throws. *)
Definition resolution_throws {FS : FileSystem} (clock : nat -> Z)
  (currentDir : path) (config : Config) (files : list PendingMove)
  (s0 : mstate) : Prop :=
  exists done m rest s w1,
    files = (done ++ m :: rest)%list
    /\ process_files clock currentDir config 0 done s0 = (s, true)
    /\ (if dryRun config then (m_world s, true)
        else create_directories (m_world s) (target_dir currentDir config m))
       = (w1, true)
    /\ getUniquePath w1 (clock (length done))
         (target_dir currentDir config m) (path_filename (fst m)) = None.

(** C1 as the specification states it: exit status 1 when any error was reported,
    0 otherwise. *)
Definition any_error_exits_1_claim {FS : FileSystem} (clock : nat -> Z)
  (currentDir : path) (w : World) (argv : list string) : Prop :=
  let '(result, _, output) := main clock currentDir w argv in
  (existsb is_error output = true -> result = Exit 1)
  /\ (existsb is_error output = false -> result = Exit 0).

(** A working directory with one file and a directory that cannot be
    read. *)
Definition with_locked_dir : FlatFS.world :=
  (home_dirs ++
   [ FlatFS.file home "a.txt"; FlatFS.locked home "private" ])%list.

(** A working directory with one file, whose category folder is there but
    cannot be searched. *)
Definition locked_documents : FlatFS.world :=
  (home_dirs ++
   [ FlatFS.file home "a.txt"; FlatFS.locked home "Documents" ])%list.

(** The same with the file one level down. *)
Definition locked_documents_deep : FlatFS.world :=
  (home_dirs ++
   [ FlatFS.folder home "sub"; FlatFS.file (path_child home "sub") "a.txt";
     FlatFS.locked home "Documents" ])%list.

(** A working directory where a regular file has the name of the folder
    for uncategorised files, and a file without extension lies one level
    down. *)
Definition others_in_the_way : FlatFS.world :=
  (home_dirs ++
   [ FlatFS.file home "Others"; FlatFS.folder home "sub";
     FlatFS.file (path_child home "sub") "notes" ])%list.

(** A working directory whose listing breaks off: the status of its second
    entry cannot be read. *)
Definition with_broken_entry : FlatFS.world :=
  (home_dirs ++
   [ FlatFS.file home "a.txt"; FlatFS.broken home "loop";
     FlatFS.file home "b.txt" ])%list.

(** The scenario with a hidden file, a version-control directory, a build
    directory and a third level. *)
Definition project : FlatFS.world :=
  (home_dirs ++
   [ FlatFS.file home "photo.JPG"; FlatFS.file home ".hidden";
     FlatFS.folder home ".git"; FlatFS.file (path_child home ".git") "config";
     FlatFS.folder home "node_modules";
     FlatFS.file (path_child home "node_modules") "index.js";
     FlatFS.folder home "sub"; FlatFS.file (path_child home "sub") "deep.txt";
     FlatFS.folder (path_child home "sub") "inner";
     FlatFS.file (path_child (path_child home "sub") "inner") "deeper.txt"
   ])%list.

(** The scenario of the specification next to a directory [/srv]. *)
Definition scenario_with_srv : FlatFS.world :=
  ((["srv"], FlatFS.KDir true) :: scenario)%list.

(** The mover has dealt with the pending move [m]: in a dry run the
    preview line is in the log; otherwise the line of the successful
    rename, or the error of the rename, or the error of the directory
    creation. *)
Definition reported (config : Config) (m : PendingMove) (log : list event)
  : Prop :=
  let folderName := folder_name config (snd m) in
  exists targetPath,
    if dryRun config then In (MsgPreview (fst m) targetPath folderName) log
    else
      In (MsgMoved (fst m) targetPath folderName) log
      \/ In (ErrMove (fst m) targetPath) log
      \/ In (ErrCreateDir (fst m) folderName) log.

(** No event of [log] reports a rename or a directory creation, done or
    failed. *)
Definition no_mutation_event (log : list event) : Prop :=
  forall e, In e log ->
    match e with
    | MsgMoved _ _ _ | ErrMove _ _ | ErrCreateDir _ _ => False
    | _ => True
    end.

(** A name the skip rules let through. *)
Definition not_skipped (name : string) : Prop :=
  starts_with_dot name = false /\ ~ In name SKIP_PATTERNS.

(** What holds of every pending move: its source is a file [name] below
    the working directory, under directories [comps]; neither the file nor
    any of these directories is skipped; the file is not the program; the
    category is that of the file name; and the file is within the depth
    bound (directly in the working directory when the walk is not
    recursive). *)
Definition pending_ok (programName : string) (config : Config)
  (currentDir : path) (m : PendingMove) : Prop :=
  exists comps name,
    fst m = (currentDir ++ comps ++ [name])%list
    /\ Forall not_skipped comps
    /\ not_skipped name
    /\ is_program name programName = false
    /\ snd m = classify name
    /\ (if recursive config
        then 1 + Z.of_nat (length comps) <= depth config
        else comps = []).

(** The source path an event of the mover is about. *)
Definition event_source (e : event) : option path :=
  match e with
  | MsgMoved src _ _ | MsgPreview src _ _ | ErrMove src _
  | ErrCreateDir src _ | MsgMoving _ src _ => Some src
  | _ => None
  end.

(** The configuration of [forg --recursive --depth 2]. *)
Definition recursive_depth_2 : Config :=
  fst (parseArguments ["forg"; "--recursive"; "--depth"; "2"]).

(** The pending moves a run starts from. *)
Definition pending_moves {FS : FileSystem} (currentDir : path)
  (config : Config) (w : World) (programName : string) : list PendingMove :=
  fst (fst (fst (collect currentDir config w programName))).

(** What has been printed when the mover starts: the banner and the
    messages of the walker. *)
Definition walker_output {FS : FileSystem} (currentDir : path)
  (config : Config) (w : World) (programName : string) : list event :=
  snd (fst (fst (collect currentDir config w programName))).

(** The warnings of the argument parser. *)
Definition is_parser_warning (e : event) : bool :=
  match e with
  | WarnDepthRange | WarnDepthInvalid | UnknownOption _ => true
  | _ => false
  end.

(** C7 as the specification states it, for [--recursive --depth 2]: every
    file at depth 1 or 2 that the walk gets to and the skip rules let
    through yields a pending move and is moved: the rename is reported,
    and the file is gone from its place. *)
Definition moved_within_depth_2_claim {FS : FileSystem} (clock : nat -> Z)
  (currentDir : path) (w : World) (programName : string) : Prop :=
  forall d dir entry,
    reaches w 2 currentDir d dir -> d <= 2 ->
    gets_to w dir entry ->
    d_is_directory entry = Some false ->
    is_program (d_name entry) programName = false ->
    shouldSkip [d_name entry] = false ->
    let src := path_child dir (d_name entry) in
    let run := organizeFiles clock currentDir recursive_depth_2 w programName in
    In (src, classify (d_name entry))
      (pending_moves currentDir recursive_depth_2 w programName)
    /\ (exists targetPath,
          In (MsgMoved src targetPath (classify (d_name entry))) (snd run))
    /\ fs_exists (snd (fst run)) src = Some false.

(** C10 as the specification states it: the destination directory of
    every file lies under the working directory. *)
Definition destination_under_working_directory_claim {FS : FileSystem}
  (clock : nat -> Z) (currentDir : path) (config : Config) (w : World)
  (programName : string) : Prop :=
  forall src dst folderName,
    In (MsgMoved src dst folderName)
      (snd (organizeFiles clock currentDir config w programName))
    \/ In (MsgPreview src dst folderName)
         (snd (organizeFiles clock currentDir config w programName)) ->
    exists below, removelast dst = (currentDir ++ below)%list.

(** What the mover did to the file system [w] while it printed [added]:
    every line is about one of the pending moves [files]; the file system
    it leaves, [w'], is [w] after the calls [ops]: the directory creations
    it called for and the renames that succeeded; these renames are the
    ones reported as done, in that order;
    and in a dry run there is no call and no line of a rename or a
    directory creation. *)
Definition mover_did {FS : FileSystem} (currentDir : path) (config : Config)
  (files : list PendingMove) (w : World) (added : list event)
  (ops : list fs_op) (w' : World) : Prop :=
  Forall (from_pending currentDir config files) added
  /\ run_ops ops w = Some w'
  /\ renames ops = moved_lines added
  /\ ops_for currentDir config files ops
  /\ (dryRun config = true -> ops = [] /\ no_mutation_event added).

(** * Further parts of the program *)

(** ** Terminal output: colours and the help text *)

(** The escape character that starts an ANSI colour code. *)
Definition ESC : string := String (ascii_of_nat 27) "".

Definition COLOR_GREEN : string := ESC ++ "[32m".
Definition COLOR_YELLOW : string := ESC ++ "[33m".
Definition COLOR_RED : string := ESC ++ "[31m".
Definition COLOR_BLUE : string := ESC ++ "[34m".
Definition COLOR_RESET : string := ESC ++ "[0m".
Definition COLOR_BOLD : string := ESC ++ "[1m".

Definition VERSION : string := "1.0.0".
Definition PROGRAM_NAME : string := "forg".

(** [printMessage(message, color)]: the line written to [std::cout]. *)
Definition printMessage (message color : string) : string :=
  color ++ message ++ COLOR_RESET.

(** The inner loop of [printHelp] over [i = 0 .. count - 1]: the extension
    at [i], and a comma after all but the last.  [count - 1] is computed on
    [size_t]; with [count = 0] it would wrap around, but then the loop does
    not run. *)
Definition help_extensions (extensions : list string) (count : nat)
  : string :=
  fold_left
    (fun out i =>
       out ++ nth i extensions ""
       ++ (if Nat.ltb i (count - 1) then ", " else ""))
    (seq 0 count) "".

(** One line of the "Categories:" part of the help. *)
Definition help_category_line (entry : string * list string) : string :=
  let '(category, extensions) := entry in
  let count := Nat.min 5 (length extensions) in
  "  " ++ COLOR_BLUE ++ category ++ COLOR_RESET ++ ": "
  ++ help_extensions extensions count
  ++ (if Nat.ltb 5 (length extensions)
      then " + " ++ to_string (Z.of_nat (length extensions - 5)) ++ " more"
      else "").

(** The lines of [printHelp] before the list of categories. *)
Definition help_header : list string :=
  [ COLOR_BOLD ++ "File Organizer - forg v" ++ VERSION ++ COLOR_RESET;
     "";
     "A command-line tool that organizes files into categorized subfolders.";
     "";
     COLOR_BOLD ++ "Usage:" ++ COLOR_RESET;
     "  forg [options]";
     "";
     COLOR_BOLD ++ "Directory Options:" ++ COLOR_RESET;
     "  forg               # Top-level files only (default)";
     "  forg -r            # Recursive - process all files in current dir and subdirs";
     "  forg -r --depth N  # Process up to N levels deep (N >= 1)";
     "";
     COLOR_BOLD ++ "Options:" ++ COLOR_RESET;
     "  -r, --recursive            # Enable recursive directory traversal";
     "  -d, --depth <number>       # Maximum depth for recursion (default: 1)";
     "  -p, --prefix <text>        # Add a prefix to category folder names";
     "  -v, --verbose              # Show detailed progress information";
     "  -n, --dry-run              # Preview what would be done without making changes";
     "  -h, --help                 # Show this help message";
     "  --version                  # Show version information";
     "";
     COLOR_BOLD ++ "Examples:" ++ COLOR_RESET;
     "  forg                           # Organize top-level files only";
     "  forg -r                        # Organize all files recursively";
     "  forg -r --depth 2              # Organize files up to 2 levels deep";
     "  forg -p backup_                # Organize with 'backup_' prefix";
     "  forg -v                        # Organize with verbose output";
     "  forg -p sorted_ -v             # Combine options";
     "";
     COLOR_BOLD ++ "Categories:" ++ COLOR_RESET ].

(** The last line of [printHelp]. *)
Definition help_others_line : string :=
  "  " ++ COLOR_BLUE ++ "Others" ++ COLOR_RESET
  ++ ": Files with unrecognized extensions".

(** [printHelp]: the lines written to [std::cout]. *)
Definition printHelp : list string :=
  (help_header ++ map help_category_line FILE_CATEGORIES
   ++ [help_others_line])%list.

(** The two lines [main] writes for [--version]. *)
Definition printVersion : list string :=
  [ PROGRAM_NAME ++ " v" ++ VERSION;
    "Built with C++17 and standard library only." ].

(** ** Definitions used to state further properties *)

(** The ten names [getCategory] can return. *)
Definition category_names : list string :=
  (map fst FILE_CATEGORIES ++ ["Others"])%list.

(** An entry for which [is_directory()] answers no. *)
Definition is_file (entry : dirent) : bool :=
  match d_is_directory entry with
  | Some false => true
  | _ => false
  end.

(** An entry the walker turns into a pending move: a file that is not the
    program and not skipped. *)
Definition eligible (programName : string) (entry : dirent) : bool :=
  (is_file entry
   && negb (is_program (d_name entry) programName)
   && negb (shouldSkip [d_name entry]))%bool.

(** An entry the top-level loop counts in [skippedCount]: a file that is
    not the program and matches the skip rules. *)
Definition counted_as_skipped (programName : string) (entry : dirent)
  : bool :=
  (is_file entry
   && negb (is_program (d_name entry) programName)
   && shouldSkip [d_name entry])%bool.

(** The entries a loop over a listing gets through: those before the
    first one for which [is_directory()] throws. *)
Fixpoint answered (entries : list dirent) : list dirent :=
  match entries with
  | [] => []
  | entry :: more =>
      match d_is_directory entry with
      | Some _ => entry :: answered more
      | None => []
      end
  end.

(** The pending move the walker makes of an entry of [dir]. *)
Definition pending_of (dir : path) (entry : dirent) : PendingMove :=
  (path_child dir (d_name entry), classify (d_name entry)).

(** An argument that takes a value: the depth and the prefix option. *)
Definition takes_value (arg : string) : bool :=
  (is_flag arg "-d" "--depth" || is_flag arg "-p" "--prefix")%bool.

(** The source of the one line the mover prints for each pending move
    whatever the verbosity: renamed, previewed, or one of the two errors. *)
Definition result_source (e : event) : option path :=
  match e with
  | MsgMoved src _ _ | MsgPreview src _ _ | ErrMove src _
  | ErrCreateDir src _ => Some src
  | _ => None
  end.

(** The sources of the result lines of a log, in order. *)
Fixpoint result_sources (log : list event) : list path :=
  match log with
  | [] => []
  | e :: rest =>
      match result_source e with
      | Some src => src :: result_sources rest
      | None => result_sources rest
      end
  end.

(** The sum of the counts of a [movedCount] map. *)
Definition sum_counts (m : list (string * Z)) : Z :=
  fold_right (fun kv acc => snd kv + acc) 0 m.

(** Two results of the walker with the same pending moves (or both out of
    fuel). *)
Definition same_pending (o1 o2 : option wstate) : Prop :=
  match o1, o2 with
  | Some st1, Some st2 => fst st1 = fst st2
  | None, None => True
  | _, _ => False
  end.

(** The same for two runs of the loop over a directory, which also end in
    the same way. *)
Definition same_pending_loop (o1 o2 : option (wstate * bool)) : Prop :=
  match o1, o2 with
  | Some (st1, b1), Some (st2, b2) => fst st1 = fst st2 /\ b1 = b2
  | None, None => True
  | _, _ => False
  end.

(** What [collect] returns apart from the output: the pending moves,
    [skippedCount], and whether it returns. *)
Definition pending_part (c : wstate * Z * bool)
  : list PendingMove * Z * bool :=
  (fst (fst (fst c)), snd (fst c), snd c).

(** The state of the mover apart from the output. *)
Definition core {FS : FileSystem} (s : mstate)
  : World * list (string * Z) * Z :=
  (m_world s, m_movedCount s, m_errorCount s).


(** A working directory with nothing to organise: a hidden file, a system
    file, the program itself and two directories. *)
Definition dotfiles : FlatFS.world :=
  (home_dirs ++
   [ FlatFS.file home ".bashrc"; FlatFS.file home "Thumbs.db";
     FlatFS.file home "forg"; FlatFS.folder home ".git";
     FlatFS.folder home "Documents" ])%list.

(** The walker's state [st] with the pending moves and the output of
    [added] after its own. *)
Definition extend (st added : wstate) : wstate :=
  (fst st ++ fst added, snd st ++ snd added)%list.

(** A call of the walker from [st] gave [o], and the same call from the
    empty state gave [o0]: the first is [st] with the second appended. *)
Definition appends (st : wstate) (o o0 : option wstate) : Prop :=
  match o, o0 with
  | Some st', Some added => st' = extend st added
  | None, None => True
  | _, _ => False
  end.

(** The same for two runs of the loop over a directory, which also end in
    the same way. *)
Definition appends_loop (st : wstate) (o o0 : option (wstate * bool))
  : Prop :=
  match o, o0 with
  | Some (st', b), Some (added, b0) => st' = extend st added /\ b = b0
  | None, None => True
  | _, _ => False
  end.

(** What a dry run prints for the pending moves [files], the first of
    them being the [i]-th of the run, with every target looked up in the
    file system [w]: the lines, the pending moves previewed, and whether
    the end of [files] is reached ([true]) or the collision resolution
    throws before ([false]). *)
Fixpoint dry_run_lines {FS : FileSystem} (clock : nat -> Z)
  (currentDir : path) (config : Config) (w : World) (i : nat)
  (files : list PendingMove) : list event * list PendingMove * bool :=
  match files with
  | [] => ([], [], true)
  | (filePath, category) :: more =>
      let filename := path_filename filePath in
      let folderName := folder_name config category in
      match getUniquePath w (clock i) (path_append currentDir folderName)
              filename with
      | None => ([], [], false)
      | Some targetPath =>
          let '(lines, previewed, complete) :=
            dry_run_lines clock currentDir config w (S i) more in
          (((if verbose config then [MsgMoving filename filePath targetPath]
             else [])
            ++ [MsgPreview filePath targetPath folderName] ++ lines)%list,
           (filePath, category) :: previewed, complete)
      end
  end.

(** [movedCount] after one more file in each of the categories of
    [files]. *)
Definition count_categories (files : list PendingMove)
  (movedCount : list (string * Z)) : list (string * Z) :=
  fold_left (fun counts m => map_increment (snd m) counts) files movedCount.

(** Two files of the same name, one in the working directory and one in a
    subdirectory. *)
Definition namesakes : FlatFS.world :=
  (home_dirs ++
   [ FlatFS.file home "a.txt"; FlatFS.folder home "sub";
     FlatFS.file (path_child home "sub") "a.txt" ])%list.
(** * Properties *)

(** ** Strings *)

Lemma rfind_absent c s : has_char c s = false -> rfind c s = None.
Proof.
  induction s as [|a s IH]; simpl; [reflexivity|].
  intros H. apply orb_false_iff in H as [Ha Hs].
  rewrite (IH Hs), Ha. reflexivity.
Qed.

Lemma rfind_last c pre suf :
  has_char c suf = false ->
  rfind c (pre ++ String c suf) = Some (String.length pre).
Proof.
  intros Hsuf. induction pre as [|a pre IH]; simpl.
  - rewrite (rfind_absent _ _ Hsuf), Ascii.eqb_refl. reflexivity.
  - rewrite IH. reflexivity.
Qed.

Lemma substr_from_app pre s : substr_from (String.length pre) (pre ++ s) = s.
Proof. induction pre; simpl; auto. Qed.

Lemma substr_to_app pre s : substr_to (String.length pre) (pre ++ s) = pre.
Proof.
  induction pre as [|a pre IH]; simpl.
  - destruct s; reflexivity.
  - rewrite IH. reflexivity.
Qed.

Lemma string_length_app (s t : string) :
  String.length (s ++ t) = (String.length s + String.length t)%nat.
Proof. induction s; simpl; auto. Qed.

Lemma tolower_toupper c : tolower (toupper c) = tolower c.
Proof.
  destruct c as [b0 b1 b2 b3 b4 b5 b6 b7].
  destruct b0, b1, b2, b3, b4, b5, b6, b7; reflexivity.
Qed.

Lemma toupper_dot c : Ascii.eqb (toupper c) dot = Ascii.eqb c dot.
Proof.
  destruct c as [b0 b1 b2 b3 b4 b5 b6 b7].
  destruct b0, b1, b2, b3, b4, b5, b6, b7; reflexivity.
Qed.

Lemma toLowerCase_toUpperCase s : toLowerCase (toUpperCase s) = toLowerCase s.
Proof.
  induction s as [|c s IH]; simpl; [reflexivity|].
  rewrite tolower_toupper, IH. reflexivity.
Qed.

Lemma has_dot_toUpperCase s : has_char dot (toUpperCase s) = has_char dot s.
Proof.
  induction s as [|c s IH]; simpl; [reflexivity|].
  rewrite toupper_dot, IH. reflexivity.
Qed.

(** ** The classifier *)

Lemma getFileExtension_no_dot filename :
  has_char dot filename = false -> getFileExtension filename = "".
Proof.
  intros H. unfold getFileExtension. rewrite (rfind_absent _ _ H). reflexivity.
Qed.

Lemma getFileExtension_after_last_dot pre suf :
  has_char dot suf = false ->
  getFileExtension (pre ++ "." ++ suf) = toLowerCase suf.
Proof.
  intros H. unfold getFileExtension. simpl append at 1.
  change (String "." suf) with (String dot suf).
  rewrite (rfind_last _ _ _ H), string_length_app. simpl String.length.
  destruct suf as [|a suf].
  - simpl String.length.
    destruct (Nat.eqb_spec (String.length pre) (String.length pre + 1 - 1))
      as [_|N]; [reflexivity | lia].
  - simpl String.length.
    destruct (Nat.eqb_spec (String.length pre)
                (String.length pre + S (S (String.length suf)) - 1)) as [E|_];
      [lia|].
    replace (String.length pre + 1)%nat
      with (String.length (pre ++ String dot ""))
      by (rewrite string_length_app; reflexivity).
    replace (pre ++ "." ++ String a suf)
      with ((pre ++ String dot "") ++ String a suf).
    + rewrite substr_from_app. reflexivity.
    + clear. unfold dot. induction pre as [|c pre IH]; simpl;
        [reflexivity | rewrite IH; reflexivity].
Qed.

Lemma vec_contains_In v x : vec_contains v x = true <-> In x v.
Proof.
  unfold vec_contains. rewrite existsb_exists. split.
  - intros [y [Hy E]]. apply String.eqb_eq in E. subst. exact Hy.
  - intros H. exists x. split; [exact H | apply String.eqb_refl].
Qed.

Lemma distinct_app_l l1 l2 : distinct (l1 ++ l2) = true -> distinct l1 = true.
Proof.
  induction l1 as [|x l1 IH]; simpl; [reflexivity|].
  intros H. apply andb_true_iff in H as [Hx Hd].
  rewrite existsb_app, negb_orb in Hx. apply andb_true_iff in Hx as [Hx _].
  rewrite Hx, (IH Hd). reflexivity.
Qed.

Lemma distinct_app_r l1 l2 : distinct (l1 ++ l2) = true -> distinct l2 = true.
Proof.
  induction l1 as [|x l1 IH]; simpl; [auto|].
  intros H. apply andb_true_iff in H as [_ Hd]. auto.
Qed.

Lemma distinct_app_disjoint l1 l2 x :
  distinct (l1 ++ l2) = true -> In x l1 -> In x l2 -> False.
Proof.
  induction l1 as [|y l1 IH]; simpl; [tauto|].
  intros H [E|Hin] H2.
  - subst y. apply andb_true_iff in H as [Hx _].
    rewrite existsb_app, negb_orb in Hx. apply andb_true_iff in Hx as [_ Hx].
    apply negb_true_iff in Hx.
    assert (existsb (String.eqb x) l2 = true) as C
      by (apply existsb_exists; exists x; split; [auto|apply String.eqb_refl]).
    congruence.
  - apply andb_true_iff in H as [_ Hd]. eauto.
Qed.

(** In a table whose extension vectors share no element, the first match is
    the only match. *)
Lemma first_category_only_match table ext category extensions :
  distinct (flat_map snd table) = true ->
  In (category, extensions) table -> In ext extensions ->
  first_category table ext = category.
Proof.
  induction table as [|[c0 e0] table IH]; simpl; [tauto|].
  intros Hd Hin Hext.
  destruct (vec_contains e0 ext) eqn:E.
  - destruct Hin as [Heq|Hin]; [congruence|].
    exfalso. apply vec_contains_In in E.
    apply (distinct_app_disjoint _ _ ext Hd E).
    apply in_flat_map. exists (category, extensions). auto.
  - destruct Hin as [Heq|Hin].
    + inversion Heq; subst. apply vec_contains_In in Hext. congruence.
    + apply IH; auto. eapply distinct_app_r; eauto.
Qed.

Lemma first_category_no_match table ext :
  (forall category extensions,
      In (category, extensions) table -> ~ In ext extensions) ->
  first_category table ext = "Others".
Proof.
  induction table as [|[c0 e0] table IH]; simpl; [reflexivity|].
  intros H. destruct (vec_contains e0 ext) eqn:E.
  - apply vec_contains_In in E. exfalso.
    apply (H c0 e0); [left; reflexivity | exact E].
  - apply IH. intros c e Hin. apply (H c e). right. exact Hin.
Qed.

Lemma FILE_CATEGORIES_distinct :
  distinct (flat_map snd FILE_CATEGORIES) = true.
Proof. vm_compute. reflexivity. Qed.

Lemma FILE_CATEGORIES_same_pairs p :
  In p FILE_CATEGORIES_init <-> In p FILE_CATEGORIES.
Proof.
  let table := eval vm_compute in FILE_CATEGORIES in
  change FILE_CATEGORIES with table.
  unfold FILE_CATEGORIES_init. simpl. tauto.
Qed.

Lemma getCategory_matching ext category extensions :
  In (category, extensions) FILE_CATEGORIES_init -> In ext extensions ->
  getCategory ext = category.
Proof.
  intros Hin Hext. apply FILE_CATEGORIES_same_pairs in Hin.
  unfold getCategory. destruct (String.eqb_spec ext "") as [->|_].
  - exfalso. revert Hin Hext.
    let table := eval vm_compute in FILE_CATEGORIES in
    change FILE_CATEGORIES with table.
    simpl. intros Hin.
    repeat (destruct Hin as [Hin|Hin];
            [inversion Hin; subst; simpl; intuition discriminate|]).
    destruct Hin.
  - apply first_category_only_match with extensions;
      [apply FILE_CATEGORIES_distinct | assumption | assumption].
Qed.

Lemma getCategory_unknown ext :
  (forall category extensions,
      In (category, extensions) FILE_CATEGORIES_init -> ~ In ext extensions) ->
  getCategory ext = "Others".
Proof.
  intros H. unfold getCategory. destruct (String.eqb ext ""); [reflexivity|].
  apply first_category_no_match. intros c e Hin.
  apply (H c e). apply FILE_CATEGORIES_same_pairs. exact Hin.
Qed.

(** C2.  The classifier lower-cases what follows the last '.' of the file
    name; the extension is empty when there is no '.' or when the last '.'
    ends the name; a file whose extension is in a category's vector gets
    that category, and one whose extension is empty or in no vector gets
    "Others"; so do "f" and "f."; and writing the extension in capitals
    does not change the category. *)
Theorem classify_by_extension :
  (forall pre suf, has_char dot suf = false ->
     getFileExtension (pre ++ "." ++ suf) = toLowerCase suf)
  /\ (forall filename, has_char dot filename = false ->
        getFileExtension filename = "")
  /\ (forall pre, getFileExtension (pre ++ ".") = "")
  /\ (forall filename category extensions,
        In (category, extensions) FILE_CATEGORIES_init ->
        In (getFileExtension filename) extensions ->
        classify filename = category)
  /\ (forall filename,
        getFileExtension filename = "" \/
        (forall category extensions,
            In (category, extensions) FILE_CATEGORIES_init ->
            ~ In (getFileExtension filename) extensions) ->
        classify filename = "Others")
  /\ classify "f" = "Others"
  /\ classify "f." = "Others"
  /\ (forall pre suf, has_char dot suf = false ->
        classify (pre ++ "." ++ toUpperCase suf) = classify (pre ++ "." ++ suf)).
Proof.
  repeat split.
  - apply getFileExtension_after_last_dot.
  - apply getFileExtension_no_dot.
  - intros pre.
    apply (getFileExtension_after_last_dot pre "" eq_refl).
  - intros filename category extensions Hin Hext.
    apply getCategory_matching with extensions; assumption.
  - intros filename [E|H].
    + unfold classify. rewrite E. reflexivity.
    + apply getCategory_unknown. exact H.
  - intros pre suf H. unfold classify.
    rewrite !getFileExtension_after_last_dot, ?toLowerCase_toUpperCase;
      try rewrite has_dot_toUpperCase; auto.
Qed.

(** The classifier theorem applied to file names of the
    specification's scenario. *)
Lemma classify_by_extension_witness :
  getFileExtension ("photo" ++ "." ++ "JPG") = "jpg"
  /\ getFileExtension "noext" = ""
  /\ classify "photo.JPG" = "Images"
  /\ classify "unknown.xyz" = "Others"
  /\ classify ("f" ++ "." ++ toUpperCase "zip") = classify ("f" ++ "." ++ "zip").
Proof.
  destruct classify_by_extension as (H1 & H2 & _ & H4 & H5 & _ & _ & H8).
  split; [apply (H1 "photo" "JPG"); reflexivity|].
  split; [apply (H2 "noext"); reflexivity|].
  split.
  { apply (H4 "photo.JPG" "Images"
             ["jpg"; "jpeg"; "png"; "gif"; "bmp"; "tiff"; "svg"; "webp";
              "ico"; "psd"; "ai"; "eps"]); simpl; auto. }
  split.
  { apply (H5 "unknown.xyz"). right. intros category extensions Hin.
    simpl in Hin.
    repeat (destruct Hin as [Hin|Hin];
            [inversion Hin; subst; vm_compute; intuition discriminate|]).
    destruct Hin. }
  apply (H8 "f" "zip"). reflexivity.
Defined.

(** ** The table is a map: iteration in key order *)

Section KeyOrder.
Context {V : Type}.

Lemma compare_lt_trans a b c :
  String.compare a b = Lt -> String.compare b c = Lt ->
  String.compare a c = Lt.
Proof.
  intros H1 H2. apply String_as_OT.cmp_lt.
  apply String_as_OT.lt_trans with b; apply String_as_OT.cmp_lt; assumption.
Qed.

Lemma compare_gt_lt a b :
  String.compare a b = Gt -> String.compare b a = Lt.
Proof.
  intros H. rewrite String.compare_antisym, H. reflexivity.
Qed.

Lemma below_weaken a b (m : list (string * V)) :
  String.compare a b = Lt -> below b m -> below a m.
Proof.
  intros Hab Hb. unfold below in *. rewrite Forall_forall in *.
  intros p Hp. apply compare_lt_trans with b; auto.
Qed.

Lemma map_insert_pairs k v (m : list (string * V)) p :
  In p (map_insert k v m) -> p = (k, v) \/ In p m.
Proof.
  induction m as [|[k' v'] m IH]; simpl.
  - intros [E|[]]; auto.
  - destruct (String.compare k k'); simpl; intros H.
    + auto.
    + destruct H as [E|H]; auto.
    + destruct H as [E|H]; auto. destruct (IH H); auto.
Qed.

Lemma map_insert_increasing k v (m : list (string * V)) :
  increasing m -> increasing (map_insert k v m).
Proof.
  induction m as [|[k' v'] m IH]; simpl.
  - intros _. split; [constructor | exact I].
  - intros [Hb Hi]. destruct (String.compare k k') eqn:E; simpl.
    + auto.
    + split; [|auto]. constructor; [exact E|].
      apply below_weaken with k'; assumption.
    + split; [|auto]. unfold below. rewrite Forall_forall.
      intros p Hp. destruct (map_insert_pairs _ _ _ _ Hp) as [->|Hin].
      * simpl. apply compare_gt_lt. exact E.
      * unfold below in Hb. rewrite Forall_forall in Hb. auto.
Qed.

Lemma map_of_init_from (init m : list (string * V)) :
  increasing m ->
  increasing (fold_left (fun m kv => map_insert (fst kv) (snd kv) m) init m)
  /\ forall p,
      In p (fold_left (fun m kv => map_insert (fst kv) (snd kv) m) init m) ->
      In p init \/ In p m.
Proof.
  revert m. induction init as [|[k v] init IH]; simpl; intros m Hm.
  - auto.
  - destruct (IH (map_insert k v m) (map_insert_increasing k v m Hm))
      as [Hi Hp].
    split; [exact Hi|]. intros p Hin.
    destruct (Hp p Hin) as [H|H]; auto.
    destruct (map_insert_pairs _ _ _ _ H) as [->|H']; auto.
Qed.

Lemma map_of_init_increasing (init : list (string * V)) :
  increasing (map_of_init init).
Proof. apply (map_of_init_from init []). exact I. Qed.

Lemma map_of_init_pairs (init : list (string * V)) p :
  In p (map_of_init init) -> In p init.
Proof.
  intros H. destruct (map_of_init_from init [] I) as [_ Hp].
  destruct (Hp p H) as [?|[]]. assumption.
Qed.
End KeyOrder.

(** Over a table with increasing keys, the first match is the match with
    the least key. *)
Lemma first_category_least table ext category extensions :
  increasing table ->
  In (category, extensions) table -> In ext extensions ->
  exists extensions',
    In (first_category table ext, extensions') table
    /\ In ext extensions'
    /\ String.compare (first_category table ext) category <> Gt.
Proof.
  induction table as [|[c0 e0] table IH]; simpl; [tauto|].
  intros [Hb Hi] Hin Hext. destruct (vec_contains e0 ext) eqn:E.
  - exists e0. split; [auto|]. split; [apply vec_contains_In; exact E|].
    destruct Hin as [Heq|Hin].
    + inversion Heq; subst.
      replace (String.compare category category) with Eq; [discriminate|].
      symmetry. apply String_as_OT.cmp_eq. reflexivity.
    + unfold below in Hb. rewrite Forall_forall in Hb.
      specialize (Hb _ Hin). simpl in Hb. rewrite Hb. discriminate.
  - destruct Hin as [Heq|Hin].
    + inversion Heq; subst. apply vec_contains_In in Hext. congruence.
    + destruct (IH Hi Hin Hext) as (e' & H1 & H2 & H3).
      exists e'. auto.
Qed.

(** Two tables with the same pairs and no shared extension classify alike,
    whatever the order of their pairs. *)
Lemma first_category_order_irrelevant t1 t2 ext :
  distinct (flat_map snd t1) = true -> distinct (flat_map snd t2) = true ->
  (forall p, In p t1 <-> In p t2) ->
  first_category t1 ext = first_category t2 ext.
Proof.
  intros D1 D2 Same.
  destruct (existsb (fun p => vec_contains (snd p) ext) t1) eqn:E.
  - apply existsb_exists in E as [[c e] [Hin Hc]]. simpl in Hc.
    apply vec_contains_In in Hc.
    rewrite (first_category_only_match t1 ext c e D1 Hin Hc).
    symmetry. apply first_category_only_match with e; auto.
    apply Same. exact Hin.
  - assert (forall c e, In (c, e) t1 -> ~ In ext e) as None1.
    { intros c e Hin Hext.
      assert (existsb (fun p => vec_contains (snd p) ext) t1 = true) as C.
      { apply existsb_exists. exists (c, e). split; [exact Hin|].
        apply vec_contains_In. exact Hext. }
      congruence. }
    rewrite (first_category_no_match t1 ext None1).
    symmetry. apply first_category_no_match.
    intros c e Hin. apply (None1 c e). apply Same. exact Hin.
Qed.

(** C3, as the code has it.  [FILE_CATEGORIES] is a [std::map], so the
    lookup walks the categories in the order of their names (Archives,
    Audio, Books, Code, Database, Documents, Executables, Images, Videos),
    not in the order they are written.  Over any table built this way, an
    extension found in some category gets a category that holds it and
    whose name is the least such.  In the table of the program no extension
    occurs in two categories, so there the order makes no difference: the
    lookup agrees with a first-match search in the written order. *)
Theorem category_lookup_in_key_order :
  map fst FILE_CATEGORIES =
    ["Archives"; "Audio"; "Books"; "Code"; "Database"; "Documents";
     "Executables"; "Images"; "Videos"]
  /\ (forall init ext category extensions,
        ext <> "" ->
        In (category, extensions) (map_of_init init) -> In ext extensions ->
        exists extensions',
          In (getCategory_in init ext, extensions') init
          /\ In ext extensions'
          /\ String.compare (getCategory_in init ext) category <> Gt)
  /\ distinct (flat_map snd FILE_CATEGORIES_init) = true
  /\ (forall ext,
        ext <> "" -> getCategory ext = first_category FILE_CATEGORIES_init ext).
Proof.
  split; [vm_compute; reflexivity|].
  split.
  { intros init ext category extensions Hne Hin Hext.
    unfold getCategory_in. destruct (String.eqb_spec ext ""); [contradiction|].
    destruct (first_category_least (map_of_init init) ext category extensions
                (map_of_init_increasing init) Hin Hext) as (e' & H1 & H2 & H3).
    exists e'. split; [apply map_of_init_pairs; exact H1 | auto]. }
  split; [vm_compute; reflexivity|].
  intros ext Hne. unfold getCategory.
  destruct (String.eqb_spec ext ""); [contradiction|].
  apply first_category_order_irrelevant.
  - apply FILE_CATEGORIES_distinct.
  - vm_compute. reflexivity.
  - intros p. symmetry. apply FILE_CATEGORIES_same_pairs.
Qed.

(** The key-order theorem on the overlapping table and on the
    extension "md" of the program's table. *)
Lemma category_lookup_in_key_order_witness :
  (exists extensions',
      In (getCategory_in overlapping_table "x", extensions') overlapping_table
      /\ In "x" extensions'
      /\ String.compare (getCategory_in overlapping_table "x") "Images" <> Gt)
  /\ getCategory "md" = first_category FILE_CATEGORIES_init "md".
Proof.
  destruct category_lookup_in_key_order as (_ & H2 & _ & H4).
  split.
  - apply (H2 overlapping_table "x" "Images" ["x"]).
    + discriminate.
    + vm_compute. auto.
    + simpl. auto.
  - apply (H4 "md"). discriminate.
Defined.

(** C3 as stated fails: the lookup does not go through the categories in
    the order they are written, and on a table where an extension is listed
    twice it does not return the category written first. *)
Lemma definition_order_counterexample :
  map fst FILE_CATEGORIES <> map fst FILE_CATEGORIES_init
  /\ first_category overlapping_table "x" = "Images"
  /\ getCategory_in overlapping_table "x" = "Audio"
  /\ ~ (forall init ext,
          ext <> "" -> getCategory_in init ext = first_category init ext).
Proof.
  split; [vm_compute; discriminate|].
  split; [reflexivity|].
  split; [reflexivity|].
  intros H. specialize (H overlapping_table "x").
  vm_compute in H. assert ("x" <> "") as N by discriminate.
  specialize (H N). discriminate.
Qed.

(** ** Collision resolution *)

Section UniquePathFacts.
Context {FS : FileSystem}.
Variable w : World.
Variable now : Z.
Variable dir : path.
Variables baseName extension : string.

(** Started at [counter] with fuel for the numbers up to 1000, the loop
    ends: with the first numbered candidate from [counter] on that is
    free, or by the exception of the first probe that throws, or, when
    all candidates up to 1000 are taken, with the time-stamped name. *)
Lemma getUniquePath_loop_result (fuel : nat) :
  forall counter,
    1 <= counter <= 1000 -> 1001 - counter <= Z.of_nat fuel ->
    (exists k,
        counter <= k <= 1000
        /\ (forall j, counter <= j < k ->
              fs_exists w (numbered dir baseName extension j) = Some true)
        /\ ((fs_exists w (numbered dir baseName extension k) = Some false
             /\ getUniquePath_loop w now dir fuel baseName extension counter
                = Some (Some (numbered dir baseName extension k)))
            \/ (fs_exists w (numbered dir baseName extension k) = None
                /\ getUniquePath_loop w now dir fuel baseName extension
                     counter = Some None)))
    \/ ((forall j, counter <= j <= 1000 ->
           fs_exists w (numbered dir baseName extension j) = Some true)
        /\ getUniquePath_loop w now dir fuel baseName extension counter
           = Some (Some (numbered dir baseName extension now))).
Proof.
  induction fuel as [|fuel IH]; intros counter Hc Hf; [lia|].
  cbn [getUniquePath_loop].
  fold (numbered dir baseName extension counter).
  fold (numbered dir baseName extension now).
  destruct (fs_exists w (numbered dir baseName extension counter))
    as [[|]|] eqn:E.
  - destruct (Z.gtb_spec (counter + 1) 1000) as [G|G].
    + right. split; [|reflexivity].
      intros j Hj. replace j with counter by lia. exact E.
    + destruct (IH (counter + 1)) as [(k & Hk & Hbelow & Hres)
                                     |(Hall & Hres)]; try lia.
      * left. exists k.
        split; [lia|]. split; [|exact Hres].
        intros j Hj. destruct (Z.eq_dec j counter) as [->|N]; [exact E|].
        apply Hbelow. lia.
      * right. split; [|exact Hres].
        intros j Hj. destruct (Z.eq_dec j counter) as [->|N]; [exact E|].
        apply Hall. lia.
  - left. exists counter.
    split; [lia|]. split; [intros j Hj; lia|]. left. auto.
  - left. exists counter.
    split; [lia|]. split; [intros j Hj; lia|]. right. auto.
Qed.

(** More fuel than needed changes nothing. *)
Lemma getUniquePath_loop_more_fuel (fuel : nat) :
  forall counter extra r,
    getUniquePath_loop w now dir fuel baseName extension counter = Some r ->
    getUniquePath_loop w now dir (fuel + extra) baseName extension counter
    = Some r.
Proof.
  induction fuel as [|fuel IH]; intros counter extra r; [discriminate|].
  cbn [getUniquePath_loop Nat.add].
  destruct (fs_exists w _) as [[|]|]; [|auto|auto].
  destruct (counter + 1 >? 1000); auto.
Qed.

Variable filename : string.
Hypothesis split : split_name filename = (baseName, extension).

(** The ways [getUniquePath] can end, with any fuel of 1000 or more. *)
Lemma getUniquePath_fuel_cases (fuel : nat) :
  (1000 <= fuel)%nat ->
  (fs_exists w (path_child dir filename) = Some false
   /\ getUniquePath_fuel w now dir fuel filename
      = Some (Some (path_child dir filename)))
  \/ (fs_exists w (path_child dir filename) = Some true
      /\ exists k,
          1 <= k <= 1000
          /\ fs_exists w (numbered dir baseName extension k) = Some false
          /\ (forall j, 1 <= j < k ->
                fs_exists w (numbered dir baseName extension j) = Some true)
          /\ getUniquePath_fuel w now dir fuel filename
             = Some (Some (numbered dir baseName extension k)))
  \/ (fs_exists w (path_child dir filename) = Some true
      /\ (forall j, 1 <= j <= 1000 ->
            fs_exists w (numbered dir baseName extension j) = Some true)
      /\ getUniquePath_fuel w now dir fuel filename
         = Some (Some (numbered dir baseName extension now)))
  \/ ((fs_exists w (path_child dir filename) = None
       \/ (fs_exists w (path_child dir filename) = Some true
           /\ exists k,
               1 <= k <= 1000
               /\ fs_exists w (numbered dir baseName extension k) = None
               /\ (forall j, 1 <= j < k ->
                     fs_exists w (numbered dir baseName extension j)
                     = Some true)))
      /\ getUniquePath_fuel w now dir fuel filename = Some None).
Proof.
  intros Hfuel. unfold getUniquePath_fuel. rewrite split.
  destruct (fs_exists w (path_child dir filename)) as [[|]|] eqn:E.
  - right.
    destruct (getUniquePath_loop_result fuel 1)
      as [(k & Hk & Hbelow & [[Hfree Hres]|[Hthrow Hres]])|(Hall & Hres)];
      try lia.
    + left. split; [reflexivity|]. exists k. auto.
    + right. right. split; [|exact Hres]. right.
      split; [reflexivity|]. exists k. auto.
    + right. left. auto.
  - left. auto.
  - right. right. right. auto.
Qed.

Lemma getUniquePath_fuel_more (fuel extra : nat) r :
  getUniquePath_fuel w now dir fuel filename = Some r ->
  getUniquePath_fuel w now dir (fuel + extra) filename = Some r.
Proof.
  unfold getUniquePath_fuel. rewrite split.
  destruct (fs_exists w (path_child dir filename)) as [[|]|]; [|auto|auto].
  apply getUniquePath_loop_more_fuel.
Qed.

Lemma getUniquePath_of_fuel r :
  getUniquePath_fuel w now dir 1000 filename = Some r ->
  getUniquePath w now dir filename = r.
Proof. unfold getUniquePath. intros ->. reflexivity. Qed.
End UniquePathFacts.

Lemma split_name_with_extension base ext :
  base <> "" -> has_char dot ext = false ->
  split_name (base ++ "." ++ ext) = (base, "." ++ ext).
Proof.
  intros Hne Hext. unfold split_name.
  change (base ++ "." ++ ext) with (base ++ String dot ext).
  rewrite (rfind_last _ _ _ Hext).
  destruct (Nat.ltb_spec 0 (String.length base)) as [_|L].
  - rewrite substr_to_app, substr_from_app. reflexivity.
  - destruct base; [contradiction | simpl in L; lia].
Qed.

Lemma split_name_without_dot filename :
  has_char dot filename = false -> split_name filename = (filename, "").
Proof.
  intros H. unfold split_name. rewrite (rfind_absent _ _ H). reflexivity.
Qed.

Lemma split_name_leading_dot rest :
  has_char dot rest = false -> split_name ("." ++ rest) = ("." ++ rest, "").
Proof.
  intros H. unfold split_name.
  change ("." ++ rest) with ("" ++ String dot rest).
  rewrite (rfind_last _ _ _ H). reflexivity.
Qed.

(** The ways [getUniquePath] itself can end. *)
Lemma getUniquePath_cases {FS : FileSystem} (w : World) (now : Z)
  (dir : path) (filename baseName extension : string) :
  split_name filename = (baseName, extension) ->
  (fs_exists w (path_child dir filename) = Some false
   /\ getUniquePath w now dir filename = Some (path_child dir filename))
  \/ (fs_exists w (path_child dir filename) = Some true
      /\ exists k,
          1 <= k <= 1000
          /\ fs_exists w (numbered dir baseName extension k) = Some false
          /\ (forall j, 1 <= j < k ->
                fs_exists w (numbered dir baseName extension j) = Some true)
          /\ getUniquePath w now dir filename
             = Some (numbered dir baseName extension k))
  \/ (fs_exists w (path_child dir filename) = Some true
      /\ (forall j, 1 <= j <= 1000 ->
            fs_exists w (numbered dir baseName extension j) = Some true)
      /\ getUniquePath w now dir filename
         = Some (numbered dir baseName extension now))
  \/ ((fs_exists w (path_child dir filename) = None
       \/ (fs_exists w (path_child dir filename) = Some true
           /\ exists k,
               1 <= k <= 1000
               /\ fs_exists w (numbered dir baseName extension k) = None
               /\ (forall j, 1 <= j < k ->
                     fs_exists w (numbered dir baseName extension j)
                     = Some true)))
      /\ getUniquePath w now dir filename = None).
Proof.
  intros S.
  destruct (getUniquePath_fuel_cases w now dir baseName extension filename S
              1000%nat (le_n _))
    as [(H & Hres)|[(H & k & Hk & Hfree & Hbelow & Hres)
                   |[(H & Hall & Hres)|(H & Hres)]]];
    rewrite (getUniquePath_of_fuel w now dir filename _ Hres) in *.
  - left. auto.
  - right. left. split; [exact H|]. exists k. auto.
  - right. right. left. auto.
  - right. right. right. auto.
Qed.

(** Whatever happens, a path that is returned is a name directly in
    [dir]. *)
Lemma getUniquePath_in_dir {FS : FileSystem} (w : World) (now : Z)
  (dir : path) (filename : string) (p : path) :
  getUniquePath w now dir filename = Some p ->
  exists name, p = path_child dir name.
Proof.
  destruct (split_name filename) as [baseName extension] eqn:S.
  destruct (getUniquePath_cases w now dir filename baseName extension S)
    as [(_ & Hres)|[(_ & k & _ & _ & _ & Hres)
                   |[(_ & _ & Hres)|(_ & Hres)]]];
    rewrite Hres; intros H; inversion H; subst; eexists; reflexivity.
Qed.

(** C5.  The loop of [getUniquePath] ends within 1000 iterations for
    every state of the file system, every clock reading, every directory
    and every file name, and more fuel does not change the result.  The
    call returns the original name, or a name numbered between 1 and 1000,
    or, after 1000 numbered candidates, the name with the time stamp; or it
    is left by the exception of a throwing [fs::exists], which ends the
    loop all the sooner. *)
Theorem getUniquePath_terminates {FS : FileSystem} (w : World) (now : Z)
  (dir : path) (filename : string) :
  exists result,
    getUniquePath_fuel w now dir 1000 filename = Some result
    /\ (forall extra,
           getUniquePath_fuel w now dir (1000 + extra) filename = Some result)
    /\ getUniquePath w now dir filename = result
    /\ (result = Some (path_child dir filename)
        \/ (exists k, 1 <= k <= 1000
              /\ result = Some (numbered dir (fst (split_name filename))
                                  (snd (split_name filename)) k))
        \/ result = Some (numbered dir (fst (split_name filename))
                            (snd (split_name filename)) now)
        \/ result = None)
    /\ ((forall p, fs_exists w p <> None) -> result <> None).
Proof.
  destruct (split_name filename) as [baseName extension] eqn:S. simpl fst.
  simpl snd.
  destruct (getUniquePath_fuel_cases w now dir baseName extension filename S
              1000%nat (le_n _))
    as [(Hfree & Hres)|[(Htaken & k & Hk & _ & _ & Hres)
                       |[(Htaken & _ & Hres)|(Hthrow & Hres)]]];
    (eexists; split; [exact Hres|]; split;
     [intros extra;
      apply (getUniquePath_fuel_more w now dir baseName extension filename S
               _ _ _ Hres)|];
     split;
     [apply (getUniquePath_of_fuel w now dir filename _ Hres)|]).
  - split; [left; reflexivity | discriminate].
  - split; [right; left; exists k; auto | discriminate].
  - split; [right; right; left; reflexivity | discriminate].
  - split; [right; right; right; reflexivity|].
    intros Hanswers _.
    destruct Hthrow as [H|(_ & k & _ & H & _)]; exact (Hanswers _ H).
Qed.

(** C4, as the code has it.  A free name is returned unchanged.  When the
    name is taken, the result is the name with the smallest number between
    1 and 1000 whose candidate is free, the number standing between base
    name and extension (after the whole name when it has no '.' or only a
    leading one); when all 1000 candidates are taken too, the result is the
    name with the clock reading in place of the number, free or not.  With
    a.txt and a_1.txt present and a_2.txt absent the result for a.txt is
    a_2.txt. *)
Theorem getUniquePath_smallest_free_suffix {FS : FileSystem} (w : World)
  (now : Z) (dir : path) :
  (forall filename,
      fs_exists w (path_child dir filename) = Some false ->
      getUniquePath w now dir filename = Some (path_child dir filename))
  /\ (forall filename baseName extension k,
        fs_exists w (path_child dir filename) = Some true ->
        split_name filename = (baseName, extension) ->
        1 <= k <= 1000 ->
        fs_exists w (numbered dir baseName extension k) = Some false ->
        (forall j, 1 <= j < k ->
           fs_exists w (numbered dir baseName extension j) = Some true) ->
        getUniquePath w now dir filename
        = Some (numbered dir baseName extension k))
  /\ (forall filename baseName extension,
        fs_exists w (path_child dir filename) = Some true ->
        split_name filename = (baseName, extension) ->
        (forall j, 1 <= j <= 1000 ->
           fs_exists w (numbered dir baseName extension j) = Some true) ->
        getUniquePath w now dir filename
        = Some (numbered dir baseName extension now))
  /\ (forall base ext,
        base <> "" -> has_char dot ext = false ->
        split_name (base ++ "." ++ ext) = (base, "." ++ ext))
  /\ (forall filename,
        has_char dot filename = false -> split_name filename = (filename, ""))
  /\ (forall rest,
        has_char dot rest = false ->
        split_name ("." ++ rest) = ("." ++ rest, ""))
  /\ (fs_exists w (path_child dir "a.txt") = Some true ->
      fs_exists w (path_child dir "a_1.txt") = Some true ->
      fs_exists w (path_child dir "a_2.txt") = Some false ->
      getUniquePath w now dir "a.txt" = Some (path_child dir "a_2.txt")).
Proof.
  assert (forall filename baseName extension k,
             fs_exists w (path_child dir filename) = Some true ->
             split_name filename = (baseName, extension) ->
             1 <= k <= 1000 ->
             fs_exists w (numbered dir baseName extension k) = Some false ->
             (forall j, 1 <= j < k ->
                fs_exists w (numbered dir baseName extension j) = Some true) ->
             getUniquePath w now dir filename
             = Some (numbered dir baseName extension k)) as Numbered.
  { intros filename baseName extension k Htaken Hsplit Hk Hfree Hbelow.
    destruct (getUniquePath_cases w now dir filename baseName extension
                Hsplit)
      as [(Hfree0 & _)|[(_ & k' & Hk' & Hfree' & Hbelow' & Hres)
                       |[(_ & Hall & _)
                        |([Hthrow|(_ & k' & Hk' & Hthrow & Hbelow')] & _)]]].
    - congruence.
    - rewrite Hres. do 2 f_equal.
      destruct (Z.lt_trichotomy k k') as [L|[E|G]].
      + rewrite (Hbelow' k) in Hfree by lia. discriminate.
      + exact (eq_sym E).
      + rewrite (Hbelow k') in Hfree' by lia. discriminate.
    - rewrite (Hall k) in Hfree by lia. discriminate.
    - congruence.
    - exfalso. destruct (Z.lt_trichotomy k k') as [L|[E|G]].
      + rewrite (Hbelow' k) in Hfree by lia. discriminate.
      + subst k'. congruence.
      + rewrite (Hbelow k') in Hthrow by lia. discriminate. }
  split.
  { intros filename Hfree. destruct (split_name filename) as [b e] eqn:S.
    destruct (getUniquePath_cases w now dir filename b e S)
      as [(_ & Hres)|[(H & _)|[(H & _)|([H|(H & _)] & _)]]];
      congruence. }
  split; [exact Numbered|].
  split.
  { intros filename baseName extension Htaken Hsplit Hall.
    destruct (getUniquePath_cases w now dir filename baseName extension
                Hsplit)
      as [(Hfree0 & _)|[(_ & k' & Hk' & Hfree' & _ & _)
                       |[(_ & _ & Hres)
                        |([Hthrow|(_ & k' & Hk' & Hthrow & _)] & _)]]].
    - congruence.
    - rewrite (Hall k') in Hfree' by lia. discriminate.
    - exact Hres.
    - congruence.
    - rewrite (Hall k') in Hthrow by lia. discriminate. }
  split; [exact split_name_with_extension|].
  split; [exact split_name_without_dot|].
  split; [exact split_name_leading_dot|].
  intros H0 H1 H2.
  apply (Numbered "a.txt" "a" ".txt" 2); auto; try lia.
  intros j Hj. replace j with 1 by lia. exact H1.
Qed.

(** The smallest-suffix theorem on a directory that holds a.txt
    and a_1.txt. *)
Lemma getUniquePath_smallest_free_suffix_witness :
  getUniquePath (FS := FlatFS.fs) taken_twice 0 docs "a.txt"
  = Some (path_child docs "a_2.txt")
  /\ getUniquePath (FS := FlatFS.fs) taken_twice 0 docs "b.txt"
     = Some (path_child docs "b.txt").
Proof.
  destruct (getUniquePath_smallest_free_suffix (FS := FlatFS.fs)
              taken_twice 0 docs) as (H1 & _ & _ & _ & _ & _ & H6).
  split.
  - apply H6; reflexivity.
  - apply (H1 "b.txt"). reflexivity.
Defined.

(** C4 as stated fails in a directory where a.txt and all of a_1.txt to
    a_1000.txt exist: the name returned carries the clock reading, not the
    smallest free number (1001), and here it is not even free. *)
Lemma smallest_free_suffix_counterexample :
  ~ smallest_free_suffix_claim (FS := FlatFS.fs) crowded (clock0 O) docs "a.txt".
Proof.
  assert (getUniquePath (FS := FlatFS.fs) crowded (clock0 O) docs "a.txt"
          = Some (path_child docs "a_1700000000000.txt")) as Result
    by (vm_compute; reflexivity).
  assert (fs_exists (FileSystem := FlatFS.fs) crowded
            (path_child docs "a_1700000000000.txt") = Some true) as Taken
    by (vm_compute; reflexivity).
  assert (fs_exists (FileSystem := FlatFS.fs) crowded
            (path_child docs "a.txt") = Some true) as Original
    by (vm_compute; reflexivity).
  unfold smallest_free_suffix_claim.
  change (split_name "a.txt") with ("a", ".txt"). cbv beta iota zeta.
  rewrite Original, Result.
  intros (k & _ & Hp & Hfree & _).
  assert (path_child docs "a_1700000000000.txt" = numbered docs "a" ".txt" k)
    as Hp' by congruence.
  rewrite <- Hp', Taken in Hfree. discriminate.
Qed.

(** ** The argument parser *)

Lemma stoi_in_int_range value n :
  stoi value = StoiValue n -> INT_MIN <= n <= INT_MAX.
Proof.
  unfold stoi.
  destruct (match skip_space value with
            | String c rest =>
                if Ascii.eqb c "-"%char then (true, rest)
                else if Ascii.eqb c "+"%char then (false, rest)
                else (false, skip_space value)
            | EmptyString => (false, skip_space value)
            end) as [negative digits].
  destruct (read_digits digits None) as [m|]; [|discriminate].
  destruct ((INT_MIN <=? (if negative then - m else m))
            && ((if negative then - m else m) <=? INT_MAX))%bool eqn:E;
    [|discriminate].
  intros H. inversion H; subst. apply andb_true_iff in E as [E1 E2].
  apply Z.leb_le in E1, E2. lia.
Qed.

Lemma depth_flag_cases flag :
  is_flag flag "-d" "--depth" = true -> flag = "-d" \/ flag = "--depth".
Proof.
  unfold is_flag. intros H. apply orb_true_iff in H as [H|H];
    apply String.eqb_eq in H; auto.
Qed.

Lemma parse_depth_step flag value rest config :
  is_flag flag "-d" "--depth" = true ->
  parse_loop (flag :: value :: rest) config =
  match stoi value with
  | StoiValue n =>
      if n <? 1 then emit WarnDepthRange (parse_loop rest (set_depth config 1))
      else parse_loop rest (set_depth config n)
  | StoiInvalidArgument | StoiOutOfRange =>
      match rest with
      | [] => (config, [WarnDepthInvalid])
      | _ :: rest'' => emit WarnDepthInvalid (parse_loop rest'' config)
      end
  end.
Proof.
  intros H. destruct (depth_flag_cases flag H) as [-> | ->]; reflexivity.
Qed.

Lemma parse_unknown_step arg rest config :
  known_flag arg = false ->
  parse_loop (arg :: rest) config =
  emit (UnknownOption arg) (parse_loop rest config).
Proof.
  unfold known_flag, is_flag. intros H.
  repeat (apply orb_false_iff in H as [H ?]).
  cbn [parse_loop]. unfold is_flag.
  repeat match goal with E : _ = false |- _ => rewrite E; clear E end.
  cbn [orb]. destruct rest; reflexivity.
Qed.

Lemma parse_loop_keeps_depth_valid n :
  forall args config,
    (length args <= n)%nat ->
    1 <= depth config <= INT_MAX ->
    1 <= depth (fst (parse_loop args config)) <= INT_MAX.
Proof.
  induction n as [|n IH]; intros args config Hlen Hd.
  - destruct args; [exact Hd | simpl in Hlen; lia].
  - destruct args as [|arg rest]; [exact Hd|].
    simpl in Hlen. cbn [parse_loop].
    repeat match goal with
           | |- context [if ?b then _ else _] =>
               destruct b; [apply IH; [lia | exact Hd]|]
           end.
    destruct (is_flag arg "-d" "--depth"), rest as [|value rest'];
      try (destruct (is_flag arg "-p" "--prefix"));
      try (simpl; exact Hd);
      try (cbn [emit fst]; apply IH; [simpl in *; lia | exact Hd]).
    all: destruct (stoi value) as [m| |] eqn:S;
      [ destruct (Z.ltb_spec m 1);
        [ cbn [emit fst]; apply IH;
          [simpl in *; lia | simpl; unfold INT_MAX; lia]
        | apply IH; [simpl in *; lia|]; simpl;
          pose proof (stoi_in_int_range _ _ S); lia ]
      | destruct rest' as [|x rest'']; [exact Hd|];
        cbn [emit fst]; apply IH; [simpl in *; lia | exact Hd] .. ].
Qed.

(** Arguments that are not a depth or prefix option are read one at a
    time: each of the five flags ends up set exactly when it was set
    before or one of its spellings occurs, depth and prefix are left
    alone, and the warnings are one per unknown argument, in order. *)
Lemma known_flag_cases arg :
  known_flag arg = true -> takes_value arg = false ->
  In arg ["-h"; "--help"; "--version"; "-v"; "--verbose"; "-n"; "--dry-run";
          "-r"; "--recursive"].
Proof.
  unfold known_flag, takes_value, is_flag. intros H Hv.
  apply orb_false_iff in Hv as [Hd Hp].
  apply orb_false_iff in Hd as [Hd1 Hd2].
  apply orb_false_iff in Hp as [Hp1 Hp2].
  rewrite Hd1, Hd2, Hp1, Hp2 in H. cbn [orb] in H.
  rewrite !orb_false_r in H.
  repeat (apply orb_true_iff in H as [H|H]);
    apply String.eqb_eq in H; subst; simpl; tauto.
Qed.

(** One argument that is not a depth or prefix option: the loop reads it
    and goes on with the next. *)
Lemma parse_loop_flag_step arg config :
  takes_value arg = false ->
  (forall rest,
      parse_loop (arg :: rest) config
      = (fst (parse_loop rest (fst (parse_loop [arg] config))),
         snd (parse_loop [arg] config)
         ++ snd (parse_loop rest (fst (parse_loop [arg] config))))%list)
  /\ depth (fst (parse_loop [arg] config)) = depth config.
Proof.
  intros Hv.
  destruct (known_flag arg) eqn:K.
  - pose proof (known_flag_cases arg K Hv) as Hcases. cbn [In] in Hcases.
    repeat (destruct Hcases as [<-|Hcases];
            [split;
             [intros rest;
              cbn [parse_loop is_flag String.eqb Ascii.eqb Bool.eqb orb app
                     fst snd];
              destruct (parse_loop rest _); reflexivity
             |reflexivity]|]).
    destruct Hcases.
  - split.
    + intros rest. rewrite !(parse_unknown_step arg _ config K).
      cbn [parse_loop emit fst snd app]. reflexivity.
    + rewrite (parse_unknown_step arg _ config K). reflexivity.
Qed.

(** Arguments read after a stretch of arguments without a depth or prefix
    option: their warnings come after those of the stretch. *)
Lemma parse_loop_after_flags before rest config :
  forallb (fun arg => negb (takes_value arg)) before = true ->
  exists config' warnings,
    parse_loop (before ++ rest) config
    = (fst (parse_loop rest config'),
       warnings ++ snd (parse_loop rest config'))%list
    /\ depth config' = depth config.
Proof.
  revert config. induction before as [|arg before IH]; intros config Hv.
  - exists config, []. split; [|reflexivity].
    cbn [app]. destruct (parse_loop rest config); reflexivity.
  - cbn [forallb] in Hv. apply andb_true_iff in Hv as [Harg Hrest].
    apply negb_true_iff in Harg.
    destruct (parse_loop_flag_step arg config Harg) as (Hstep & Hd1).
    destruct (IH (fst (parse_loop [arg] config)) Hrest)
      as (c2 & w2 & Hmore & Hd2).
    exists c2, (snd (parse_loop [arg] config) ++ w2)%list.
    split; [|congruence].
    cbn [app]. rewrite Hstep, Hmore. cbn [fst snd].
    rewrite app_assoc. reflexivity.
Qed.

(** C9, as the code has it.  For every argument list [parseArguments]
    returns a configuration, and its depth is at least 1.  After a depth
    option, a value that [std::stoi] reads as a number below 1 gives a
    warning and depth 1, and one it reads as a number from 1 up is taken as
    the depth without a warning, whatever follows the digits; a value it
    rejects gives a warning, wherever the option stands, whatever the
    configuration read so far and whatever follows, and leaves the
    configuration as it was, so the depth is 1 when it was 1 before.  An
    argument that is none of the options, and a depth or prefix option with
    nothing after it, gives a warning and parsing goes on. *)
Theorem parseArguments_never_fails :
  (forall argv,
      exists config warnings,
        parseArguments argv = (config, warnings)
        /\ 1 <= depth config <= INT_MAX)
  /\ (forall flag value n rest config,
        is_flag flag "-d" "--depth" = true ->
        stoi value = StoiValue n -> n < 1 ->
        parse_loop (flag :: value :: rest) config
        = emit WarnDepthRange (parse_loop rest (set_depth config 1)))
  /\ (forall flag value n rest config,
        is_flag flag "-d" "--depth" = true ->
        stoi value = StoiValue n -> 1 <= n ->
        parse_loop (flag :: value :: rest) config
        = parse_loop rest (set_depth config n))
  /\ (forall flag value rest config,
        is_flag flag "-d" "--depth" = true ->
        stoi value = StoiInvalidArgument \/ stoi value = StoiOutOfRange ->
        parse_loop (flag :: value :: rest) config
        = emit WarnDepthInvalid (parse_loop (tl rest) config)
        /\ (exists later,
              snd (parse_loop (flag :: value :: rest) config)
              = WarnDepthInvalid :: later)
        /\ (forall before,
              forallb (fun arg => negb (takes_value arg)) before = true ->
              In WarnDepthInvalid
                (snd (parse_loop (before ++ flag :: value :: rest) config)))
        /\ parse_loop [flag; value] config = (config, [WarnDepthInvalid])
        /\ (depth config = 1 ->
            depth (fst (parse_loop [flag; value] config)) = 1))
  /\ (forall arg rest config,
        known_flag arg = false ->
        parse_loop (arg :: rest) config
        = emit (UnknownOption arg) (parse_loop rest config))
  /\ (forall flag config,
        is_flag flag "-d" "--depth" = true
        \/ is_flag flag "-p" "--prefix" = true ->
        parse_loop [flag] config = (config, [UnknownOption flag])).
Proof.
  split.
  { intros argv.
    exists (fst (parseArguments argv)), (snd (parseArguments argv)).
    split; [destruct (parseArguments argv); reflexivity|].
    apply (parse_loop_keeps_depth_valid (length (tl argv))); [lia|].
    simpl. unfold INT_MAX. lia. }
  split.
  { intros flag value n rest config Hflag Hstoi Hn.
    rewrite (parse_depth_step _ _ _ _ Hflag), Hstoi.
    destruct (Z.ltb_spec n 1); [reflexivity | lia]. }
  split.
  { intros flag value n rest config Hflag Hstoi Hn.
    rewrite (parse_depth_step _ _ _ _ Hflag), Hstoi.
    destruct (Z.ltb_spec n 1); [lia | reflexivity]. }
  split.
  { intros flag value rest config Hflag Hstoi.
    assert (forall c,
               parse_loop (flag :: value :: rest) c
               = emit WarnDepthInvalid (parse_loop (tl rest) c)) as Step.
    { intros c. rewrite (parse_depth_step _ _ _ _ Hflag).
      destruct Hstoi as [-> | ->]; destruct rest; reflexivity. }
    split; [apply Step|].
    split; [rewrite Step; eexists; reflexivity|].
    split.
    { intros before Hbefore.
      destruct (parse_loop_after_flags before (flag :: value :: rest) config
                  Hbefore) as (c' & warnings & E & _).
      rewrite E. cbn [snd]. apply in_app_iff. right. rewrite Step.
      left. reflexivity. }
    assert (parse_loop [flag; value] config = (config, [WarnDepthInvalid]))
      as Alone.
    { rewrite (parse_depth_step _ _ _ _ Hflag).
      destruct Hstoi as [-> | ->]; reflexivity. }
    split; [exact Alone|]. rewrite Alone. auto. }
  split; [exact parse_unknown_step|].
  intros flag config [H|H].
  - destruct (depth_flag_cases flag H) as [-> | ->]; reflexivity.
  - unfold is_flag in H. apply orb_true_iff in H as [H|H];
      apply String.eqb_eq in H; subst; reflexivity.
Qed.

(** The parser theorem on command lines with an out-of-range, a
    lenient, a rejected and an unknown argument. *)
Lemma parseArguments_never_fails_witness :
  parse_loop ["-d"; "0"; "-v"] default_config
  = emit WarnDepthRange (parse_loop ["-v"] (set_depth default_config 1))
  /\ parse_loop ["--depth"; "3"; "-v"] default_config
     = parse_loop ["-v"] (set_depth default_config 3)
  /\ parse_loop ["-d"; "abc"] default_config
     = (default_config, [WarnDepthInvalid])
  /\ In WarnDepthInvalid
       (snd (parse_loop ["-v"; "--depth"; "two"; "-r"; "-n"] default_config))
  /\ parse_loop ["--bogus"; "-v"] default_config
     = emit (UnknownOption "--bogus") (parse_loop ["-v"] default_config)
  /\ parse_loop ["-p"] default_config = (default_config, [UnknownOption "-p"]).
Proof.
  destruct parseArguments_never_fails as (_ & H2 & H3 & H4 & H5 & H6).
  split; [apply (H2 "-d" "0" 0); [reflexivity | reflexivity | lia]|].
  split; [apply (H3 "--depth" "3" 3); [reflexivity | reflexivity | lia]|].
  split; [apply (H4 "-d" "abc" [] default_config);
          [reflexivity | left; reflexivity]|].
  split; [apply (H4 "--depth" "two" ["-r"; "-n"] default_config eq_refl
                   (or_introl eq_refl)) with (before := ["-v"]);
          reflexivity|].
  split; [apply (H5 "--bogus"); reflexivity|].
  apply (H6 "-p"). right. reflexivity.
Defined.

(** C9 as stated fails: "2x" is not an integer, yet [--depth 2x] sets the
    depth to 2 and prints no warning. *)
Lemma non_integer_depth_counterexample : ~ non_integer_depth_claim.
Proof.
  intros H. destruct (H "2x" eq_refl) as [Hdepth _].
  vm_compute in Hdepth. discriminate.
Qed.

(** Two more things the catch block of the depth option does.  The depth
    set by an earlier option survives a later rejected value, although the
    warning announces the default. *)
Example rejected_depth_keeps_earlier_depth :
  parseArguments ["forg"; "-d"; "5"; "-d"; "abc"]
  = (set_depth default_config 5, [WarnDepthInvalid]).
Proof. reflexivity. Qed.

(** And the argument after a rejected value is passed over, here the
    dry-run option. *)
Example rejected_depth_skips_next_argument :
  parseArguments ["forg"; "-d"; "abc"; "-n"]
  = (default_config, [WarnDepthInvalid])
  /\ dryRun (fst (parseArguments ["forg"; "-d"; "abc"; "-n"])) = false.
Proof. split; reflexivity. Qed.

(** The loop on arguments that are read one at a time. *)
Lemma parse_loop_flags (args : list string) (config : Config) :
  forallb (fun arg => negb (takes_value arg)) args = true ->
  showHelp (fst (parse_loop args config))
  = (showHelp config || existsb (fun a => is_flag a "-h" "--help") args)%bool
  /\ showVersion (fst (parse_loop args config))
     = (showVersion config
        || existsb (fun a => String.eqb a "--version") args)%bool
  /\ verbose (fst (parse_loop args config))
     = (verbose config
        || existsb (fun a => is_flag a "-v" "--verbose") args)%bool
  /\ dryRun (fst (parse_loop args config))
     = (dryRun config
        || existsb (fun a => is_flag a "-n" "--dry-run") args)%bool
  /\ recursive (fst (parse_loop args config))
     = (recursive config
        || existsb (fun a => is_flag a "-r" "--recursive") args)%bool
  /\ depth (fst (parse_loop args config)) = depth config
  /\ prefix (fst (parse_loop args config)) = prefix config
  /\ snd (parse_loop args config)
     = map UnknownOption (filter (fun a => negb (known_flag a)) args).
Proof.
  revert config. induction args as [|arg rest IH]; intros config Hv.
  - simpl. rewrite !orb_false_r. repeat split.
  - cbn [forallb] in Hv. apply andb_true_iff in Hv as [Harg Hrest].
    apply negb_true_iff in Harg.
    destruct (known_flag arg) eqn:K.
    + pose proof (known_flag_cases arg K Harg) as Hcases.
      cbn [In] in Hcases.
      repeat (destruct Hcases as [<-|Hcases];
              [ cbn [parse_loop is_flag String.eqb Ascii.eqb Bool.eqb orb];
                match goal with
                | |- context [parse_loop rest ?c] =>
                    destruct (IH c Hrest)
                      as (H1 & H2 & H3 & H4 & H5 & H6 & H7 & H8)
                end;
                rewrite H1, H2, H3, H4, H5, H6, H7, H8;
                cbn [existsb filter known_flag is_flag String.eqb Ascii.eqb
                       Bool.eqb orb negb showHelp showVersion verbose dryRun
                       recursive depth prefix set_showHelp set_showVersion
                       set_verbose set_dryRun set_recursive];
                rewrite ?orb_true_r; repeat split; reflexivity |]).
      destruct Hcases.
    + rewrite (parse_unknown_step arg rest config K). cbn [emit fst snd].
      destruct (IH config Hrest) as (H1 & H2 & H3 & H4 & H5 & H6 & H7 & H8).
      rewrite H1, H2, H3, H4, H5, H6, H7, H8.
      cbn [existsb filter]. rewrite K. cbn [negb map].
      clear Harg. unfold known_flag, is_flag in K.
      repeat (apply orb_false_iff in K as [K ?]).
      unfold is_flag.
      repeat match goal with
             | E : _ = false |- _ => rewrite ?E; clear E
             end.
      cbn [orb]. repeat split; reflexivity.
Qed.


(** ** The directory walker *)

Lemma path_filename_child dir name : path_filename (path_child dir name) = name.
Proof. unfold path_filename, path_child. apply last_last. Qed.

Lemma shouldSkip_child dir name :
  shouldSkip (path_child dir name) = shouldSkip [name].
Proof. unfold shouldSkip. rewrite path_filename_child. reflexivity. Qed.

Lemma shouldSkip_false name :
  shouldSkip [name] = false ->
  starts_with_dot name = false /\ ~ In name SKIP_PATTERNS.
Proof.
  unfold shouldSkip. cbn [path_filename last].
  destruct (starts_with_dot name); [discriminate|].
  intros H. split; [reflexivity|]. intros Hin.
  assert (existsb (fun pattern => String.eqb name pattern) SKIP_PATTERNS = true)
    as C by (apply existsb_exists; exists name; split;
             [exact Hin | apply String.eqb_refl]).
  congruence.
Qed.

Lemma shouldSkip_true name :
  starts_with_dot name = true \/ In name SKIP_PATTERNS ->
  shouldSkip [name] = true.
Proof.
  unfold shouldSkip. cbn [path_filename last].
  destruct (starts_with_dot name); [reflexivity|].
  intros [H|H]; [discriminate|].
  apply existsb_exists. exists name. split; [exact H | apply String.eqb_refl].
Qed.

Section WalkerFacts.
Context {FS : FileSystem}.
Variable w : World.
Variable programName : string.
Variable config : Config.
Variable maxDepth : Z.

Local Abbreviation walk := (collectFiles w programName config maxDepth).
Local Abbreviation each := (each_entry programName config maxDepth).
Local Abbreviation found_at := (found programName config maxDepth).
Local Abbreviation collects := (collects w programName config maxDepth).

Lemma found_file dir d name :
  d <= maxDepth ->
  is_program name programName = false -> shouldSkip [name] = false ->
  found_at dir d (path_child dir name, classify name).
Proof.
  intros Hd Hp Hs. exists [], name. simpl.
  repeat split; auto. lia.
Qed.

Lemma found_below dir d name m :
  recursive config = true -> shouldSkip [name] = false ->
  found_at (path_child dir name) (d + 1) m -> found_at dir d m.
Proof.
  intros Hr Hs (comps & file & Hp & Hc & Hf & Hprog & Hcat & Hd & _).
  exists (name :: comps), file.
  split.
  { rewrite Hp. unfold path_child. rewrite <- app_assoc. reflexivity. }
  split; [constructor; assumption|].
  repeat split; auto.
  - simpl length. lia.
  - intros Hn. congruence.
Qed.

Lemma fst_say_if b e (st : wstate) : fst (say_if b e st) = fst st.
Proof. destruct b; reflexivity. Qed.

(** Whatever the walk adds to [filesToMove] was found below [dir], also
    when the loop is left by an exception. *)
Lemma each_entry_sound recurse dir d :
  d <= maxDepth ->
  (forall sub st st' m,
      recurse sub (d + 1) st = Some st' -> In m (fst st') ->
      In m (fst st) \/ found_at sub (d + 1) m) ->
  forall entries complete st st' b m,
    each recurse dir d entries complete st = Some (st', b) ->
    In m (fst st') ->
    In m (fst st) \/ found_at dir d m.
Proof.
  intros Hd Hrec.
  induction entries as [|entry more IH]; intros complete st st' b m.
  - simpl. intros H. inversion H; subst. auto.
  - cbn [each_entry].
    rewrite path_filename_child, shouldSkip_child.
    destruct (d_is_directory entry) as [[|]|].
    + destruct (shouldSkip [d_name entry]) eqn:Hs.
      * intros H Hin. destruct (IH _ _ _ _ _ H Hin) as [Hold|Hnew]; auto.
        left. rewrite fst_say_if in Hold. exact Hold.
      * destruct (recursive config && (d <? maxDepth))%bool eqn:Hr.
        -- destruct (recurse (path_child dir (d_name entry)) (d + 1) st)
             as [st1|] eqn:Hsub; [|discriminate].
           intros H Hin. destruct (IH _ _ _ _ _ H Hin) as [Hold|Hnew]; auto.
           destruct (Hrec _ _ _ _ Hsub Hold) as [Hold'|Hnew]; auto.
           right. apply andb_true_iff in Hr as [Hr _].
           apply found_below with (d_name entry); assumption.
        -- intros H Hin. destruct (IH _ _ _ _ _ H Hin) as [Hold|Hnew]; auto.
           left. rewrite fst_say_if in Hold. exact Hold.
    + destruct (is_program (d_name entry) programName) eqn:Hp.
      * intros H Hin. destruct (IH _ _ _ _ _ H Hin) as [Hold|Hnew]; auto.
        left. rewrite fst_say_if in Hold. exact Hold.
      * destruct (shouldSkip [d_name entry]) eqn:Hs.
        -- intros H Hin. destruct (IH _ _ _ _ _ H Hin) as [Hold|Hnew]; auto.
           left. rewrite fst_say_if in Hold. exact Hold.
        -- intros H Hin. destruct (IH _ _ _ _ _ H Hin) as [Hold|Hnew]; auto.
           simpl in Hold. apply in_app_iff in Hold as [Hold|[<-|[]]]; auto.
           right. apply found_file; assumption.
    + intros H. inversion H; subst. auto.
Qed.

Lemma collectFiles_sound fuel :
  forall dir d st st' m,
    walk fuel dir d st = Some st' -> In m (fst st') ->
    In m (fst st) \/ found_at dir d m.
Proof.
  induction fuel as [|fuel IH]; intros dir d st st' m; [discriminate|].
  cbn [collectFiles]. destruct (Z.gtb_spec d maxDepth) as [G|G].
  - intros H. inversion H; subst. auto.
  - destruct (directory_iterator w dir) as [entries complete].
    destruct (each (walk fuel) dir d entries complete st)
      as [[st1 [|]]|] eqn:E; [| |discriminate];
      intros H; inversion H; subst; cbn [say fst];
      apply (each_entry_sound (walk fuel) dir d ltac:(lia)
               ltac:(intros sub st0 st2 m0; apply IH) _ _ _ _ _ m E).
Qed.

Lemma collectTopLevel_sound dir :
  forall entries complete st skipped m,
    In m (fst (fst (fst (collectTopLevel programName config dir entries
                           complete st skipped)))) ->
    In m (fst st) \/ found_at dir maxDepth m.
Proof.
  induction entries as [|entry more IH]; intros complete st skipped m.
  - simpl. auto.
  - cbn [collectTopLevel].
    rewrite path_filename_child, shouldSkip_child.
    destruct (d_is_directory entry) as [[|]|].
    + intros Hin. destruct (IH _ _ _ _ Hin) as [Hold|Hnew]; auto.
      left. rewrite fst_say_if in Hold. exact Hold.
    + destruct (is_program (d_name entry) programName) eqn:Hp.
      * intros Hin. destruct (IH _ _ _ _ Hin) as [Hold|Hnew]; auto.
        left. rewrite fst_say_if in Hold. exact Hold.
      * destruct (shouldSkip [d_name entry]) eqn:Hs.
        -- intros Hin. destruct (IH _ _ _ _ Hin) as [Hold|Hnew]; auto.
           left. rewrite fst_say_if in Hold. exact Hold.
        -- intros Hin. destruct (IH _ _ _ _ Hin) as [Hold|Hnew]; auto.
           simpl in Hold. apply in_app_iff in Hold as [Hold|[<-|[]]]; auto.
           right. apply found_file; [lia | assumption | assumption].
    + simpl. auto.
Qed.

(** The walk only ever appends to [filesToMove]. *)
Lemma each_entry_keeps recurse dir d :
  (forall sub st st' m,
      recurse sub (d + 1) st = Some st' -> In m (fst st) -> In m (fst st')) ->
  forall entries complete st st' b m,
    each recurse dir d entries complete st = Some (st', b) ->
    In m (fst st) -> In m (fst st').
Proof.
  intros Hrec.
  induction entries as [|entry more IH]; intros complete st st' b m.
  - simpl. intros H. inversion H; subst. auto.
  - cbn [each_entry].
    destruct (d_is_directory entry) as [[|]|];
      [| |intros H; inversion H; subst; auto];
      repeat match goal with
             | |- context [if ?c then _ else _] => destruct c
             end;
      try (intros H Hin; apply (IH _ _ _ _ _ H);
           rewrite ?fst_say_if; simpl;
           try apply in_app_iff; auto; fail).
    destruct (recurse (path_child dir (d_name entry)) (d + 1) st)
      as [st1|] eqn:Hsub; [|discriminate].
    intros H Hin. apply (IH _ _ _ _ _ H). eapply Hrec; eauto.
Qed.

Lemma collectFiles_keeps fuel :
  forall dir d st st' m,
    walk fuel dir d st = Some st' -> In m (fst st) -> In m (fst st').
Proof.
  induction fuel as [|fuel IH]; intros dir d st st' m; [discriminate|].
  cbn [collectFiles]. destruct (d >? maxDepth).
  - intros H. inversion H; subst. auto.
  - destruct (directory_iterator w dir) as [entries complete].
    destruct (each (walk fuel) dir d entries complete st)
      as [[st1 [|]]|] eqn:E; [| |discriminate];
      intros H; inversion H; subst; cbn [say fst];
      apply (each_entry_keeps (walk fuel) dir d
               ltac:(intros sub st0 st2 m0; apply IH) _ _ _ _ _ m E).
Qed.

(** A file among the entries the loop gets to, neither the program nor
    skipped, is appended. *)
Lemma each_entry_collects_file recurse dir d entry :
  (forall sub st st' m,
      recurse sub (d + 1) st = Some st' -> In m (fst st) -> In m (fst st')) ->
  d_is_directory entry = Some false ->
  is_program (d_name entry) programName = false ->
  shouldSkip [d_name entry] = false ->
  forall before after complete st st' b,
    Forall answers before ->
    each recurse dir d (before ++ entry :: after) complete st
    = Some (st', b) ->
    In (path_child dir (d_name entry), classify (d_name entry)) (fst st').
Proof.
  intros Hrec Hdir Hprog Hskip.
  induction before as [|e more IH]; intros after complete st st' b Hans.
  - cbn [app each_entry].
    rewrite path_filename_child, shouldSkip_child, Hdir, Hprog, Hskip.
    intros H. apply (each_entry_keeps recurse dir d Hrec _ _ _ _ _ _ H).
    simpl. apply in_app_iff. right. left. reflexivity.
  - inversion Hans as [|? ? He Hmore]; subst.
    cbn [app each_entry]. unfold answers in He.
    destruct (d_is_directory e) as [[|]|]; [| |contradiction];
      repeat match goal with
             | |- context [if ?c then _ else _] => destruct c
             end; try (apply IH; exact Hmore).
    destruct (recurse (path_child dir (d_name e)) (d + 1) st);
      [apply IH; exact Hmore | discriminate].
Qed.

(** What the nested call on a subdirectory collects, the loop over the
    entries collects. *)
Lemma each_entry_collects_below recurse dir d entry m :
  (forall sub st st' m,
      recurse sub (d + 1) st = Some st' -> In m (fst st) -> In m (fst st')) ->
  d_is_directory entry = Some true ->
  shouldSkip [d_name entry] = false ->
  recursive config = true -> d < maxDepth ->
  (forall st st',
      recurse (path_child dir (d_name entry)) (d + 1) st = Some st' ->
      In m (fst st')) ->
  forall before after complete st st' b,
    Forall answers before ->
    each recurse dir d (before ++ entry :: after) complete st
    = Some (st', b) ->
    In m (fst st').
Proof.
  intros Hrec Hdir Hskip Hr Hd Hsub.
  induction before as [|e more IH]; intros after complete st st' b Hans.
  - cbn [app each_entry].
    rewrite shouldSkip_child, Hdir, Hskip, Hr.
    destruct (Z.ltb_spec d maxDepth) as [_|N]; [|lia]. cbn [andb].
    destruct (recurse (path_child dir (d_name entry)) (d + 1) st)
      as [st1|] eqn:E; [|discriminate].
    intros H. apply (each_entry_keeps recurse dir d Hrec _ _ _ _ _ _ H).
    apply (Hsub _ _ E).
  - inversion Hans as [|? ? He Hmore]; subst.
    cbn [app each_entry]. unfold answers in He.
    destruct (d_is_directory e) as [[|]|]; [| |contradiction];
      repeat match goal with
             | |- context [if ?c then _ else _] => destruct c
             end; try (apply IH; exact Hmore).
    destruct (recurse (path_child dir (d_name e)) (d + 1) st);
      [apply IH; exact Hmore | discriminate].
Qed.

Lemma collects_file dir d entry :
  d <= maxDepth ->
  gets_to w dir entry ->
  d_is_directory entry = Some false ->
  is_program (d_name entry) programName = false ->
  shouldSkip [d_name entry] = false ->
  collects dir d (path_child dir (d_name entry), classify (d_name entry)).
Proof.
  intros Hd (before & after & Hlist & Hans) Hdir Hprog Hskip fuel st st'.
  destruct fuel as [|fuel]; [discriminate|]. cbn [collectFiles].
  destruct (Z.gtb_spec d maxDepth) as [G|_]; [lia|].
  destruct (directory_iterator w dir) as [entries complete].
  cbn [fst] in Hlist. subst entries.
  destruct (each (walk fuel) dir d (before ++ entry :: after) complete st)
    as [[st1 [|]]|] eqn:E; [| |discriminate];
    intros H; inversion H; subst; cbn [say fst];
    apply (each_entry_collects_file (walk fuel) dir d entry
             ltac:(intros sub st0 st2 m0; apply collectFiles_keeps)
             Hdir Hprog Hskip _ _ _ _ _ _ Hans E).
Qed.

Lemma collects_below dir d entry m :
  recursive config = true -> d < maxDepth ->
  gets_to w dir entry ->
  d_is_directory entry = Some true ->
  shouldSkip [d_name entry] = false ->
  collects (path_child dir (d_name entry)) (d + 1) m ->
  collects dir d m.
Proof.
  intros Hr Hd (before & after & Hlist & Hans) Hdir Hskip Hsub fuel st st'.
  destruct fuel as [|fuel]; [discriminate|]. cbn [collectFiles].
  destruct (Z.gtb_spec d maxDepth) as [G|_]; [lia|].
  destruct (directory_iterator w dir) as [entries complete].
  cbn [fst] in Hlist. subst entries.
  destruct (each (walk fuel) dir d (before ++ entry :: after) complete st)
    as [[st1 [|]]|] eqn:E; [| |discriminate];
    intros H; inversion H; subst; cbn [say fst];
    apply (each_entry_collects_below (walk fuel) dir d entry m
             ltac:(intros sub st0 st2 m0; apply collectFiles_keeps)
             Hdir Hskip Hr Hd ltac:(intros st0 st2; apply Hsub)
             _ _ _ _ _ _ Hans E).
Qed.

(** Whatever a call on a reached directory collects, the call on the
    root collects. *)
Lemma collects_from_root root d dir m :
  recursive config = true ->
  reaches w maxDepth root d dir -> collects dir d m -> collects root 1 m.
Proof.
  intros Hr Hreach. revert m.
  induction Hreach as [|d dir entry Hreach IH Hd Hgets Hdir Hskip];
    intros m Hm; [exact Hm|].
  apply IH.
  apply (collects_below dir d entry m Hr Hd Hgets Hdir Hskip Hm).
Qed.

(** The walk returns when the fuel exceeds the levels left. *)
Lemma each_entry_total recurse dir d :
  (d < maxDepth -> forall sub st, exists st', recurse sub (d + 1) st = Some st') ->
  forall entries complete st,
    exists r, each recurse dir d entries complete st = Some r.
Proof.
  intros Hrec. induction entries as [|entry more IH]; intros complete st.
  - eexists. reflexivity.
  - cbn [each_entry].
    destruct (d_is_directory entry) as [[|]|];
      [| |eexists; reflexivity];
      repeat match goal with
             | |- context [if ?c then _ else _] => destruct c eqn:?
             end; try apply IH.
    match goal with
    | H : (_ && (d <? maxDepth))%bool = true |- _ =>
        apply andb_true_iff in H as [_ H]; apply Z.ltb_lt in H
    end.
    destruct (Hrec ltac:(assumption) (path_child dir (d_name entry)) st)
      as [st1 ->]. apply IH.
Qed.

Lemma collectFiles_total fuel :
  forall dir d st,
    (Z.to_nat (maxDepth - d) < fuel)%nat ->
    exists st', walk fuel dir d st = Some st'.
Proof.
  induction fuel as [|fuel IH]; intros dir d st Hf; [lia|].
  cbn [collectFiles]. destruct (d >? maxDepth); [eauto|].
  destruct (directory_iterator w dir) as [entries complete].
  destruct (each_entry_total (walk fuel) dir d
              ltac:(intros Hd sub st0; apply IH; lia) entries complete st)
    as [[st1 [|]] ->]; eauto.
Qed.

(** The walk prints nothing but its own messages. *)
Lemma say_if_walker b e st :
  is_walker_event e = true ->
  Forall (fun e => is_walker_event e = true) (snd st) ->
  Forall (fun e => is_walker_event e = true) (snd (say_if b e st)).
Proof.
  intros He H. destruct b; simpl; [|exact H].
  apply Forall_app. split; [exact H | constructor; [exact He | constructor]].
Qed.

Lemma each_entry_walker_log recurse dir d :
  (forall sub st st',
      recurse sub (d + 1) st = Some st' ->
      Forall (fun e => is_walker_event e = true) (snd st) ->
      Forall (fun e => is_walker_event e = true) (snd st')) ->
  forall entries complete st st' b,
    each recurse dir d entries complete st = Some (st', b) ->
    Forall (fun e => is_walker_event e = true) (snd st) ->
    Forall (fun e => is_walker_event e = true) (snd st').
Proof.
  intros Hrec.
  induction entries as [|entry more IH]; intros complete st st' b.
  - simpl. intros H. inversion H; subst. auto.
  - cbn [each_entry].
    destruct (d_is_directory entry) as [[|]|];
      [| |intros H; inversion H; subst; auto];
      repeat match goal with
             | |- context [if ?c then _ else _] => destruct c
             end;
      try (intros H Hlog; apply (IH _ _ _ _ H);
           try (apply say_if_walker; [reflexivity | exact Hlog]);
           exact Hlog).
    destruct (recurse (path_child dir (d_name entry)) (d + 1) st)
      as [st1|] eqn:Hsub; [|discriminate].
    intros H Hlog. apply (IH _ _ _ _ H). apply (Hrec _ _ _ Hsub Hlog).
Qed.

Lemma collectFiles_walker_log fuel :
  forall dir d st st',
    walk fuel dir d st = Some st' ->
    Forall (fun e => is_walker_event e = true) (snd st) ->
    Forall (fun e => is_walker_event e = true) (snd st').
Proof.
  induction fuel as [|fuel IH]; intros dir d st st'; [discriminate|].
  cbn [collectFiles]. destruct (d >? maxDepth).
  - intros H. inversion H; subst. auto.
  - destruct (directory_iterator w dir) as [entries complete].
    destruct (each (walk fuel) dir d entries complete st)
      as [[st1 [|]]|] eqn:E; [| |discriminate];
      intros H Hlog; inversion H; subst;
      pose proof (each_entry_walker_log (walk fuel) dir d
                    ltac:(intros sub st0 st2; apply IH) _ _ _ _ _ E Hlog)
        as Hlog1; [exact Hlog1|].
    simpl. apply Forall_app. split; [exact Hlog1 | repeat constructor].
Qed.

Lemma collectTopLevel_walker_log dir :
  forall entries complete st skipped,
    Forall (fun e => is_walker_event e = true) (snd st) ->
    Forall (fun e => is_walker_event e = true)
      (snd (fst (fst (collectTopLevel programName config dir entries
                        complete st skipped)))).
Proof.
  induction entries as [|entry more IH]; intros complete st skipped Hlog.
  - exact Hlog.
  - cbn [collectTopLevel].
    destruct (d_is_directory entry) as [[|]|]; [| |exact Hlog];
      repeat match goal with
             | |- context [if ?c then _ else _] => destruct c
             end;
      apply IH; try (apply say_if_walker; [reflexivity | exact Hlog]);
      exact Hlog.
Qed.
End WalkerFacts.

(** ** The mover *)

Lemma removelast_child dir name : removelast (path_child dir name) = dir.
Proof. unfold path_child. apply removelast_last. Qed.

Lemma getUniquePath_parent {FS : FileSystem} (w : World) now dir filename p :
  getUniquePath w now dir filename = Some p -> removelast p = dir.
Proof.
  intros H. destruct (getUniquePath_in_dir w now dir filename p H) as [name ->].
  apply removelast_child.
Qed.

Lemma run_ops_app {FS : FileSystem} ops1 ops2 (w w1 w2 : World) :
  run_ops ops1 w = Some w1 -> run_ops ops2 w1 = Some w2 ->
  run_ops (ops1 ++ ops2) w = Some w2.
Proof.
  revert w. induction ops1 as [|op ops1 IH]; intros w.
  - simpl. intros H. inversion H; subst. auto.
  - cbn [app run_ops]. destruct (apply_op w op); [apply IH | discriminate].
Qed.

Lemma renames_app ops1 ops2 :
  renames (ops1 ++ ops2) = (renames ops1 ++ renames ops2)%list.
Proof.
  induction ops1 as [|[dir|from to] ops1 IH]; simpl; [reflexivity|exact IH|].
  rewrite IH. reflexivity.
Qed.

Lemma moved_lines_app l1 l2 :
  moved_lines (l1 ++ l2) = (moved_lines l1 ++ moved_lines l2)%list.
Proof.
  induction l1 as [|e l1 IH]; simpl; [reflexivity|].
  destruct e; simpl; rewrite ?IH; reflexivity.
Qed.

Lemma moved_lines_In src dst log :
  In (src, dst) (moved_lines log)
  <-> exists folderName, In (MsgMoved src dst folderName) log.
Proof.
  induction log as [|e log IH]; simpl.
  - split; [intros [] | intros (f & [])].
  - destruct e; simpl; rewrite ?IH;
      try (split; [intros (f & H); exists f; auto
                  |intros (f & [H|H]); [discriminate | exists f; exact H]]).
    split.
    + intros [H|(f & H)]; [inversion H; subst; eauto | eauto].
    + intros (f & [H|H]); [inversion H; subst; auto | eauto].
Qed.

Lemma renames_In from to ops :
  In (from, to) (renames ops) <-> In (OpRename from to) ops.
Proof.
  induction ops as [|[dir|a b] ops IH]; simpl.
  - tauto.
  - rewrite IH. split; [auto | intros [H|H]; [discriminate | exact H]].
  - rewrite IH. split; intros [H|H]; auto; inversion H; subst; auto.
Qed.

Section MoverFacts.
Context {FS : FileSystem}.
Variable clock : nat -> Z.
Variable currentDir : path.
Variable config : Config.

Local Abbreviation step := (process_one clock currentDir config).
Local Abbreviation run := (process_files clock currentDir config).
Local Abbreviation pending := (from_pending currentDir config).

Lemma count_errors_app l1 l2 :
  count_errors (l1 ++ l2) = count_errors l1 + count_errors l2.
Proof.
  unfold count_errors. rewrite filter_app, List.length_app. lia.
Qed.

(** What one iteration does, case by case. *)
Lemma process_one_cases i filePath category s :
  let folderName := folder_name config category in
  let targetDir := path_append currentDir folderName in
  let filename := path_filename filePath in
  (exists w1,
      dryRun config = false
      /\ create_directories (m_world s) targetDir = (w1, false)
      /\ step i (filePath, category) s
         = (count_error
              (print (ErrCreateDir filePath folderName) (with_world w1 s)),
            true))
  \/ (exists w1,
        dryRun config = false
        /\ create_directories (m_world s) targetDir = (w1, true)
        /\ ((getUniquePath w1 (clock i) targetDir filename = None
             /\ step i (filePath, category) s = (with_world w1 s, false))
            \/ exists targetPath,
                getUniquePath w1 (clock i) targetDir filename
                = Some targetPath
                /\ ((exists w2,
                        fs_rename w1 filePath targetPath = Some w2
                        /\ step i (filePath, category) s
                           = (count_moved category
                                (print
                                   (MsgMoved filePath targetPath folderName)
                                   (with_world w2
                                      (print_if (verbose config)
                                         (MsgMoving filename filePath
                                            targetPath)
                                         (with_world w1 s)))), true))
                    \/ (fs_rename w1 filePath targetPath = None
                        /\ step i (filePath, category) s
                           = (count_error
                                (print (ErrMove filePath targetPath)
                                   (print_if (verbose config)
                                      (MsgMoving filename filePath
                                         targetPath)
                                      (with_world w1 s))), true)))))
  \/ (dryRun config = true
      /\ ((getUniquePath (m_world s) (clock i) targetDir filename = None
           /\ step i (filePath, category) s
              = (with_world (m_world s) s, false))
          \/ exists targetPath,
              getUniquePath (m_world s) (clock i) targetDir filename
              = Some targetPath
              /\ step i (filePath, category) s
                 = (count_moved category
                      (print (MsgPreview filePath targetPath folderName)
                         (print_if (verbose config)
                            (MsgMoving filename filePath targetPath)
                            (with_world (m_world s) s))), true))).
Proof.
  intros folderName targetDir filename. unfold process_one.
  fold folderName. fold targetDir. fold filename.
  destruct (dryRun config); cbn [negb].
  - right. right. split; [reflexivity|].
    destruct (getUniquePath (m_world s) (clock i) targetDir filename)
      as [targetPath|]; [right; exists targetPath | left]; auto.
  - destruct (create_directories (m_world s) targetDir) as [w1 [|]] eqn:C.
    + right. left. exists w1. split; [reflexivity|]. split; [reflexivity|].
      destruct (getUniquePath w1 (clock i) targetDir filename)
        as [targetPath|]; [right; exists targetPath | left; auto].
      split; [reflexivity|].
      destruct (fs_rename w1 filePath targetPath) as [w2|] eqn:R.
      * left. exists w2. split; reflexivity.
      * right. split; reflexivity.
    + left. exists w1. repeat split.
Qed.

Lemma m_log_print_if b e s :
  m_log (print_if b e s) = (m_log s ++ (if b then [e] else []))%list.
Proof. destruct b; simpl; [reflexivity | rewrite app_nil_r; reflexivity]. Qed.

Lemma pending_weaken files files' e :
  (forall m, In m files -> In m files') ->
  pending files e -> pending files' e.
Proof.
  intros Hincl. destruct e; simpl; try tauto;
    intros (c & H); exists c; intuition auto.
Qed.

Lemma ops_for_weaken files files' ops :
  (forall m, In m files -> In m files') ->
  ops_for currentDir config files ops ->
  ops_for currentDir config files' ops.
Proof.
  intros Hincl H op Hin. specialize (H op Hin).
  destruct op; destruct H as (m & Hm & H); exists m; auto.
Qed.

Lemma ops_for_app files ops1 ops2 :
  ops_for currentDir config files ops1 ->
  ops_for currentDir config files ops2 ->
  ops_for currentDir config files (ops1 ++ ops2).
Proof.
  intros H1 H2 op Hin. apply in_app_iff in Hin as [Hin|Hin];
    [specialize (H1 op Hin) | specialize (H2 op Hin)];
    destruct op; try assumption;
    [destruct H1 as (m & A & B & C & D) | destruct H2 as (m & A & B & C & D)];
    exists m; rewrite in_app_iff; tauto.
Qed.

(** One iteration: what it appends to the log, how it counts, which
    calls change the file system, and that a dry run makes none. *)
Lemma process_one_log i m s :
  exists added ops,
    m_log (fst (step i m s)) = (m_log s ++ added)%list
    /\ m_errorCount (fst (step i m s))
       = m_errorCount s + count_errors added
    /\ Forall (pending [m]) added
    /\ (if snd (step i m s) then reported config m added else added = [])
    /\ run_ops ops (m_world s) = Some (m_world (fst (step i m s)))
    /\ renames ops = moved_lines added
    /\ ops_for currentDir config [m] ops
    /\ (dryRun config = true -> ops = [] /\ no_mutation_event added).
Proof.
  destruct m as [filePath category].
  assert (Hm : In (filePath, category) [(filePath, category)])
    by (left; reflexivity).
  destruct (process_one_cases i filePath category s)
    as [(w1 & Hdry & Hc & ->)
       |[(w1 & Hdry & Hc & [(Hu & ->)
                           |(targetPath & Hu & [(w2 & Hr & ->)|(Hr & ->)])])
        |(Hdry & [(Hu & ->)|(targetPath & Hu & ->)])]];
    cbn [fst snd].
  - exists [ErrCreateDir filePath (folder_name config category)],
      [OpCreateDirectories
         (path_append currentDir (folder_name config category))].
    split; [reflexivity|]. split; [reflexivity|].
    split.
    { constructor; [|constructor]. exists category. simpl. auto. }
    split.
    { exists []. cbn [fst snd]. rewrite Hdry. simpl. auto. }
    split; [cbn [run_ops apply_op]; rewrite Hc; reflexivity|].
    split; [reflexivity|].
    split; [|congruence].
    intros op [<-|[]]. exists (filePath, category). auto.
  - exists [], [OpCreateDirectories
                 (path_append currentDir (folder_name config category))].
    split; [cbn [m_log with_world]; rewrite app_nil_r; reflexivity|].
    split; [cbn [m_errorCount with_world]; unfold count_errors; simpl; lia|].
    split; [constructor|]. split; [reflexivity|].
    split; [cbn [run_ops apply_op]; rewrite Hc; reflexivity|].
    split; [reflexivity|].
    split; [|congruence].
    intros op [<-|[]]. exists (filePath, category). auto.
  - exists ((if verbose config
             then [MsgMoving (path_filename filePath) filePath targetPath]
             else [])
            ++ [MsgMoved filePath targetPath (folder_name config category)])%list,
      [OpCreateDirectories
         (path_append currentDir (folder_name config category));
       OpRename filePath targetPath].
    split.
    { cbn [m_log count_moved print with_world]. rewrite m_log_print_if.
      cbn [m_log with_world]. rewrite <- app_assoc. reflexivity. }
    split.
    { cbn [m_errorCount count_moved print with_world].
      destruct (verbose config); cbn; lia. }
    split.
    { apply Forall_app. split.
      - destruct (verbose config); constructor; [|constructor].
        exists category. simpl. auto.
      - constructor; [|constructor]. exists category. simpl.
        rewrite (getUniquePath_parent _ _ _ _ _ Hu). auto. }
    split.
    { exists targetPath. cbn [fst snd]. rewrite Hdry. left.
      apply in_app_iff. right. left. reflexivity. }
    split.
    { cbn [run_ops apply_op]. rewrite Hc. cbn [fst]. rewrite Hr.
      destruct (verbose config); reflexivity. }
    split.
    { rewrite moved_lines_app. destruct (verbose config); reflexivity. }
    split; [|congruence].
    pose proof (getUniquePath_parent _ _ _ _ _ Hu) as Hparent.
    intros op [<-|[<-|[]]]; exists (filePath, category); split; auto.
    split; [reflexivity|]. split; [exact Hparent|].
    rewrite Hparent. left. reflexivity.
  - exists ((if verbose config
             then [MsgMoving (path_filename filePath) filePath targetPath]
             else [])
            ++ [ErrMove filePath targetPath])%list,
      [OpCreateDirectories
         (path_append currentDir (folder_name config category))].
    split.
    { cbn [m_log count_error print]. rewrite m_log_print_if.
      cbn [m_log with_world]. rewrite <- app_assoc. reflexivity. }
    split.
    { cbn [m_errorCount count_error print].
      destruct (verbose config); cbn; lia. }
    split.
    { apply Forall_app. split.
      - destruct (verbose config); constructor; [|constructor].
        exists category. simpl. auto.
      - constructor; [|constructor]. exists category. simpl.
        rewrite (getUniquePath_parent _ _ _ _ _ Hu). auto. }
    split.
    { exists targetPath. cbn [fst snd]. rewrite Hdry. right. left.
      apply in_app_iff. right. left. reflexivity. }
    split.
    { cbn [run_ops apply_op]. rewrite Hc.
      destruct (verbose config); reflexivity. }
    split.
    { rewrite moved_lines_app. destruct (verbose config); reflexivity. }
    split; [|congruence].
    intros op [<-|[]]. exists (filePath, category). auto.
  - exists [], [].
    split; [cbn [m_log with_world]; rewrite app_nil_r; reflexivity|].
    split; [cbn [m_errorCount with_world]; unfold count_errors; simpl; lia|].
    split; [constructor|]. split; [reflexivity|].
    split; [reflexivity|]. split; [reflexivity|].
    split; [intros op []|].
    intros _. split; [reflexivity | intros e []].
  - exists ((if verbose config
             then [MsgMoving (path_filename filePath) filePath targetPath]
             else [])
            ++ [MsgPreview filePath targetPath
                  (folder_name config category)])%list, [].
    split.
    { cbn [m_log count_moved print]. rewrite m_log_print_if.
      cbn [m_log with_world]. rewrite <- app_assoc. reflexivity. }
    split.
    { cbn [m_errorCount count_moved print].
      destruct (verbose config); cbn; lia. }
    split.
    { apply Forall_app. split.
      - destruct (verbose config); constructor; [|constructor].
        exists category. simpl. auto.
      - constructor; [|constructor]. exists category. simpl.
        rewrite (getUniquePath_parent _ _ _ _ _ Hu). auto. }
    split.
    { exists targetPath. cbn [fst snd]. rewrite Hdry.
      apply in_app_iff. right. left. reflexivity. }
    split.
    { cbn [run_ops m_world count_moved print].
      destruct (verbose config); reflexivity. }
    split.
    { rewrite moved_lines_app. destruct (verbose config); reflexivity. }
    split; [intros op []|].
    intros _. split; [reflexivity|].
    intros e Hin. apply in_app_iff in Hin as [Hin|[<-|[]]]; [|exact I].
    destruct (verbose config); [destruct Hin as [<-|[]]; exact I
                               | destruct Hin].
Qed.

Lemma reported_more m log1 log2 :
  reported config m log1 \/ reported config m log2 ->
  reported config m (log1 ++ log2).
Proof.
  unfold reported.
  intros [(t & H)|(t & H)]; exists t; destruct (dryRun config);
    rewrite ?in_app_iff; tauto.
Qed.

(** The whole loop: [done] are the pending moves it has dealt with when
    it is left. *)
Lemma process_files_log files :
  forall i s,
  exists added ops done rest,
    m_log (fst (run i files s)) = (m_log s ++ added)%list
    /\ m_errorCount (fst (run i files s))
       = m_errorCount s + count_errors added
    /\ Forall (pending files) added
    /\ files = (done ++ rest)%list
    /\ (if snd (run i files s) then rest = [] else rest <> [])
    /\ (forall m, In m done -> reported config m added)
    /\ run_ops ops (m_world s) = Some (m_world (fst (run i files s)))
    /\ renames ops = moved_lines added
    /\ ops_for currentDir config files ops
    /\ (dryRun config = true -> ops = [] /\ no_mutation_event added).
Proof.
  induction files as [|m more IH]; intros i s.
  - exists [], [], [], []. cbn [process_files fst snd]. rewrite app_nil_r.
    split; [reflexivity|].
    split; [unfold count_errors; simpl; lia|].
    split; [constructor|].
    split; [reflexivity|]. split; [reflexivity|].
    split; [intros m []|].
    split; [reflexivity|]. split; [reflexivity|].
    split; [intros op []|].
    intros _. split; [reflexivity | intros e []].
  - cbn [process_files].
    destruct (process_one_log i m s)
      as (a1 & o1 & L1 & E1 & P1 & R1 & W1 & M1 & O1 & D1).
    destruct (step i m s) as [s1 [|]]; cbn [fst snd] in *.
    + destruct (IH (S i) s1)
        as (a2 & o2 & done & rest & L2 & E2 & P2 & F2 & B2 & R2 & W2 & M2
            & O2 & D2).
      exists (a1 ++ a2)%list, (o1 ++ o2)%list, (m :: done), rest.
      split; [rewrite L2, L1, app_assoc; reflexivity|].
      split; [rewrite E2, E1, count_errors_app; lia|].
      split.
      { apply Forall_app. split.
        - eapply Forall_impl; [|exact P1]. intros e.
          apply pending_weaken. intros m0 [<-|[]]. left. reflexivity.
        - eapply Forall_impl; [|exact P2]. intros e.
          apply pending_weaken. intros m0 H. right. exact H. }
      split; [rewrite F2; reflexivity|].
      split; [exact B2|].
      split.
      { intros m0 [<-|Hin]; apply reported_more; auto. }
      split; [apply (run_ops_app _ _ _ _ _ W1 W2)|].
      split; [rewrite renames_app, moved_lines_app, M1, M2; reflexivity|].
      split.
      { apply ops_for_app.
        - apply (ops_for_weaken [m]); [|exact O1].
          intros m0 [<-|[]]. left. reflexivity.
        - apply (ops_for_weaken more); [|exact O2].
          intros m0 H. right. exact H. }
      intros Hdry. destruct (D1 Hdry) as [-> N1].
      destruct (D2 Hdry) as [-> N2].
      split; [reflexivity|].
      intros e Hin. apply in_app_iff in Hin as [Hin|Hin];
        [apply (N1 e Hin) | apply (N2 e Hin)].
    + exists a1, o1, [], (m :: more).
      split; [exact L1|]. split; [exact E1|].
      split.
      { eapply Forall_impl; [|exact P1]. intros e.
        apply pending_weaken. intros m0 [<-|[]]. left. reflexivity. }
      split; [reflexivity|]. split; [discriminate|].
      split; [intros m0 []|].
      split; [exact W1|]. split; [exact M1|].
      split; [|exact D1].
      apply (ops_for_weaken [m]); [|exact O1].
      intros m0 [<-|[]]. left. reflexivity.
Qed.

(** The loop is left by an exception exactly when the collision
    resolution of one of the pending moves throws. *)
Lemma process_one_throws i m s :
  snd (step i m s) = false
  <-> exists w1,
        (if dryRun config then (m_world s, true)
         else create_directories (m_world s)
                (target_dir currentDir config m)) = (w1, true)
        /\ getUniquePath w1 (clock i) (target_dir currentDir config m)
             (path_filename (fst m)) = None.
Proof.
  destruct m as [filePath category]. unfold target_dir. cbn [fst snd].
  destruct (process_one_cases i filePath category s)
    as [(w1 & Hdry & Hc & ->)
       |[(w1 & Hdry & Hc & [(Hu & ->)
                           |(targetPath & Hu & [(w2 & Hr & ->)|(Hr & ->)])])
        |(Hdry & [(Hu & ->)|(targetPath & Hu & ->)])]];
    cbn [snd]; rewrite Hdry, ?Hc.
  - split; [discriminate | intros (w0 & H & _); discriminate].
  - split; [intros _; exists w1; auto | reflexivity].
  - split; [discriminate|]. intros (w0 & H & Hu0).
    inversion H; subst. congruence.
  - split; [discriminate|]. intros (w0 & H & Hu0).
    inversion H; subst. congruence.
  - split; [intros _; exists (m_world s); auto | reflexivity].
  - split; [discriminate|]. intros (w0 & H & Hu0).
    inversion H; subst. congruence.
Qed.

Lemma process_files_throws files :
  forall i s,
    snd (run i files s) = false
    <-> exists done m rest s1 w1,
          files = (done ++ m :: rest)%list
          /\ run i done s = (s1, true)
          /\ (if dryRun config then (m_world s1, true)
              else create_directories (m_world s1)
                     (target_dir currentDir config m)) = (w1, true)
          /\ getUniquePath w1 (clock (i + length done))
               (target_dir currentDir config m) (path_filename (fst m))
             = None.
Proof.
  induction files as [|m more IH]; intros i s.
  - cbn [process_files snd]. split; [discriminate|].
    intros (done & m & rest & _ & _ & H & _).
    destruct done; discriminate.
  - cbn [process_files].
    pose proof (process_one_throws i m s) as T.
    destruct (step i m s) as [s1 [|]] eqn:E; cbn [snd] in *.
    + rewrite IH. split.
      * intros (done & m0 & rest & s2 & w1 & F & R & C & U).
        exists (m :: done), m0, rest, s2, w1.
        split; [rewrite F; reflexivity|].
        split; [cbn [process_files]; rewrite E; exact R|].
        split; [exact C|].
        cbn [length]. rewrite Nat.add_succ_r. exact U.
      * intros (done & m0 & rest & s2 & w1 & F & R & C & U).
        destruct done as [|m1 done].
        -- exfalso. cbn [app] in F. inversion F; subst m0 rest.
           cbn [process_files] in R. inversion R; subst s2.
           cbn [length] in U. rewrite Nat.add_0_r in U.
           assert (true = false) by (apply T; exists w1; auto).
           discriminate.
        -- cbn [app] in F. inversion F; subst m1 more.
           cbn [process_files] in R. rewrite E in R.
           exists done, m0, rest, s2, w1.
           split; [reflexivity|]. split; [exact R|]. split; [exact C|].
           cbn [length] in U. rewrite Nat.add_succ_r in U. exact U.
    + split; [|reflexivity]. intros _.
      destruct (proj1 T eq_refl) as (w1 & C & U).
      exists [], m, more, s, w1.
      split; [reflexivity|]. split; [reflexivity|]. split; [exact C|].
      cbn [length]. rewrite Nat.add_0_r. exact U.
Qed.

Lemma count_errors_nonneg log : 0 <= count_errors log.
Proof. unfold count_errors. lia. Qed.

Lemma count_errors_positive log :
  0 < count_errors log <-> exists e, In e log /\ is_move_error e = true.
Proof.
  unfold count_errors. split.
  - intros H. destruct (filter is_move_error log) as [|e l] eqn:F;
      [simpl in H; lia|].
    exists e. apply filter_In. rewrite F. left. reflexivity.
  - intros (e & Hin & He).
    assert (In e (filter is_move_error log)) as H
      by (apply filter_In; auto).
    destruct (filter is_move_error log); [destruct H | simpl; lia].
Qed.
End MoverFacts.

(** ** The program as a whole *)

Lemma walker_event_no_source log :
  Forall (fun e => is_walker_event e = true) log ->
  forall e, In e log ->
    event_source e = None /\ is_move_error e = false
    /\ match e with
       | MsgMoved _ _ _ | ErrMove _ _ | ErrCreateDir _ _ | MsgPreview _ _ _ =>
           False
       | _ => True
       end.
Proof.
  intros H e Hin. rewrite Forall_forall in H. specialize (H e Hin).
  destruct e; try discriminate; auto.
Qed.

Lemma walker_log_no_moved_lines log :
  Forall (fun e => is_walker_event e = true) log -> moved_lines log = [].
Proof.
  induction 1 as [|e log He _ IH]; simpl; [reflexivity|].
  destruct e; try discriminate; exact IH.
Qed.

Lemma banner_walker_log currentDir config :
  Forall (fun e => is_walker_event e = true) (banner currentDir config).
Proof.
  unfold banner.
  destruct (recursive config), (negb (String.eqb (prefix config) "")),
    (dryRun config); repeat constructor.
Qed.

(** The top-level loop is left by an exception exactly when the listing
    throws. *)
Lemma collectTopLevel_returns programName config dir :
  forall entries complete st skipped,
    snd (collectTopLevel programName config dir entries complete st skipped)
    = negb (listing_throws (entries, complete)).
Proof.
  unfold listing_throws. cbn [fst snd].
  induction entries as [|entry more IH]; intros complete st skipped.
  - cbn [collectTopLevel snd forallb negb orb]. destruct complete; reflexivity.
  - cbn [collectTopLevel forallb].
    destruct (d_is_directory entry) as [[|]|]; cbn [andb negb orb snd];
      [| |reflexivity];
      repeat match goal with
             | |- context [if ?c then _ else _] => destruct c
             end; apply IH.
Qed.

Section ProgramFacts.
Context {FS : FileSystem}.
Variable clock : nat -> Z.
Variable currentDir : path.
Variable config : Config.
Variable w : World.
Variable programName : string.

Lemma found_pending_ok d m :
  found programName config (depth config) currentDir d m ->
  1 <= d ->
  (recursive config = true -> d = 1) ->
  pending_ok programName config currentDir m.
Proof.
  intros (comps & name & Hp & Hc & Hn & Hprog & Hcat & Hd & Hr) H1 Hrec.
  exists comps, name.
  split; [exact Hp|].
  split.
  { eapply Forall_impl; [|exact Hc]. intros a. apply shouldSkip_false. }
  split; [apply shouldSkip_false; exact Hn|].
  split; [exact Hprog|]. split; [exact Hcat|].
  destruct (recursive config); [rewrite Hrec in Hd by reflexivity; lia|].
  apply Hr. reflexivity.
Qed.

(** Every pending move is a file the walk was entitled to take, and the
    output so far is the banner and the walker's messages, however the
    collection ends. *)
Lemma collect_sound files log skipped returned :
  collect currentDir config w programName
  = ((files, log), skipped, returned) ->
  Forall (fun e => is_walker_event e = true) log
  /\ forall m, In m files -> pending_ok programName config currentDir m.
Proof.
  unfold collect. destruct (recursive config) eqn:Hr.
  - destruct (collectFiles w programName config (depth config)
                (walk_fuel 1 (depth config)) currentDir 1
                ([], banner currentDir config)) as [st|] eqn:E;
      intros H; inversion H; subst.
    + split.
      * apply (collectFiles_walker_log _ _ _ _ _ _ _ _ _ E).
        apply banner_walker_log.
      * intros m Hin.
        destruct (collectFiles_sound _ _ _ _ _ _ _ _ _ m E Hin)
          as [[]|Hf].
        apply (found_pending_ok 1 m Hf); [lia | auto].
    + split; [apply banner_walker_log | intros m []].
  - destruct (directory_iterator w currentDir) as [entries complete].
    intros E.
    split.
    + change log with (snd (fst (fst ((files, log), skipped, returned)))).
      rewrite <- E.
      apply collectTopLevel_walker_log. apply banner_walker_log.
    + intros m Hin.
      assert (In m (fst (fst (fst (collectTopLevel programName config
                                     currentDir entries complete
                                     ([], banner currentDir config) 0)))))
        as Hin' by (rewrite E; exact Hin).
      destruct (collectTopLevel_sound programName config
                  (Z.max 1 (depth config)) currentDir _ _ _ _ _ Hin')
        as [[]|(comps & name & Hp & Hc & Hn & Hprog & Hcat & Hd & Hrec)].
      exists comps, name.
      split; [exact Hp|]. split.
      { eapply Forall_impl; [|exact Hc]. intros a. apply shouldSkip_false. }
      split; [apply shouldSkip_false; exact Hn|].
      split; [exact Hprog|]. split; [exact Hcat|].
      rewrite Hr. apply Hrec. exact Hr.
Qed.

(** In recursive mode the walk returns with the fuel it is given, and
    no exception leaves it. *)
Lemma collect_recursive :
  recursive config = true ->
  exists st,
    collectFiles w programName config (depth config)
      (walk_fuel 1 (depth config)) currentDir 1
      ([], banner currentDir config) = Some st
    /\ collect currentDir config w programName = (st, 0, true).
Proof.
  intros Hr.
  destruct (collectFiles_total w programName config (depth config)
              (walk_fuel 1 (depth config)) currentDir 1
              ([], banner currentDir config)) as [st E].
  { unfold walk_fuel. lia. }
  exists st. split; [exact E|]. unfold collect. rewrite Hr, E. reflexivity.
Qed.

(** The collection is left by an exception exactly when the walk is not
    recursive and the listing of the working directory throws. *)
Lemma collect_returns :
  snd (collect currentDir config w programName)
  = (recursive config
     || negb (listing_throws (directory_iterator w currentDir)))%bool.
Proof.
  destruct (recursive config) eqn:Hr.
  - destruct (collect_recursive Hr) as (st & _ & ->). reflexivity.
  - unfold collect. rewrite Hr.
    destruct (directory_iterator w currentDir) as [entries complete].
    apply collectTopLevel_returns.
Qed.

(** The four ways [organizeFiles] ends. *)
Lemma organizeFiles_cases :
  (exists files log skipped,
      collect currentDir config w programName
      = ((files, log), skipped, false)
      /\ organizeFiles clock currentDir config w programName
         = (Terminate, w, log))
  \/ (exists log skipped,
         collect currentDir config w programName
         = (([], log), skipped, true)
         /\ organizeFiles clock currentDir config w programName
            = (Exit 0, w, (log ++ [MsgNoFiles])%list))
  \/ (exists files log skipped added ops w' summary,
         collect currentDir config w programName
         = ((files, log), skipped, true)
         /\ files <> []
         /\ snd (process_files clock currentDir config 0 files
                   (mkMstate w [] 0 log)) = true
         /\ organizeFiles clock currentDir config w programName
            = (if count_errors added >? 0 then Exit 1 else Exit 0, w',
               (log ++ added ++ [summary])%list)
         /\ summary
            = MsgSummary
                (m_movedCount
                   (fst (process_files clock currentDir config 0 files
                           (mkMstate w [] 0 log))))
                (length files) skipped (count_errors added)
         /\ mover_did currentDir config files w added ops w'
         /\ (forall m, In m files -> reported config m added))
  \/ (exists files log skipped added ops w' done rest,
         collect currentDir config w programName
         = ((files, log), skipped, true)
         /\ files = (done ++ rest)%list
         /\ rest <> []
         /\ snd (process_files clock currentDir config 0 files
                   (mkMstate w [] 0 log)) = false
         /\ organizeFiles clock currentDir config w programName
            = (Terminate, w', (log ++ added)%list)
         /\ mover_did currentDir config files w added ops w'
         /\ (forall m, In m done -> reported config m added)).
Proof.
  unfold organizeFiles.
  destruct (collect currentDir config w programName)
    as [[[files log] skipped] [|]] eqn:C.
  - right. destruct files as [|m more].
    + left. exists log, skipped. auto.
    + right.
      destruct (process_files_log clock currentDir config (m :: more) O
                  (mkMstate w [] 0 log))
        as (added & ops & done & rest & L & E & P & F & B & R & W & M & O
            & D).
      cbn [m_log m_errorCount m_world] in L, E, W.
      destruct (process_files clock currentDir config 0 (m :: more)
                  (mkMstate w [] 0 log)) as [s [|]] eqn:Run;
        cbn [fst snd] in *.
      * left. subst rest. rewrite app_nil_r in F. subst done.
        exists (m :: more), log, skipped, added, ops, (m_world s).
        eexists. rewrite Run. cbn [fst snd].
        split; [reflexivity|]. split; [discriminate|].
        split; [reflexivity|].
        split.
        { rewrite E, L, Z.add_0_l, <- app_assoc.
          destruct (count_errors added >? 0); reflexivity. }
        split; [reflexivity|].
        split; [exact (conj P (conj W (conj M (conj O D))))|]. exact R.
      * right.
        exists (m :: more), log, skipped, added, ops, (m_world s), done,
          rest. rewrite Run. cbn [fst snd].
        split; [reflexivity|]. split; [exact F|]. split; [exact B|].
        split; [reflexivity|].
        split; [rewrite L; reflexivity|].
        split; [exact (conj P (conj W (conj M (conj O D))))|]. exact R.
  - left. exists files, log, skipped. auto.
Qed.

(** The file system [organizeFiles] leaves behind is the one it was
    given after the directory creations it called for and the renames
    that succeeded; these renames are the ones its output reports as
    done. *)
Lemma organizeFiles_operations :
  exists ops,
    run_ops ops w
    = Some (snd (fst (organizeFiles clock currentDir config w programName)))
    /\ renames ops
       = moved_lines
           (snd (organizeFiles clock currentDir config w programName))
    /\ ops_for currentDir config
         (pending_moves currentDir config w programName) ops
    /\ (dryRun config = true -> ops = []).
Proof.
  unfold pending_moves.
  destruct organizeFiles_cases
    as [(files & log & skipped & C & ->)
       |[(log & skipped & C & ->)
        |[(files & log & skipped & added & ops & w' & summary & C & _ & _
           & -> & Hs & (_ & W & M & O & D) & _)
         |(files & log & skipped & added & ops & w' & done & rest & C & _
           & _ & _ & -> & (_ & W & M & O & D) & _)]]];
    rewrite C; cbn [fst snd];
    destruct (collect_sound _ _ _ _ C) as [Hlog _].
  - exists []. rewrite (walker_log_no_moved_lines _ Hlog).
    repeat split; auto. intros op [].
  - exists []. rewrite moved_lines_app, (walker_log_no_moved_lines _ Hlog).
    repeat split; auto. intros op [].
  - exists ops. rewrite !moved_lines_app, (walker_log_no_moved_lines _ Hlog).
    rewrite Hs. cbn [moved_lines app]. rewrite app_nil_r.
    repeat split; auto. intros Hdry. apply (D Hdry).
  - exists ops. rewrite !moved_lines_app, (walker_log_no_moved_lines _ Hlog).
    repeat split; auto. intros Hdry. apply (D Hdry).
Qed.

(** Every line of the output that is about a file is about a pending
    move. *)
Lemma organizeFiles_from_pending e :
  In e (snd (organizeFiles clock currentDir config w programName)) ->
  (exists src, event_source e = Some src)
  \/ is_move_error e = true
  \/ (exists src dst folderName, e = MsgPreview src dst folderName) ->
  from_pending currentDir config
    (pending_moves currentDir config w programName) e.
Proof.
  unfold pending_moves. intros Hin He.
  assert (forall log,
             Forall (fun e => is_walker_event e = true) log ->
             ~ In e log) as Not_walker.
  { intros log Hlog Hin'.
    destruct (walker_event_no_source _ Hlog e Hin') as (N1 & N2 & N3).
    destruct He as [(src & He)|[He|(src & dst & f & ->)]];
      [congruence | congruence | exact N3]. }
  destruct organizeFiles_cases
    as [(files & log & skipped & C & E)
       |[(log & skipped & C & E)
        |[(files & log & skipped & added & ops & w' & summary & C & _ & _
           & E & Hs & (P & _) & _)
         |(files & log & skipped & added & ops & w' & done & rest & C & _
           & _ & _ & E & (P & _) & _)]]];
    rewrite E in Hin; rewrite C; cbn [fst snd] in *;
    destruct (collect_sound _ _ _ _ C) as [Hlog _].
  - destruct (Not_walker _ Hlog Hin).
  - exfalso. apply in_app_iff in Hin as [Hin|[<-|[]]];
      [exact (Not_walker _ Hlog Hin)|].
    destruct He as [(src & He)|[He|(src & dst & f & He)]]; discriminate.
  - apply in_app_iff in Hin as [Hin|Hin];
      [destruct (Not_walker _ Hlog Hin)|].
    apply in_app_iff in Hin as [Hin|[<-|[]]].
    + rewrite Forall_forall in P. apply (P e Hin).
    + exfalso. rewrite Hs in He.
      destruct He as [(src & He)|[He|(src & dst & f & He)]]; discriminate.
  - apply in_app_iff in Hin as [Hin|Hin];
      [destruct (Not_walker _ Hlog Hin)|].
    rewrite Forall_forall in P. apply (P e Hin).
Qed.

(** A run that comes to its end has dealt with every pending move. *)
Lemma organizeFiles_reported m :
  fst (fst (organizeFiles clock currentDir config w programName))
  <> Terminate ->
  In m (pending_moves currentDir config w programName) ->
  reported config m
    (snd (organizeFiles clock currentDir config w programName)).
Proof.
  unfold pending_moves.
  destruct organizeFiles_cases
    as [(files & log & skipped & C & E)
       |[(log & skipped & C & E)
        |[(files & log & skipped & added & ops & w' & summary & C & _ & _
           & E & Hs & _ & R)
         |(files & log & skipped & added & ops & w' & done & rest & C & _
           & _ & _ & E & _ & _)]]];
    rewrite E, C; cbn [fst snd]; intros Hend Hin;
    try (exfalso; apply Hend; reflexivity).
  - destruct Hin.
  - apply reported_more. right. apply reported_more. left. apply (R m Hin).
Qed.

(** The exit status in terms of the output. *)
Lemma organizeFiles_status :
  let result :=
    fst (fst (organizeFiles clock currentDir config w programName)) in
  let output := snd (organizeFiles clock currentDir config w programName) in
  (result = Exit 0 \/ result = Exit 1 \/ result = Terminate)
  /\ (result = Exit 1
      <-> result <> Terminate
          /\ exists e, In e output /\ is_move_error e = true)
  /\ (result = Terminate
      <-> snd (collect currentDir config w programName) = false
          \/ snd (process_files clock currentDir config 0
                    (pending_moves currentDir config w programName)
                    (mkMstate w [] 0
                       (snd (fst (fst (collect currentDir config w
                                         programName)))))) = false).
Proof.
  cbv zeta. unfold pending_moves.
  destruct organizeFiles_cases
    as [(files & log & skipped & C & E)
       |[(log & skipped & C & E)
        |[(files & log & skipped & added & ops & w' & summary & C & _ & Run
           & E & Hs & _ & _)
         |(files & log & skipped & added & ops & w' & done & rest & C & _
           & _ & Run & E & _ & _)]]];
    rewrite E, C; cbn [fst snd];
    destruct (collect_sound _ _ _ _ C) as [Hlog _].
  - split; [auto|]. split.
    + split; [discriminate | intros [N _]; destruct N; reflexivity].
    + split; auto.
  - split; [auto|]. split.
    + split; [discriminate|]. intros (_ & e & Hin & He). exfalso.
      apply in_app_iff in Hin as [Hin|[<-|[]]]; [|discriminate].
      destruct (walker_event_no_source _ Hlog e Hin) as (_ & N & _).
      congruence.
    + split; [discriminate|]. intros [H|H]; [discriminate|].
      cbn [process_files snd] in H. discriminate.
  - split; [destruct (count_errors added >? 0); auto|]. split.
    + destruct (Z.gtb_spec (count_errors added) 0) as [G|G].
      * split; [|reflexivity]. intros _. split; [discriminate|].
        apply count_errors_positive in G as (e & Hin & He).
        exists e. rewrite !in_app_iff. tauto.
      * split; [discriminate|]. intros (_ & e & Hin & He). exfalso.
        apply in_app_iff in Hin as [Hin|Hin].
        { destruct (walker_event_no_source _ Hlog e Hin) as (_ & N & _).
          congruence. }
        apply in_app_iff in Hin as [Hin|[<-|[]]];
          [|rewrite Hs in He; discriminate].
        assert (0 < count_errors added)
          by (apply count_errors_positive; exists e; auto).
        lia.
    + split.
      * destruct (count_errors added >? 0); discriminate.
      * intros [H|H]; [discriminate | congruence].
  - split; [auto|]. split.
    + split; [discriminate | intros [N _]; destruct N; reflexivity].
    + split; auto.
Qed.
End ProgramFacts.

(** ** Skip rules (C8) *)

(** C8.  In both modes, no pending move has a source whose file name is in
    the skip list or starts with '.', nor one that lies below a directory
    of the working directory with such a name.  Neither does any line the
    mover prints have such a source.  And the walk does not enter a
    directory with such a name: it goes on with the entries after it
    without making the nested call. *)
Theorem skipped_names_never_pending {FS : FileSystem} (clock : nat -> Z)
  (currentDir : path) (config : Config) (w : World) (programName : string) :
  (forall files log skipped returned p category,
      collect currentDir config w programName
      = ((files, log), skipped, returned) ->
      In (p, category) files ->
      exists comps name,
        p = (currentDir ++ comps ++ [name])%list
        /\ Forall not_skipped comps
        /\ not_skipped name
        /\ (recursive config = false -> comps = []))
  /\ (forall e src,
        In e (snd (organizeFiles clock currentDir config w programName)) ->
        event_source e = Some src ->
        exists comps name,
          src = (currentDir ++ comps ++ [name])%list
          /\ Forall not_skipped comps
          /\ not_skipped name)
  /\ (forall maxDepth recurse dir d entry more complete st,
        d_is_directory entry = Some true ->
        starts_with_dot (d_name entry) = true
        \/ In (d_name entry) SKIP_PATTERNS ->
        each_entry programName config maxDepth recurse dir d (entry :: more)
          complete st
        = each_entry programName config maxDepth recurse dir d more complete
            (say_if (verbose config)
               (MsgSkippingPath (path_child dir (d_name entry))) st)).
Proof.
  assert (forall files log skipped returned p category,
             collect currentDir config w programName
             = ((files, log), skipped, returned) ->
             In (p, category) files ->
             exists comps name,
               p = (currentDir ++ comps ++ [name])%list
               /\ Forall not_skipped comps
               /\ not_skipped name
               /\ (recursive config = false -> comps = [])) as Pending.
  { intros files log skipped returned p category C Hin.
    destruct (collect_sound currentDir config w programName _ _ _ _ C)
      as [_ Hok].
    destruct (Hok _ Hin) as (comps & name & Hp & Hc & Hn & _ & _ & Hd).
    exists comps, name. repeat split; try assumption; try apply Hn.
    intros Hr. rewrite Hr in Hd. exact Hd. }
  split; [exact Pending|].
  split.
  2:{ intros maxDepth recurse dir d entry more complete st Hdir Hname.
      cbn [each_entry].
      rewrite Hdir, shouldSkip_child, (shouldSkip_true _ Hname).
      reflexivity. }
  intros e src Hin Hsrc.
  assert (forall files log skipped returned added,
             collect currentDir config w programName
             = ((files, log), skipped, returned) ->
             Forall (from_pending currentDir config files) added ->
             In e (log ++ added)%list ->
             exists comps name,
               src = (currentDir ++ comps ++ [name])%list
               /\ Forall not_skipped comps /\ not_skipped name) as Source.
  { intros files log skipped returned added C P Hin'.
    destruct (collect_sound currentDir config w programName _ _ _ _ C)
      as [Hlog _].
    apply in_app_iff in Hin' as [Hin'|Hin'].
    { destruct (walker_event_no_source _ Hlog e Hin') as [N _]. congruence. }
    rewrite Forall_forall in P. specialize (P e Hin').
    assert (exists category, In (src, category) files) as [category Hf].
    { destruct e; try discriminate; simpl in Hsrc; inversion Hsrc; subst;
        simpl in P; destruct P as (c & P); exists c; tauto. }
    destruct (Pending _ _ _ _ _ _ C Hf) as (comps & name & Hp & Hc & Hn & _).
    exists comps, name. auto. }
  destruct (organizeFiles_cases clock currentDir config w programName)
    as [(files & log & skipped & C & E)
       |[(log & skipped & C & E)
        |[(files & log & skipped & added & ops & w' & summary & C & _ & _
           & E & Hs & (P & _) & _)
         |(files & log & skipped & added & ops & w' & done & rest & C & _
           & _ & _ & E & (P & _) & _)]]];
    rewrite E in Hin; cbn [snd] in Hin.
  - apply (Source _ _ _ _ [] C (Forall_nil _)). rewrite app_nil_r. exact Hin.
  - apply in_app_iff in Hin as [Hin|[<-|[]]]; [|discriminate].
    apply (Source _ _ _ _ [] C (Forall_nil _)). rewrite app_nil_r. exact Hin.
  - rewrite app_assoc in Hin. apply in_app_iff in Hin as [Hin|[<-|[]]].
    + apply (Source _ _ _ _ added C P Hin).
    + rewrite Hs in Hsrc. discriminate.
  - apply (Source _ _ _ _ added C P Hin).
Qed.

(** The skip-rule theorem on a project directory with a hidden
    file, a .git and a node_modules directory, walked two levels deep. *)
Lemma skipped_names_never_pending_witness :
  exists comps name,
    path_child (path_child home "sub") "deep.txt"
    = (home ++ comps ++ [name])%list
    /\ Forall not_skipped comps
    /\ not_skipped name
    /\ (recursive recursive_depth_2 = false -> comps = []).
Proof.
  destruct (skipped_names_never_pending (FS := FlatFS.fs) clock0 home
              recursive_depth_2 project "forg") as (H & _ & _).
  eapply H.
  - vm_compute. reflexivity.
  - right. left. reflexivity.
Defined.

(** ** Folder names *)

Lemma has_char_app c s t :
  has_char c (s ++ t) = (has_char c s || has_char c t)%bool.
Proof.
  induction s as [|a s IH]; simpl; [reflexivity|].
  rewrite IH, orb_assoc. reflexivity.
Qed.

Lemma split_raw_plain s : has_char slash s = false -> split_raw s = [s].
Proof.
  induction s as [|a s IH]; simpl; [reflexivity|].
  intros H. apply orb_false_iff in H as [Ha Hs].
  rewrite Ha, (IH Hs). reflexivity.
Qed.

(** A name without separator is appended as one component. *)
Lemma path_append_plain p s :
  has_char slash s = false -> s <> "" -> path_append p s = (p ++ [s])%list.
Proof.
  intros H Hne. destruct s as [|a s]; [contradiction|].
  unfold path_append, split_path. rewrite (split_raw_plain _ H).
  simpl in H. apply orb_false_iff in H as [Ha _]. rewrite Ha.
  reflexivity.
Qed.

Lemma first_category_in table ext :
  first_category table ext = "Others"
  \/ In (first_category table ext) (map fst table).
Proof.
  induction table as [|[c e] table IH]; simpl; [auto|].
  destruct (vec_contains e ext); [auto|]. destruct IH; auto.
Qed.

(** The categories are plain folder names. *)
Lemma classify_plain filename :
  has_char slash (classify filename) = false /\ classify filename <> "".
Proof.
  unfold classify, getCategory.
  destruct (String.eqb (getFileExtension filename) "");
    [split; [reflexivity | discriminate]|].
  destruct (first_category_in FILE_CATEGORIES (getFileExtension filename))
    as [-> | H]; [split; [reflexivity | discriminate]|].
  revert H. generalize (first_category FILE_CATEGORIES
                          (getFileExtension filename)).
  intros c H. vm_compute in H.
  repeat (destruct H as [<-|H]; [split; [reflexivity | discriminate]|]).
  destruct H.
Qed.

Lemma folder_name_prefix config category :
  folder_name config category = prefix config ++ category.
Proof.
  unfold folder_name. destruct (String.eqb_spec (prefix config) "") as [->|_];
    reflexivity.
Qed.

Lemma pending_ok_category programName config currentDir src category :
  pending_ok programName config currentDir (src, category) ->
  category = classify (path_filename src).
Proof.
  intros (comps & name & Hp & _ & _ & _ & Hc & _). simpl in Hp, Hc.
  rewrite Hc, Hp. unfold path_filename.
  rewrite app_assoc, last_last. reflexivity.
Qed.

(** With a prefix that has no separator, the folder of a pending move is
    a directory of the working directory itself. *)
Lemma target_dir_plain programName config currentDir m :
  pending_ok programName config currentDir m ->
  has_char slash (prefix config) = false ->
  target_dir currentDir config m
  = (currentDir ++ [(prefix config ++ snd m)%string])%list.
Proof.
  destruct m as [src category]. intros Hok Hplain.
  rewrite (pending_ok_category _ _ _ _ _ Hok).
  unfold target_dir. cbn [snd]. rewrite folder_name_prefix.
  apply path_append_plain.
  - rewrite has_char_app, Hplain.
    apply (classify_plain (path_filename src)).
  - destruct (classify_plain (path_filename src)) as [_ N].
    destruct (prefix config); [exact N | discriminate].
Qed.

Lemma removelast_below (p rel : path) :
  rel <> [] -> removelast (p ++ rel) = (p ++ removelast rel)%list.
Proof. intros H. apply removelast_app. exact H. Qed.

(** ** The depth bound (C7) *)


(** The walk over the project directory gets to [sub], and in [sub] to
    deep.txt. *)
Lemma project_reaches_sub :
  reaches (FS := FlatFS.fs) project 2 home 2 (path_child home "sub").
Proof.
  change 2 with (1 + 1) at 2.
  apply (reaches_sub (FS := FlatFS.fs) project 2 home 1 home
           (Build_dirent "sub" (Some true))).
  - apply reaches_root.
  - reflexivity.
  - exists [ Build_dirent "photo.JPG" (Some false);
             Build_dirent ".hidden" (Some false);
             Build_dirent ".git" (Some true);
             Build_dirent "node_modules" (Some true) ], [].
    split; [vm_compute; reflexivity|].
    repeat constructor; discriminate.
  - reflexivity.
  - reflexivity.
Qed.



(** A run that is cut short: the folder Documents is there but cannot be
    searched, so [fs::exists] throws in the collision resolution for
    sub/a.txt; nothing catches the exception and the file stays where it
    is. *)
Example unsearchable_folder_ends_run :
  pending_moves (FS := FlatFS.fs) home recursive_depth_2
    locked_documents_deep "forg"
  = [(path_child (path_child home "sub") "a.txt", "Documents")]
  /\ organizeFiles (FS := FlatFS.fs) clock0 home recursive_depth_2
       locked_documents_deep "forg"
     = (Terminate, locked_documents_deep,
        [MsgOrganizing home; MsgRecursive 2;
         ErrAccess (path_child home "Documents")]).
Proof. split; vm_compute; reflexivity. Qed.

(** ** Destination folders (C10) *)

(** [p / s] for a string that starts with a separator, and for one that
    does not. *)
Lemma path_append_absolute p rest :
  path_append p (String slash rest) = split_path (String slash rest).
Proof. reflexivity. Qed.

Lemma path_append_relative p c rest :
  c <> slash ->
  path_append p (String c rest) = (p ++ split_path (String c rest))%list.
Proof.
  intros H. unfold path_append.
  destruct (Ascii.eqb_spec c slash); [contradiction | reflexivity].
Qed.




(** ** Dry run (C6, X23) *)

Lemma no_mutation_no_error log :
  no_mutation_event log -> count_errors log = 0.
Proof.
  intros H. pose proof (count_errors_nonneg log) as Hn.
  destruct (Z.eq_dec (count_errors log) 0) as [E|N]; [exact E|].
  assert (0 < count_errors log) as Hpos by lia.
  apply count_errors_positive in Hpos as (e & Hin & He).
  specialize (H e Hin). destruct e; try discriminate; destruct H.
Qed.

Lemma walker_log_no_mutation log :
  Forall (fun e => is_walker_event e = true) log -> no_mutation_event log.
Proof.
  intros H e Hin. destruct (walker_event_no_source log H e Hin) as (_ & _ & N).
  destruct e; auto.
Qed.

Lemma no_mutation_app l1 l2 :
  no_mutation_event l1 -> no_mutation_event l2 -> no_mutation_event (l1 ++ l2).
Proof.
  intros H1 H2 e Hin. apply in_app_iff in Hin as [Hin|Hin];
    [apply (H1 e Hin) | apply (H2 e Hin)].
Qed.

Lemma parse_loop_warnings n :
  forall args config,
    (length args <= n)%nat ->
    Forall (fun e => is_parser_warning e = true) (snd (parse_loop args config)).
Proof.
  induction n as [|n IH]; intros args config Hlen.
  - destruct args; [constructor | simpl in Hlen; lia].
  - destruct args as [|arg rest]; [constructor|].
    simpl in Hlen. cbn [parse_loop].
    repeat match goal with
           | |- context [if ?b then _ else _] =>
               destruct b; [apply IH; lia|]
           end.
    destruct (is_flag arg "-d" "--depth"), rest as [|value rest'];
      try (destruct (is_flag arg "-p" "--prefix"));
      try (cbn [emit snd]; constructor; [reflexivity|]);
      try (apply IH; simpl in *; lia).
    all: destruct (stoi value) as [m| |];
      [ destruct (m <? 1);
        [ cbn [emit snd]; constructor; [reflexivity|]; apply IH;
          simpl in *; lia
        | apply IH; simpl in *; lia ]
      | destruct rest' as [|x rest''];
        [ repeat constructor
        | cbn [emit snd]; constructor; [reflexivity|]; apply IH;
          simpl in *; lia ] .. ].
Qed.

Lemma parseArguments_warnings argv e :
  In e (snd (parseArguments argv)) -> is_parser_warning e = true.
Proof.
  intros Hin.
  pose proof (parse_loop_warnings (length (tl argv)) (tl argv) default_config
                (le_n _)) as H.
  rewrite Forall_forall in H. apply (H e Hin).
Qed.

(** What a dry run does. *)
Lemma organizeFiles_dry_run {FS : FileSystem} clock currentDir config
  (w : World) programName :
  dryRun config = true ->
  let run := organizeFiles clock currentDir config w programName in
  snd (fst run) = w
  /\ no_mutation_event (snd run)
  /\ fst (fst run) <> Exit 1.
Proof.
  intros Hdry. cbv zeta.
  destruct (organizeFiles_operations clock currentDir config w programName)
    as (ops & W & _ & _ & D).
  rewrite (D Hdry) in W. cbn [run_ops] in W.
  split; [congruence|].
  assert (no_mutation_event
            (snd (organizeFiles clock currentDir config w programName)))
    as Quiet.
  { destruct (organizeFiles_cases clock currentDir config w programName)
      as [(files & log & skipped & C & E)
         |[(log & skipped & C & E)
          |[(files & log & skipped & added & ops' & w' & summary & C & _ & _
             & E & Hs & (_ & _ & _ & _ & D') & _)
           |(files & log & skipped & added & ops' & w' & done & rest & C & _
             & _ & _ & E & (_ & _ & _ & _ & D') & _)]]];
      rewrite E; cbn [snd];
      destruct (collect_sound currentDir config w programName _ _ _ _ C)
        as [Hlog _];
      apply walker_log_no_mutation in Hlog.
    - exact Hlog.
    - apply no_mutation_app; [exact Hlog|]. intros e [<-|[]]. exact I.
    - apply no_mutation_app; [exact Hlog|].
      apply no_mutation_app; [apply (D' Hdry)|].
      intros e [<-|[]]. rewrite Hs. exact I.
    - apply no_mutation_app; [exact Hlog | apply (D' Hdry)]. }
  split; [exact Quiet|].
  destruct (organizeFiles_status clock currentDir config w programName)
    as (_ & H1 & _). cbv zeta in H1.
  intros E1. apply H1 in E1 as (_ & e & Hin & He).
  specialize (Quiet e Hin). destruct e; try discriminate; exact Quiet.
Qed.

(** X23.  With the dry-run flag set in the configuration,
    [organizeFiles] leaves the file system it was given as it is, whatever
    that is and whatever the other flags are: no directory is created and
    no file renamed, also when the run is cut short.  Its output has no
    line of a rename or of a directory creation, done or failed; the exit
    status is not 1; every preview line shows a pending move with a
    destination in its category folder; and when the run comes to its end,
    not stopped by an exception that nothing catches, every pending move
    has its preview line.  The same holds of [main] on any argument list
    that parses to such a configuration, as every argument list does in
    which a dry-run flag occurs and no depth or prefix option. *)
Theorem dry_run_changes_nothing {FS : FileSystem} (clock : nat -> Z)
  (currentDir : path) (w : World) :
  (forall config programName,
      dryRun config = true ->
      let run := organizeFiles clock currentDir config w programName in
      snd (fst run) = w
      /\ no_mutation_event (snd run)
      /\ fst (fst run) <> Exit 1
      /\ (forall src dst folderName,
            In (MsgPreview src dst folderName) (snd run) ->
            In (src, classify (path_filename src))
              (pending_moves currentDir config w programName)
            /\ folderName = prefix config ++ classify (path_filename src)
            /\ removelast dst = path_append currentDir folderName)
      /\ (fst (fst run) <> Terminate ->
          forall m,
            In m (pending_moves currentDir config w programName) ->
            exists targetPath,
              In (MsgPreview (fst m) targetPath (folder_name config (snd m)))
                (snd run)))
  /\ (forall argv,
        dryRun (fst (parseArguments argv)) = true ->
        snd (fst (main clock currentDir w argv)) = w
        /\ no_mutation_event (snd (main clock currentDir w argv)))
  /\ (forall program args,
        forallb (fun arg => negb (takes_value arg)) args = true ->
        existsb (fun arg => is_flag arg "-n" "--dry-run") args = true ->
        dryRun (fst (parseArguments (program :: args))) = true
        /\ snd (fst (main clock currentDir w (program :: args))) = w).
Proof.
  assert (forall argv,
             dryRun (fst (parseArguments argv)) = true ->
             snd (fst (main clock currentDir w argv)) = w
             /\ no_mutation_event (snd (main clock currentDir w argv)))
    as Main.
  { intros argv Hdry. unfold main.
    pose proof (parseArguments_warnings argv) as Hwarn.
    destruct (parseArguments argv) as [config warnings].
    cbn [fst snd] in Hdry, Hwarn.
    assert (no_mutation_event warnings) as Quiet.
    { intros e Hin. specialize (Hwarn e Hin). destruct e; try discriminate;
        exact I. }
    destruct (showHelp config).
    { split; [reflexivity|]. cbn [snd].
      apply no_mutation_app; [exact Quiet|]. intros e [<-|[]]. exact I. }
    destruct (showVersion config).
    { split; [reflexivity|]. cbn [snd].
      apply no_mutation_app; [exact Quiet|]. intros e [<-|[]]. exact I. }
    destruct (organizeFiles_dry_run clock currentDir config w
                (filename_of_string (hd "" argv)) Hdry) as (Hw & Hq & _).
    cbv zeta in Hw, Hq.
    destruct (organizeFiles clock currentDir config w
                (filename_of_string (hd "" argv))) as [[result w'] output].
    cbn [fst snd] in *. split; [exact Hw|].
    apply no_mutation_app; assumption. }
  split; [|split; [exact Main|]].
  - intros config programName Hdry. cbv zeta.
    destruct (organizeFiles_dry_run clock currentDir config w programName
                Hdry) as (Hw & Hq & H1).
    split; [exact Hw|]. split; [exact Hq|]. split; [exact H1|].
    split.
    + intros src dst folderName Hin.
      assert (from_pending currentDir config
                (pending_moves currentDir config w programName)
                (MsgPreview src dst folderName))
        as (category & Hf & Hfolder & Hdst).
      { apply (organizeFiles_from_pending clock currentDir config w
                 programName); [exact Hin|]. right. right. eauto. }
      assert (pending_ok programName config currentDir (src, category))
        as Hok.
      { unfold pending_moves in Hf.
        destruct (collect currentDir config w programName)
          as [[[files log] skipped] returned] eqn:C.
        destruct (collect_sound currentDir config w programName _ _ _ _ C)
          as [_ Hok].
        apply Hok. exact Hf. }
      pose proof (pending_ok_category _ _ _ _ _ Hok) as Hcat.
      rewrite folder_name_prefix in Hfolder. subst category. auto.
    + intros Hend m Hm.
      pose proof (organizeFiles_reported clock currentDir config w
                    programName m Hend Hm) as R.
      unfold reported in R. rewrite Hdry in R. exact R.
  - intros program args Hv Hn.
    destruct (parse_loop_flags args default_config Hv)
      as (_ & _ & _ & Hdry & _).
    assert (dryRun (fst (parseArguments (program :: args))) = true) as Hset.
    { unfold parseArguments. cbn [tl]. rewrite Hdry, Hn.
      apply orb_true_r. }
    split; [exact Hset | apply (Main _ Hset)].
Qed.

(** The dry-run theorem on the scenario of the specification, run
    recursively, verbosely and with a prefix, and on a command line of
    flags only. *)
Lemma dry_run_changes_nothing_witness :
  snd (fst (main (FS := FlatFS.fs) clock0 home scenario
              ["./forg"; "-n"; "-r"; "-d"; "2"; "-v"; "-p"; "sorted_"]))
  = scenario
  /\ snd (fst (main (FS := FlatFS.fs) clock0 home scenario
                 ["./forg"; "-v"; "--dry-run"; "-r"]))
     = scenario.
Proof.
  destruct (dry_run_changes_nothing (FS := FlatFS.fs) clock0 home scenario)
    as (_ & H2 & H3).
  split.
  - apply (H2 ["./forg"; "-n"; "-r"; "-d"; "2"; "-v"; "-p"; "sorted_"]).
    reflexivity.
  - apply (H3 "./forg" ["-v"; "--dry-run"; "-r"]); reflexivity.
Defined.

(** C6, at the failing input.  On the command line
    [forg --depth two --dry-run] the dry-run flag is given and is lost:
    [std::stoi] rejects the depth value, and the catch block advances
    the index once more, after reading the value has advanced it already,
    so the argument that follows is passed over.  The configuration has [dryRun] unset, and the run in
    the scenario directory creates the four category folders and renames
    the four files. *)
Theorem dry_run_flag_dropped :
  existsb (fun arg => is_flag arg "-n" "--dry-run")
    ["--depth"; "two"; "--dry-run"] = true
  /\ parseArguments ["forg"; "--depth"; "two"; "--dry-run"]
     = (default_config, [WarnDepthInvalid])
  /\ main (FS := FlatFS.fs) clock0 home scenario
       ["forg"; "--depth"; "two"; "--dry-run"]
     = (Exit 0,
        (home_dirs ++
         [ FlatFS.file (path_child home "Images") "photo.JPG";
           FlatFS.file (path_child home "Documents") "notes.md";
           FlatFS.file (path_child home "Archives") "archive.zip";
           FlatFS.file (path_child home "Others") "unknown.xyz";
           FlatFS.folder home "sub";
           FlatFS.file (path_child home "sub") "deep.txt";
           FlatFS.folder home "Images"; FlatFS.folder home "Documents";
           FlatFS.folder home "Archives"; FlatFS.folder home "Others"
         ])%list,
        [ WarnDepthInvalid; MsgOrganizing home;
          MsgMoved (path_child home "photo.JPG")
            (path_child (path_child home "Images") "photo.JPG") "Images";
          MsgMoved (path_child home "notes.md")
            (path_child (path_child home "Documents") "notes.md")
            "Documents";
          MsgMoved (path_child home "archive.zip")
            (path_child (path_child home "Archives") "archive.zip")
            "Archives";
          MsgMoved (path_child home "unknown.xyz")
            (path_child (path_child home "Others") "unknown.xyz") "Others";
          MsgSummary
            [("Archives", 1); ("Documents", 1); ("Images", 1); ("Others", 1)]
            4 0 0 ])
  /\ snd (fst (main (FS := FlatFS.fs) clock0 home scenario
                 ["forg"; "--depth"; "two"; "--dry-run"]))
     <> scenario
  /\ snd (fst (main (FS := FlatFS.fs) clock0 home scenario
                 ["forg"; "--dry-run"]))
     = scenario.
Proof.
  split; [reflexivity|]. split; [reflexivity|].
  split; [vm_compute; reflexivity|].
  split; [vm_compute; discriminate | vm_compute; reflexivity].
Qed.

(** ** Exit status (C1) *)




(** A listing that breaks off in the middle: the status of the second
    entry of the working directory cannot be read.  The recursive walk
    catches the exception, reports the directory and keeps the file it had
    collected before, which is then moved; the file after the broken entry
    is never looked at.  Without the recursive option nothing catches the
    exception. *)
Example listing_broken_off :
  pending_moves (FS := FlatFS.fs) home
    (fst (parseArguments ["forg"; "-r"])) with_broken_entry "forg"
  = [(path_child home "a.txt", "Documents")]
  /\ main (FS := FlatFS.fs) clock0 home with_broken_entry ["forg"; "-r"]
     = (Exit 0,
        (home_dirs ++
         [ FlatFS.file (path_child home "Documents") "a.txt";
           FlatFS.broken home "loop"; FlatFS.file home "b.txt";
           FlatFS.folder home "Documents" ])%list,
        [ MsgOrganizing home; MsgRecursive 1; ErrAccess home;
          MsgMoved (path_child home "a.txt")
            (path_child (path_child home "Documents") "a.txt") "Documents";
          MsgSummary [("Documents", 1)] 1 0 0 ])
  /\ main (FS := FlatFS.fs) clock0 home with_broken_entry ["forg"]
     = (Terminate, with_broken_entry, [MsgOrganizing home]).
Proof. repeat split; vm_compute; reflexivity. Qed.

(** * Further properties *)

(** ** Lower-casing and extensions *)

Lemma tolower_idempotent c : tolower (tolower c) = tolower c.
Proof.
  destruct c as [b0 b1 b2 b3 b4 b5 b6 b7].
  destruct b0, b1, b2, b3, b4, b5, b6, b7; reflexivity.
Qed.

Lemma tolower_dot c : Ascii.eqb (tolower c) dot = Ascii.eqb c dot.
Proof.
  destruct c as [b0 b1 b2 b3 b4 b5 b6 b7].
  destruct b0, b1, b2, b3, b4, b5, b6, b7; reflexivity.
Qed.

Lemma toLowerCase_app s t :
  toLowerCase (s ++ t) = toLowerCase s ++ toLowerCase t.
Proof. induction s as [|c s IH]; simpl; [reflexivity | rewrite IH; reflexivity]. Qed.

Lemma toLowerCase_idempotent s : toLowerCase (toLowerCase s) = toLowerCase s.
Proof.
  induction s as [|c s IH]; simpl; [reflexivity|].
  rewrite tolower_idempotent, IH. reflexivity.
Qed.

Lemma toLowerCase_length s : String.length (toLowerCase s) = String.length s.
Proof. induction s as [|c s IH]; simpl; [reflexivity | rewrite IH; reflexivity]. Qed.

Lemma has_dot_toLowerCase s : has_char dot (toLowerCase s) = has_char dot s.
Proof.
  induction s as [|c s IH]; simpl; [reflexivity|].
  rewrite tolower_dot, IH. reflexivity.
Qed.

(** X1.  [toLowerCase] keeps the length of the string, keeps every '.'
    where it is and adds none, works character by character (so it
    commutes with concatenation), and applying it twice is the same as
    applying it once. *)
Theorem toLowerCase_properties (s t : string) :
  String.length (toLowerCase s) = String.length s
  /\ has_char dot (toLowerCase s) = has_char dot s
  /\ toLowerCase (s ++ t) = toLowerCase s ++ toLowerCase t
  /\ toLowerCase (toLowerCase s) = toLowerCase s.
Proof.
  split; [apply toLowerCase_length|].
  split; [apply has_dot_toLowerCase|].
  split; [apply toLowerCase_app | apply toLowerCase_idempotent].
Qed.

Lemma rfind_None c s : rfind c s = None -> has_char c s = false.
Proof.
  induction s as [|a s IH]; simpl; [reflexivity|].
  destruct (rfind c s); [discriminate|].
  destruct (Ascii.eqb a c); [discriminate|]. intros _. apply IH. reflexivity.
Qed.

(** A position found by [rfind] splits the string at its last [c]. *)
Lemma rfind_Some c s k :
  rfind c s = Some k ->
  exists pre suf,
    s = pre ++ String c suf /\ String.length pre = k /\ has_char c suf = false.
Proof.
  revert k. induction s as [|a s IH]; simpl; intros k; [discriminate|].
  destruct (rfind c s) as [k'|] eqn:R.
  - intros H. inversion H; subst.
    destruct (IH k' eq_refl) as (pre & suf & -> & <- & Hsuf).
    exists (String a pre), suf. auto.
  - destruct (Ascii.eqb_spec a c) as [->|_]; [|discriminate].
    intros H. inversion H; subst. exists "", s.
    split; [reflexivity|]. split; [reflexivity | apply rfind_None; exact R].
Qed.

(** Every file name either has no '.', or splits at its last '.'. *)
Lemma last_dot_split filename :
  has_char dot filename = false
  \/ exists pre suf,
      filename = pre ++ "." ++ suf /\ has_char dot suf = false.
Proof.
  destruct (rfind dot filename) as [k|] eqn:R.
  - right. destruct (rfind_Some _ _ _ R) as (pre & suf & -> & _ & H).
    exists pre, suf. auto.
  - left. apply rfind_None. exact R.
Qed.

(** X2.  For every file name, the extension [getFileExtension] returns
    contains no '.', is in lower case already, and is shorter than the
    name (unless the name is empty); and it does not depend on the case of
    any letter of the name. *)
Theorem getFileExtension_shape (filename : string) :
  has_char dot (getFileExtension filename) = false
  /\ toLowerCase (getFileExtension filename) = getFileExtension filename
  /\ ((String.length (getFileExtension filename) < String.length filename)%nat
      \/ filename = "")
  /\ getFileExtension (toLowerCase filename) = getFileExtension filename
  /\ getFileExtension (toUpperCase filename) = getFileExtension filename.
Proof.
  destruct (last_dot_split filename) as [H|(pre & suf & -> & H)].
  - rewrite (getFileExtension_no_dot _ H).
    rewrite !getFileExtension_no_dot
      by (rewrite ?has_dot_toLowerCase, ?has_dot_toUpperCase; exact H).
    repeat split. destruct filename; [auto | left; simpl; lia].
  - rewrite (getFileExtension_after_last_dot _ _ H).
    split; [rewrite has_dot_toLowerCase; exact H|].
    split; [apply toLowerCase_idempotent|].
    split.
    { left. rewrite toLowerCase_length, string_length_app. simpl. lia. }
    split.
    + rewrite toLowerCase_app. simpl toLowerCase.
      change (String (tolower ".") (toLowerCase suf))
        with ("." ++ toLowerCase suf).
      rewrite getFileExtension_after_last_dot
        by (rewrite has_dot_toLowerCase; exact H).
      apply toLowerCase_idempotent.
    + assert (forall s t, toUpperCase (s ++ t) = toUpperCase s ++ toUpperCase t)
        as Happ.
      { intros s t. induction s as [|c s IH]; simpl;
          [reflexivity | rewrite IH; reflexivity]. }
      rewrite Happ. simpl toUpperCase.
      change (String (toupper ".") (toUpperCase suf))
        with ("." ++ toUpperCase suf).
      rewrite getFileExtension_after_last_dot
        by (rewrite has_dot_toUpperCase; exact H).
      apply toLowerCase_toUpperCase.
Qed.

(** ** The range of the classifier *)

Lemma getCategory_in_names extension :
  In (getCategory extension) category_names.
Proof.
  unfold getCategory, category_names.
  destruct (String.eqb extension "").
  - apply in_app_iff. right. left. reflexivity.
  - apply in_app_iff.
    destruct (first_category_in FILE_CATEGORIES extension) as [-> | H];
      [right; left; reflexivity | left; exact H].
Qed.

(** X3.  [getCategory] returns one of ten names, the nine categories of the
    table and "Others", and each of the ten is returned for some
    extension; none of them is empty or contains a path separator, so each
    is a plain folder name. *)
Theorem getCategory_range :
  (forall extension, In (getCategory extension) category_names)
  /\ (forall category,
        In category category_names ->
        (exists extension, getCategory extension = category)
        /\ category <> ""
        /\ has_char slash category = false).
Proof.
  split; [exact getCategory_in_names|].
  - intros category H. vm_compute in H.
    repeat (destruct H as [<-|H];
            [split; [|split; [discriminate | reflexivity]]|]);
      try destruct H.
    + exists "zip". reflexivity.
    + exists "mp3". reflexivity.
    + exists "epub". reflexivity.
    + exists "cpp". reflexivity.
    + exists "sql". reflexivity.
    + exists "pdf". reflexivity.
    + exists "exe". reflexivity.
    + exists "jpg". reflexivity.
    + exists "mp4". reflexivity.
    + exists "". reflexivity.
Qed.

(** The range theorem on the name "Books". *)
Lemma getCategory_range_witness :
  (exists extension, getCategory extension = "Books")
  /\ "Books" <> ""
  /\ has_char slash "Books" = false.
Proof.
  destruct getCategory_range as [_ H]. apply (H "Books").
  vm_compute. tauto.
Defined.

(** ** Collision resolution: what the result is never *)

(** X5.  A path that [getUniquePath] returns does not exist, with one
    exception: when the name and all its 1000 numbered variants are taken,
    the name stamped with the clock reading is returned unchecked.  So a
    rename to the returned path overwrites nothing unless that many
    collisions come together. *)
Theorem getUniquePath_free_unless_exhausted {FS : FileSystem} (w : World)
  (now : Z) (dir : path) (filename : string) (p : path) :
  getUniquePath w now dir filename = Some p ->
  fs_exists w p <> Some false ->
  fs_exists w (path_child dir filename) = Some true
  /\ (forall j, 1 <= j <= 1000 ->
        fs_exists w (numbered dir (fst (split_name filename))
                       (snd (split_name filename)) j) = Some true)
  /\ p = numbered dir (fst (split_name filename)) (snd (split_name filename))
           now.
Proof.
  destruct (split_name filename) as [baseName extension] eqn:S.
  cbn [fst snd].
  destruct (getUniquePath_cases w now dir filename baseName extension S)
    as [(Hfree & Hres)|[(Htaken & k & Hk & Hfree & _ & Hres)
                       |[(Htaken & Hall & Hres)|(_ & Hres)]]];
    rewrite Hres; intros Hp Hex;
    try discriminate; injection Hp as <-.
  - contradiction.
  - contradiction.
  - auto.
Qed.

(** The theorem on the directory where a.txt and a_1.txt to a_1000.txt and
    the stamped name all exist. *)
Lemma getUniquePath_free_unless_exhausted_witness :
  fs_exists (FileSystem := FlatFS.fs) crowded (path_child docs "a.txt")
  = Some true.
Proof.
  destruct (getUniquePath_free_unless_exhausted (FS := FlatFS.fs) crowded
              (clock0 O) docs "a.txt"
              (numbered docs "a" ".txt" (clock0 O))) as (H & _ & _).
  - vm_compute. reflexivity.
  - vm_compute. discriminate.
  - exact H.
Defined.

(** ** Collision resolution keeps the extension *)

Lemma digits_without_dot d :
  has_char dot (NilEmpty.string_of_uint d) = false.
Proof. induction d; simpl; auto. Qed.

Lemma to_string_without_dot n : has_char dot (to_string n) = false.
Proof.
  unfold to_string.
  destruct (Z.to_int n) as [d|d]; simpl.
  - destruct d; try reflexivity; apply (digits_without_dot (_ d)).
  - destruct d; try reflexivity; apply (digits_without_dot (_ d)).
Qed.

Lemma append_assoc (s t u : string) : (s ++ t) ++ u = s ++ t ++ u.
Proof. induction s as [|c s IH]; simpl; [reflexivity | rewrite IH; reflexivity]. Qed.

(** The extension of a numbered variant of a name that does not start with
    '.' is the extension of the name. *)
Lemma numbered_name_extension filename baseName extension k :
  starts_with_dot filename = false ->
  split_name filename = (baseName, extension) ->
  getFileExtension (baseName ++ "_" ++ to_string k ++ extension)
  = getFileExtension filename.
Proof.
  intros Hstart Hsplit.
  destruct (last_dot_split filename) as [H|(pre & suf & -> & H)].
  - rewrite (split_name_without_dot _ H) in Hsplit.
    inversion Hsplit; subst.
    rewrite !getFileExtension_no_dot; auto.
    rewrite !has_char_app, H, to_string_without_dot. reflexivity.
  - destruct pre as [|c pre]; [simpl in Hstart; discriminate|].
    rewrite (split_name_with_extension (String c pre) suf) in Hsplit
      by (auto; discriminate).
    injection Hsplit as <- <-.
    rewrite (getFileExtension_after_last_dot _ _ H).
    etransitivity;
      [|apply (getFileExtension_after_last_dot
                 (String c pre ++ "_" ++ to_string k) suf H)].
    f_equal. rewrite !append_assoc. reflexivity.
Qed.

(** X6.  For a file name that does not start with '.', the name
    [getUniquePath] chooses has the same extension as the original, hence
    the same category: renaming on collision never moves a file to another
    category's rules. *)
Theorem getUniquePath_keeps_extension {FS : FileSystem} (w : World) (now : Z)
  (dir : path) (filename : string) (p : path) :
  starts_with_dot filename = false ->
  getUniquePath w now dir filename = Some p ->
  getFileExtension (path_filename p) = getFileExtension filename
  /\ classify (path_filename p) = classify filename.
Proof.
  intros Hstart Hp.
  assert (getFileExtension (path_filename p) = getFileExtension filename)
    as E.
  { destruct (split_name filename) as [baseName extension] eqn:S.
    destruct (getUniquePath_cases w now dir filename baseName extension S)
      as [(_ & Hres)|[(_ & k & _ & _ & _ & Hres)
                     |[(_ & _ & Hres)|(_ & Hres)]]];
      rewrite Hres in Hp; try discriminate; injection Hp as <-;
      unfold numbered; rewrite path_filename_child;
      [reflexivity | |]; apply numbered_name_extension; assumption. }
  split; [exact E|]. unfold classify. rewrite E. reflexivity.
Qed.

(** The theorem on the directory that holds a.txt and a_1.txt. *)
Lemma getUniquePath_keeps_extension_witness :
  classify (path_filename (numbered docs "a" ".txt" 2)) = classify "a.txt".
Proof.
  apply (getUniquePath_keeps_extension (FS := FlatFS.fs) taken_twice 0 docs
           "a.txt" (numbered docs "a" ".txt" 2)).
  - reflexivity.
  - vm_compute. reflexivity.
Defined.

(** ** The parser on the options without a value *)

(** X7.  On a command line where no argument is a depth or prefix option,
    every argument is read on its own: each of the five flags ends up set
    exactly when it was set before or one of its two spellings occurs,
    depth and prefix are left alone, and the warnings are one "Unknown
    option" per argument that is not an option, in the order of the
    command line. *)
Theorem parse_flags_only (args : list string) (config : Config) :
  forallb (fun arg => negb (takes_value arg)) args = true ->
  showHelp (fst (parse_loop args config))
  = (showHelp config || existsb (fun a => is_flag a "-h" "--help") args)%bool
  /\ showVersion (fst (parse_loop args config))
     = (showVersion config
        || existsb (fun a => String.eqb a "--version") args)%bool
  /\ verbose (fst (parse_loop args config))
     = (verbose config
        || existsb (fun a => is_flag a "-v" "--verbose") args)%bool
  /\ dryRun (fst (parse_loop args config))
     = (dryRun config
        || existsb (fun a => is_flag a "-n" "--dry-run") args)%bool
  /\ recursive (fst (parse_loop args config))
     = (recursive config
        || existsb (fun a => is_flag a "-r" "--recursive") args)%bool
  /\ depth (fst (parse_loop args config)) = depth config
  /\ prefix (fst (parse_loop args config)) = prefix config
  /\ snd (parse_loop args config)
     = map UnknownOption (filter (fun a => negb (known_flag a)) args).
Proof. apply parse_loop_flags. Qed.

(** The theorem on a command line with three flags and a stray word. *)
Lemma parse_flags_only_witness :
  dryRun (fst (parse_loop ["-v"; "stray"; "--dry-run"; "-r"] default_config))
  = (dryRun default_config
     || existsb (fun a => is_flag a "-n" "--dry-run")
          ["-v"; "stray"; "--dry-run"; "-r"])%bool.
Proof.
  destruct (parse_flags_only ["-v"; "stray"; "--dry-run"; "-r"] default_config)
    as (_ & _ & _ & H & _).
  - reflexivity.
  - exact H.
Defined.

(** ** The parser never unsets a flag *)

(** A property of configurations that every assignment of the parser
    keeps is kept by the whole loop. *)
Lemma parse_loop_invariant (P : Config -> Prop) :
  (forall c, P c -> P (set_showHelp c true)) ->
  (forall c, P c -> P (set_showVersion c true)) ->
  (forall c, P c -> P (set_verbose c true)) ->
  (forall c, P c -> P (set_dryRun c true)) ->
  (forall c, P c -> P (set_recursive c true)) ->
  (forall c n, P c -> P (set_depth c n)) ->
  (forall c v, P c -> P (set_prefix c v)) ->
  forall n args config,
    (length args <= n)%nat -> P config -> P (fst (parse_loop args config)).
Proof.
  intros Hh Hver Hv Hn Hr Hd Hp.
  induction n as [|n IH]; intros args config Hlen HP.
  - destruct args; [exact HP | simpl in Hlen; lia].
  - destruct args as [|arg rest]; [exact HP|].
    simpl in Hlen. cbn [parse_loop].
    repeat match goal with
           | |- context [if ?b then _ else _] =>
               destruct b; [apply IH; [lia | auto]|]
           end.
    destruct (is_flag arg "-d" "--depth"), rest as [|value rest'];
      try (destruct (is_flag arg "-p" "--prefix"));
      try (simpl; exact HP);
      try (cbn [emit fst]; apply IH; [simpl in *; lia | auto]).
    all: destruct (stoi value) as [m| |];
      [ destruct (m <? 1);
        [ cbn [emit fst]; apply IH; [simpl in *; lia | auto]
        | apply IH; [simpl in *; lia | auto] ]
      | destruct rest' as [|x rest'']; [exact HP|];
        cbn [emit fst]; apply IH; [simpl in *; lia | exact HP] .. ].
Qed.

(** X8.  Whatever the arguments, including rejected depth values and the
    arguments they swallow, the parser only ever switches flags on: a
    flag that is set stays set to the end of the command line. *)
Theorem parse_never_unsets_flag (args : list string) (config : Config) :
  (showHelp config = true -> showHelp (fst (parse_loop args config)) = true)
  /\ (showVersion config = true ->
      showVersion (fst (parse_loop args config)) = true)
  /\ (verbose config = true -> verbose (fst (parse_loop args config)) = true)
  /\ (dryRun config = true -> dryRun (fst (parse_loop args config)) = true)
  /\ (recursive config = true ->
      recursive (fst (parse_loop args config)) = true).
Proof.
  repeat split; intros H;
    match goal with
    | |- ?f (fst (parse_loop args config)) = true =>
        apply (parse_loop_invariant (fun c => f c = true))
          with (n := length args); auto
    end.
Qed.

(** The theorem on a command line where the dry-run flag comes first. *)
Lemma parse_never_unsets_flag_witness :
  dryRun (fst (parse_loop ["-d"; "x"; "-v"; "-p"]
                 (set_dryRun default_config true))) = true.
Proof.
  destruct (parse_never_unsets_flag ["-d"; "x"; "-v"; "-p"]
              (set_dryRun default_config true)) as (_ & _ & _ & H & _).
  apply H. reflexivity.
Defined.

(** ** The walk over one directory *)

Lemma answered_all entries complete :
  listing_throws (entries, complete) = false -> answered entries = entries.
Proof.
  unfold listing_throws. cbn [fst snd]. intros H.
  apply orb_false_iff in H as [H _]. apply negb_false_iff in H.
  induction entries as [|entry more IH]; [reflexivity|].
  cbn [forallb answered] in *.
  destruct (d_is_directory entry); [|discriminate].
  rewrite IH; [reflexivity | exact H].
Qed.

Section OneLevel.
Context {FS : FileSystem}.
Variable programName : string.
Variable config : Config.

Lemma eligible_kind entry :
  eligible programName entry
  = match d_is_directory entry with
    | Some false =>
        (negb (is_program (d_name entry) programName)
         && negb (shouldSkip [d_name entry]))%bool
    | _ => false
    end.
Proof.
  unfold eligible, is_file. destruct (d_is_directory entry) as [[|]|];
    reflexivity.
Qed.

Lemma counted_as_skipped_kind entry :
  counted_as_skipped programName entry
  = match d_is_directory entry with
    | Some false =>
        (negb (is_program (d_name entry) programName)
         && shouldSkip [d_name entry])%bool
    | _ => false
    end.
Proof.
  unfold counted_as_skipped, is_file.
  destruct (d_is_directory entry) as [[|]|]; reflexivity.
Qed.

Ltac entry_kind D :=
  rewrite ?eligible_kind, ?counted_as_skipped_kind, ?D.

(** The top-level loop of [organizeFiles], entry by entry. *)
Lemma collectTopLevel_exact dir complete :
  forall entries st skipped,
    fst (fst (fst (collectTopLevel programName config dir entries complete
                     st skipped)))
    = (fst st
       ++ map (pending_of dir)
            (filter (eligible programName) (answered entries)))%list
    /\ snd (fst (collectTopLevel programName config dir entries complete
                   st skipped))
       = skipped
         + Z.of_nat
             (length (filter (counted_as_skipped programName)
                        (answered entries))).
Proof.
  induction entries as [|entry more IH]; intros st skipped.
  - simpl. rewrite app_nil_r. split; [reflexivity | lia].
  - cbn [collectTopLevel answered].
    rewrite path_filename_child, shouldSkip_child.
    destruct (d_is_directory entry) as [[|]|] eqn:D.
    + cbn [filter]. entry_kind D.
      destruct (IH (say_if (verbose config)
                      (MsgSkippingDirectory (d_name entry)) st) skipped)
        as [H1 H2].
      rewrite H1, H2, fst_say_if. split; reflexivity.
    + cbn [filter]. entry_kind D.
      destruct (is_program (d_name entry) programName) eqn:P;
        [|destruct (shouldSkip [d_name entry]) eqn:S]; cbn [negb andb];
        match goal with
        | |- context [collectTopLevel _ _ _ more _ ?s ?k] =>
            destruct (IH s k) as [H1 H2]
        end;
        rewrite H1, H2, ?fst_say_if; cbn [push_back fst map length];
        rewrite <- ?app_assoc; (split; [reflexivity | lia]).
    + simpl. rewrite app_nil_r. split; [reflexivity | lia].
Qed.

(** The loop of [collectFiles] over the entries of a directory it does
    not descend from. *)
Lemma each_entry_at_bound maxDepth recurse dir d complete :
  (recursive config && (d <? maxDepth))%bool = false ->
  forall entries st,
  exists st',
    each_entry programName config maxDepth recurse dir d entries complete
      st
    = Some (st', negb (listing_throws (entries, complete)))
    /\ fst st'
       = (fst st
          ++ map (pending_of dir)
               (filter (eligible programName) (answered entries)))%list.
Proof.
  intros Hr. induction entries as [|entry more IH]; intros st.
  - exists st. simpl. rewrite app_nil_r. destruct complete; auto.
  - cbn [each_entry answered].
    rewrite path_filename_child, shouldSkip_child, Hr.
    assert (listing_throws (entry :: more, complete)
            = match d_is_directory entry with
              | Some _ => listing_throws (more, complete)
              | None => true
              end) as L.
    { unfold listing_throws. cbn [fst snd forallb].
      destruct (d_is_directory entry); reflexivity. }
    rewrite L.
    destruct (d_is_directory entry) as [[|]|] eqn:D.
    + cbn [filter]. entry_kind D.
      destruct (shouldSkip [d_name entry]);
        match goal with
        | |- context [each_entry _ _ _ _ _ _ more _ ?s] =>
            destruct (IH s) as (st' & E & H)
        end;
        exists st'; (split; [exact E|]); rewrite H, fst_say_if;
        reflexivity.
    + cbn [filter]. entry_kind D.
      destruct (is_program (d_name entry) programName) eqn:P;
        [|destruct (shouldSkip [d_name entry]) eqn:S]; cbn [negb andb];
        match goal with
        | |- context [each_entry _ _ _ _ _ _ more _ ?s] =>
            destruct (IH s) as (st' & E & H)
        end;
        exists st'; (split; [exact E|]); rewrite H, ?fst_say_if;
        cbn [push_back fst map]; rewrite <- ?app_assoc; reflexivity.
    + exists st. simpl. rewrite app_nil_r. auto.
Qed.
End OneLevel.

(** What the top-level loop collects. *)
Lemma collect_top_level {FS : FileSystem} (currentDir : path)
  (config : Config) (w : World) (programName : string)
  (entries : list dirent) (complete : bool) :
  recursive config = false ->
  directory_iterator w currentDir = (entries, complete) ->
  pending_part (collect currentDir config w programName)
  = (map (pending_of currentDir)
       (filter (eligible programName) (answered entries)),
     Z.of_nat
       (length (filter (counted_as_skipped programName) (answered entries))),
     negb (listing_throws (entries, complete))).
Proof.
  intros Hr Hlist. unfold collect. rewrite Hr, Hlist.
  destruct (collectTopLevel_exact programName config currentDir complete
              entries ([], banner currentDir config) 0) as [H1 H2].
  pose proof (collectTopLevel_returns programName config currentDir entries
                complete ([], banner currentDir config) 0) as H3.
  unfold pending_part. rewrite H1, H2, H3. reflexivity.
Qed.

(** X10.  Without the recursive option the pending moves are exactly the
    entries of the working directory that are files, not the program and
    not skipped, in the order of the listing, each with the category of
    its name, and [skippedCount] is the number of files that match the
    skip rules: directories and the program itself are passed over without
    being counted.  This is so when the listing gives all its entries; when
    it throws, the loop is left with what the entries before the throw
    gave. *)
Theorem top_level_collection {FS : FileSystem} (currentDir : path)
  (config : Config) (w : World) (programName : string)
  (entries : list dirent) (complete : bool) :
  recursive config = false ->
  directory_iterator w currentDir = (entries, complete) ->
  pending_part (collect currentDir config w programName)
  = (map (pending_of currentDir)
       (filter (eligible programName) (answered entries)),
     Z.of_nat
       (length (filter (counted_as_skipped programName) (answered entries))),
     negb (listing_throws (entries, complete)))
  /\ (listing_throws (entries, complete) = false ->
      pending_part (collect currentDir config w programName)
      = (map (pending_of currentDir) (filter (eligible programName) entries),
         Z.of_nat
           (length (filter (counted_as_skipped programName) entries)),
         true)).
Proof.
  intros Hr Hlist.
  pose proof (collect_top_level currentDir config w programName entries
                complete Hr Hlist) as E.
  split; [exact E|].
  intros Hall. rewrite E, Hall, (answered_all entries complete Hall).
  reflexivity.
Qed.

(** The theorem on the project directory. *)
Lemma top_level_collection_witness :
  pending_part (collect (FS := FlatFS.fs) home default_config project "forg")
  = ([(path_child home "photo.JPG", "Images")], 1, true).
Proof.
  destruct (top_level_collection (FS := FlatFS.fs) home default_config
              project "forg"
              [ Build_dirent "photo.JPG" (Some false);
                Build_dirent ".hidden" (Some false);
                Build_dirent ".git" (Some true);
                Build_dirent "node_modules" (Some true);
                Build_dirent "sub" (Some true) ] true) as [_ H].
  - reflexivity.
  - vm_compute. reflexivity.
  - apply H. reflexivity.
Defined.

(** X11.  With the recursive option [skippedCount] stays 0 whatever the
    walk skipped, because [collectFiles] has no access to the counter, so
    the summary is handed a count of 0 in that mode, and this part of the
    run always returns; and with depth 1 the pending moves are the same as
    without the option: the eligible entries of the working directory, all
    of them when the listing gives all its entries. *)
Theorem recursive_collection {FS : FileSystem} (currentDir : path)
  (config : Config) (w : World) (programName : string) :
  recursive config = true ->
  (exists st, collect currentDir config w programName = (st, 0, true))
  /\ (forall entries complete,
        depth config = 1 ->
        directory_iterator w currentDir = (entries, complete) ->
        pending_part (collect currentDir config w programName)
        = (map (pending_of currentDir)
             (filter (eligible programName) (answered entries)), 0, true)
        /\ (listing_throws (entries, complete) = false ->
            pending_part (collect currentDir config w programName)
            = (map (pending_of currentDir)
                 (filter (eligible programName) entries), 0, true))).
Proof.
  intros Hr.
  destruct (collect_recursive currentDir config w programName Hr)
    as (st & Hwalk & C).
  split; [exists st; exact C|].
  intros entries complete Hd Hlist. rewrite C. unfold pending_part.
  cbn [fst snd].
  rewrite Hd in Hwalk. unfold walk_fuel in Hwalk.
  change (Z.to_nat (1 - 1)) with O in Hwalk.
  cbn [collectFiles] in Hwalk. rewrite Hlist in Hwalk.
  change (1 >? 1) with false in Hwalk. cbv iota in Hwalk.
  match type of Hwalk with
  | match each_entry _ _ _ ?recurse _ _ _ _ ?st0 with _ => _ end = _ =>
      destruct (each_entry_at_bound programName config 1 recurse currentDir 1
                  complete (andb_false_r _) entries st0) as (st' & E & H)
  end.
  rewrite E in Hwalk.
  assert (fst st
          = map (pending_of currentDir)
              (filter (eligible programName) (answered entries))) as Files.
  { destruct (negb (listing_throws (entries, complete)));
      assert (fst st = fst st') as F
        by (injection Hwalk as <-; reflexivity);
      rewrite F, H; reflexivity. }
  rewrite Files. split; [reflexivity|].
  intros Hall. rewrite (answered_all entries complete Hall). reflexivity.
Qed.

(** The theorem on the project directory with depth 1. *)
Lemma recursive_collection_witness :
  pending_part
    (collect (FS := FlatFS.fs) home (set_recursive default_config true)
       project "forg")
  = ([(path_child home "photo.JPG", "Images")], 0, true).
Proof.
  destruct (recursive_collection (FS := FlatFS.fs) home
              (set_recursive default_config true) project "forg" eq_refl)
    as [_ H].
  destruct (H [ Build_dirent "photo.JPG" (Some false);
                Build_dirent ".hidden" (Some false);
                Build_dirent ".git" (Some true);
                Build_dirent "node_modules" (Some true);
                Build_dirent "sub" (Some true) ] true) as [_ Complete].
  - reflexivity.
  - vm_compute. reflexivity.
  - apply Complete. reflexivity.
Defined.

(** X12.  In both modes no pending move has a source named like the running
    program, nor one named "forg": a file with either name is left where
    it is, in the working directory and in every directory below it. *)
Theorem program_never_pending {FS : FileSystem} (currentDir : path)
  (config : Config) (w : World) (programName : string)
  (files : list PendingMove) (log : list event) (skipped : Z)
  (returned : bool) (p : path) (category : string) :
  collect currentDir config w programName
  = ((files, log), skipped, returned) ->
  In (p, category) files ->
  path_filename p <> programName /\ path_filename p <> "forg".
Proof.
  intros C Hin.
  destruct (collect_sound currentDir config w programName _ _ _ _ C)
    as [_ Hok].
  destruct (Hok _ Hin) as (comps & name & Hp & _ & _ & Hprog & _).
  simpl in Hp. subst p. unfold path_filename.
  rewrite app_assoc, last_last.
  unfold is_program in Hprog. apply orb_false_iff in Hprog as [H1 H2].
  split; intros E; subst;
    rewrite String.eqb_refl in *; discriminate.
Qed.

(** The theorem on the project directory, walked two levels deep. *)
Lemma program_never_pending_witness :
  path_filename (path_child home "photo.JPG") <> "organize"
  /\ path_filename (path_child home "photo.JPG") <> "forg".
Proof.
  eapply (program_never_pending (FS := FlatFS.fs) home recursive_depth_2
            project "organize").
  - vm_compute. reflexivity.
  - left. reflexivity.
Defined.

(** ** The mover: one result per pending move, in order *)

Lemma result_sources_app l1 l2 :
  result_sources (l1 ++ l2) = (result_sources l1 ++ result_sources l2)%list.
Proof.
  induction l1 as [|e l1 IH]; simpl; [reflexivity|].
  destruct (result_source e); simpl; rewrite IH; reflexivity.
Qed.

Lemma walker_log_no_results log :
  Forall (fun e => is_walker_event e = true) log -> result_sources log = [].
Proof.
  induction 1 as [|e log He _ IH]; simpl; [reflexivity|].
  destruct e; try discriminate; exact IH.
Qed.

Lemma sum_counts_cons k v m : sum_counts ((k, v) :: m) = v + sum_counts m.
Proof. reflexivity. Qed.

Lemma sum_counts_increment k m :
  sum_counts (map_increment k m) = sum_counts m + 1.
Proof.
  induction m as [|[k' v] m IH]; [reflexivity|].
  cbn [map_increment]. destruct (String.compare k k');
    rewrite !sum_counts_cons, ?IH; lia.
Qed.

Section MoverAccounts.
Context {FS : FileSystem}.
Variable clock : nat -> Z.
Variable currentDir : path.
Variable config : Config.

Local Abbreviation step1 := (process_one clock currentDir config).
Local Abbreviation run1 := (process_files clock currentDir config).

Lemma result_sources_print_if b name src dst (s : mstate) :
  result_sources (m_log (print_if b (MsgMoving name src dst) s))
  = result_sources (m_log s).
Proof.
  destruct b; [|reflexivity]. cbn [print_if print m_log].
  rewrite result_sources_app. simpl. apply app_nil_r.
Qed.

(** One iteration that is not cut short adds one result line, for its
    own source, and counts the move once: as moved or as an error.  One
    that is cut short adds no line and counts nothing. *)
Lemma process_one_accounts i filePath category s :
  let next := step1 i (filePath, category) s in
  if snd next then
    result_sources (m_log (fst next))
    = (result_sources (m_log s) ++ [filePath])%list
    /\ sum_counts (m_movedCount (fst next)) + m_errorCount (fst next)
       = sum_counts (m_movedCount s) + m_errorCount s + 1
  else
    m_log (fst next) = m_log s
    /\ m_movedCount (fst next) = m_movedCount s
    /\ m_errorCount (fst next) = m_errorCount s.
Proof.
  cbv zeta.
  destruct (process_one_cases clock currentDir config i filePath category s)
    as [(w1 & _ & _ & ->)
       |[(w1 & _ & _ & [(_ & ->)
                       |(targetPath & _ & [(w2 & _ & ->)|(_ & ->)])])
        |(_ & [(_ & ->)|(targetPath & _ & ->)])]];
    cbn [fst snd];
    try (repeat split; reflexivity);
    cbn [count_error count_moved print with_world m_log m_movedCount
           m_errorCount];
    rewrite result_sources_app, ?result_sources_print_if,
      ?sum_counts_increment;
    cbn [m_log with_world];
    (split; [reflexivity|]);
    destruct (verbose config);
    cbn [print_if print m_movedCount m_errorCount with_world]; lia.
Qed.

(** The loop adds one result line for each pending move it deals with,
    in order, and counts each of them once. *)
Lemma process_files_accounts files :
  forall i s,
  exists done rest,
    files = (done ++ rest)%list
    /\ (if snd (run1 i files s) then rest = [] else rest <> [])
    /\ result_sources (m_log (fst (run1 i files s)))
       = (result_sources (m_log s) ++ map fst done)%list
    /\ sum_counts (m_movedCount (fst (run1 i files s)))
       + m_errorCount (fst (run1 i files s))
       = sum_counts (m_movedCount s) + m_errorCount s
         + Z.of_nat (length done).
Proof.
  induction files as [|[filePath category] more IH]; intros i s.
  - exists [], []. simpl. rewrite app_nil_r.
    split; [reflexivity|]. split; [reflexivity|].
    split; [reflexivity | lia].
  - cbn [process_files].
    pose proof (process_one_accounts i filePath category s) as A1.
    cbv zeta in A1.
    destruct (step1 i (filePath, category) s) as [s1 [|]];
      cbn [fst snd] in *.
    + destruct A1 as [R1 A1].
      destruct (IH (S i) s1) as (done & rest & F & B & R & A).
      exists ((filePath, category) :: done), rest.
      split; [rewrite F; reflexivity|]. split; [exact B|].
      rewrite R, R1, A, A1. cbn [map fst length].
      rewrite <- app_assoc. split; [reflexivity | lia].
    + destruct A1 as (L1 & M1 & E1).
      exists [], ((filePath, category) :: more).
      split; [reflexivity|]. split; [discriminate|].
      rewrite L1, M1, E1. simpl. rewrite app_nil_r.
      split; [reflexivity | lia].
Qed.
End MoverAccounts.

(** What [organizeFiles] prints when there are pending moves and the mover
    gets through them. *)
Lemma organizeFiles_with_files {FS : FileSystem} clock currentDir config
  (w : World) programName m more log skipped :
  collect currentDir config w programName
  = ((m :: more, log), skipped, true) ->
  let s := process_files clock currentDir config 0 (m :: more)
             (mkMstate w [] 0 log) in
  snd s = true ->
  snd (organizeFiles clock currentDir config w programName)
  = (m_log (fst s)
     ++ [MsgSummary (m_movedCount (fst s)) (length (m :: more)) skipped
           (m_errorCount (fst s))])%list.
Proof.
  intros C s. unfold organizeFiles. rewrite C. fold s.
  destruct s as [s' returned]. cbn [fst snd]. intros ->.
  destruct (m_errorCount s' >? 0); reflexivity.
Qed.

(** The result lines of a run are those of an initial part of its pending
    moves: of all of them when the run comes to its end. *)
Lemma organizeFiles_result_sources {FS : FileSystem} clock currentDir config
  (w : World) programName :
  exists done rest,
    pending_moves currentDir config w programName = (done ++ rest)%list
    /\ result_sources
         (snd (organizeFiles clock currentDir config w programName))
       = map fst done
    /\ (fst (fst (organizeFiles clock currentDir config w programName))
        <> Terminate -> rest = []).
Proof.
  unfold pending_moves, organizeFiles.
  destruct (collect currentDir config w programName)
    as [[[files log] skipped] returned] eqn:C.
  destruct (collect_sound currentDir config w programName _ _ _ _ C)
    as [Hlog _].
  pose proof (walker_log_no_results _ Hlog) as Quiet.
  cbn [fst snd]. destruct returned.
  - destruct files as [|m more].
    + exists [], []. cbn [fst snd].
      rewrite result_sources_app, Quiet. auto.
    + destruct (process_files_accounts clock currentDir config (m :: more)
                  O (mkMstate w [] 0 log))
        as (done & rest & F & B & R & _).
      cbn [m_log] in R. rewrite Quiet in R.
      destruct (process_files clock currentDir config 0 (m :: more)
                  (mkMstate w [] 0 log)) as [s [|]]; cbn [fst snd] in *.
      * exists done, rest. split; [exact F|].
        split; [|intros _; exact B].
        destruct (m_errorCount s >? 0); cbn [snd];
          rewrite result_sources_app, R; simpl; apply app_nil_r.
      * exists done, rest. split; [exact F|].
        split; [exact R|]. intros N. contradiction N. reflexivity.
  - exists [], files. split; [reflexivity|]. split; [exact Quiet|].
    intros N. contradiction N. reflexivity.
Qed.

(** X13.  The mover prints exactly one result line for each pending move
    it deals with (renamed, previewed, rename failed or folder creation
    failed), and the lines come in the order of the pending moves: a
    failed rename or folder creation does not stop the run or displace a
    later file.  When the run comes to its end, that is every pending move;
    when an exception ends it, the lines are those of the pending moves
    before the one at which it was thrown. *)
Theorem one_result_per_pending_move {FS : FileSystem} (clock : nat -> Z)
  (currentDir : path) (config : Config) (w : World) (programName : string) :
  let run := organizeFiles clock currentDir config w programName in
  (exists done rest,
      pending_moves currentDir config w programName = (done ++ rest)%list
      /\ result_sources (snd run) = map fst done
      /\ (fst (fst run) <> Terminate -> rest = []))
  /\ (fst (fst run) <> Terminate ->
      result_sources (snd run)
      = map fst (pending_moves currentDir config w programName)).
Proof.
  cbv zeta.
  pose proof (organizeFiles_result_sources clock currentDir config w
                programName) as General.
  split; [exact General|].
  intros Hend. destruct General as (done & rest & F & R & E).
  rewrite R, F, (E Hend), app_nil_r. reflexivity.
Qed.

(** The theorem on the scenario of the specification. *)
Lemma one_result_per_pending_move_witness :
  result_sources
    (snd (organizeFiles (FS := FlatFS.fs) clock0 home default_config scenario
            "forg"))
  = map fst (pending_moves (FS := FlatFS.fs) home default_config scenario
               "forg").
Proof.
  destruct (one_result_per_pending_move (FS := FlatFS.fs) clock0 home
              default_config scenario "forg") as [_ H].
  apply H. vm_compute. discriminate.
Defined.

(** Where the summary line comes from: there are pending moves, the mover
    got through them, and the line shows the state it ended in. *)
Lemma summary_line {FS : FileSystem} clock currentDir config (w : World)
  programName movedCount total skippedCount errorCount :
  In (MsgSummary movedCount total skippedCount errorCount)
    (snd (organizeFiles clock currentDir config w programName)) ->
  exists m more log,
    collect currentDir config w programName
    = ((m :: more, log), skippedCount, true)
    /\ Forall (fun e => is_walker_event e = true) log
    /\ snd (process_files clock currentDir config 0 (m :: more)
              (mkMstate w [] 0 log)) = true
    /\ snd (organizeFiles clock currentDir config w programName)
       = (m_log (fst (process_files clock currentDir config 0 (m :: more)
                        (mkMstate w [] 0 log)))
          ++ [MsgSummary movedCount total skippedCount errorCount])%list
    /\ movedCount
       = m_movedCount (fst (process_files clock currentDir config 0
                              (m :: more) (mkMstate w [] 0 log)))
    /\ total = length (m :: more)
    /\ errorCount
       = m_errorCount (fst (process_files clock currentDir config 0
                              (m :: more) (mkMstate w [] 0 log))).
Proof.
  intros Hin.
  destruct (collect currentDir config w programName)
    as [[[files log] skipped] returned] eqn:C.
  destruct (collect_sound currentDir config w programName _ _ _ _ C)
    as [Hlog _].
  assert (~ In (MsgSummary movedCount total skippedCount errorCount) log)
    as Hnot.
  { intros H. rewrite Forall_forall in Hlog. specialize (Hlog _ H).
    discriminate. }
  destruct returned.
  - destruct files as [|m more].
    + exfalso. unfold organizeFiles in Hin. rewrite C in Hin.
      cbn [snd] in Hin.
      apply in_app_iff in Hin as [Hin|[Hin|[]]]; [auto | discriminate].
    + destruct (process_files_log clock currentDir config (m :: more) O
                  (mkMstate w [] 0 log))
        as (added & _ & _ & _ & L & _ & P & _).
      cbn [m_log] in L.
      assert (~ In (MsgSummary movedCount total skippedCount errorCount)
                (m_log (fst (process_files clock currentDir config 0
                               (m :: more) (mkMstate w [] 0 log)))))
        as Hnot'.
      { rewrite L. intros H. apply in_app_iff in H as [H|H]; [auto|].
        rewrite Forall_forall in P. apply (P _ H). }
      destruct (snd (process_files clock currentDir config 0 (m :: more)
                       (mkMstate w [] 0 log))) eqn:B.
      * pose proof (organizeFiles_with_files clock currentDir config w
                      programName m more log skipped C B) as Hout.
        rewrite Hout in Hin.
        apply in_app_iff in Hin as [Hin|[Hin|[]]]; [contradiction|].
        injection Hin as <- <- <- <-.
        exists m, more, log. rewrite Hout. repeat split; auto.
      * exfalso. unfold organizeFiles in Hin. rewrite C in Hin.
        destruct (process_files clock currentDir config 0 (m :: more)
                    (mkMstate w [] 0 log)) as [s b].
        cbn [fst snd] in *. subst b. cbn [snd] in Hin. auto.
  - exfalso. unfold organizeFiles in Hin. rewrite C in Hin. cbn [snd] in Hin.
    auto.
Qed.

(** X14.  The figures of the summary add up: the total is the number of
    pending moves, failed ones included; every pending move is counted
    once, in a category's count or in the error count, so the category
    counts and the error count sum to the total; the error count is the
    number of error lines printed for failed renames and folder creations;
    and in a dry run the previews are counted as moved. *)
Theorem summary_adds_up {FS : FileSystem} (clock : nat -> Z)
  (currentDir : path) (config : Config) (w : World) (programName : string)
  (movedCount : list (string * Z)) (total : nat) (skippedCount errorCount : Z) :
  In (MsgSummary movedCount total skippedCount errorCount)
    (snd (organizeFiles clock currentDir config w programName)) ->
  sum_counts movedCount + errorCount = Z.of_nat total
  /\ errorCount
     = count_errors (snd (organizeFiles clock currentDir config w programName))
  /\ (dryRun config = true -> errorCount = 0)
  /\ exists files log,
      collect currentDir config w programName
      = ((files, log), skippedCount, true)
      /\ total = length files.
Proof.
  intros Hin.
  destruct (summary_line clock currentDir config w programName _ _ _ _ Hin)
    as (m & more & log & C & Hlog & B & Hout & Hm & Ht & He).
  destruct (process_files_log clock currentDir config (m :: more) O
              (mkMstate w [] 0 log))
    as (added & ops & _ & _ & L & Ec & _ & _ & _ & _ & _ & _ & _ & D).
  destruct (process_files_accounts clock currentDir config (m :: more) O
              (mkMstate w [] 0 log)) as (done & rest & F & Br & _ & A).
  rewrite B in Br. subst rest. rewrite app_nil_r in F. subst done.
  cbn [m_log m_errorCount m_movedCount] in L, Ec, A.
  change (sum_counts []) with 0 in A.
  rewrite <- Hm, <- He, <- Ht in A. rewrite <- He in Ec.
  split; [lia|].
  split.
  { rewrite Hout, L, !count_errors_app.
    assert (count_errors log = 0) as ->.
    { apply no_mutation_no_error, walker_log_no_mutation. exact Hlog. }
    match goal with
    | |- context [count_errors [?e]] => change (count_errors [e]) with 0
    end.
    lia. }
  split.
  { intros Hdry. destruct (D Hdry) as [_ Hadded].
    rewrite Ec, (no_mutation_no_error _ Hadded). lia. }
  exists (m :: more), log. auto.
Qed.

(** The theorem on the scenario of the specification. *)
Lemma summary_adds_up_witness :
  sum_counts [("Archives", 1); ("Documents", 1); ("Images", 1); ("Others", 1)]
  + 0 = Z.of_nat 4.
Proof.
  eapply (summary_adds_up (FS := FlatFS.fs) clock0 home default_config
            scenario "forg").
  vm_compute. repeat (first [left; reflexivity | right]).
Defined.

(** ** Verbosity changes the output only *)

Section Verbosity.
Context {FS : FileSystem}.
Variable w : World.
Variable programName : string.
Variable config : Config.
Variable b : bool.
Variable maxDepth : Z.

Lemma each_entry_verbosity recurse1 recurse2 dir d complete :
  (forall sub st1 st2,
      fst st1 = fst st2 ->
      same_pending (recurse1 sub (d + 1) st1) (recurse2 sub (d + 1) st2)) ->
  forall entries st1 st2,
    fst st1 = fst st2 ->
    same_pending_loop
      (each_entry programName config maxDepth recurse1 dir d entries
         complete st1)
      (each_entry programName (set_verbose config b) maxDepth recurse2 dir d
         entries complete st2).
Proof.
  intros Hrec. induction entries as [|entry more IH]; intros st1 st2 Hst.
  - split; [exact Hst | reflexivity].
  - cbn [each_entry recursive verbose set_verbose].
    destruct (d_is_directory entry) as [[|]|];
      [ | |split; [exact Hst | reflexivity]];
      repeat match goal with
             | |- context [if ?c then _ else _] =>
                 lazymatch c with
                 | verbose config => fail
                 | b => fail
                 | _ => destruct c
                 end
             end;
      try (apply IH; rewrite ?fst_say_if; cbn [push_back fst];
           rewrite ?Hst; reflexivity).
    specialize (Hrec (path_child dir (d_name entry)) st1 st2 Hst).
    destruct (recurse1 (path_child dir (d_name entry)) (d + 1) st1),
      (recurse2 (path_child dir (d_name entry)) (d + 1) st2);
      cbn [same_pending] in *; try contradiction; auto.
Qed.

Lemma collectFiles_verbosity fuel :
  forall dir d st1 st2,
    fst st1 = fst st2 ->
    same_pending
      (collectFiles w programName config maxDepth fuel dir d st1)
      (collectFiles w programName (set_verbose config b) maxDepth fuel dir d
         st2).
Proof.
  induction fuel as [|fuel IH]; intros dir d st1 st2 Hst; [exact I|].
  cbn [collectFiles]. destruct (d >? maxDepth); [exact Hst|].
  destruct (directory_iterator w dir) as [entries complete].
  pose proof (each_entry_verbosity
                (collectFiles w programName config maxDepth fuel)
                (collectFiles w programName (set_verbose config b) maxDepth
                   fuel) dir d complete
                (fun sub s1 s2 => IH sub (d + 1) s1 s2) entries st1 st2 Hst)
    as H.
  destruct (each_entry programName config maxDepth _ dir d entries complete
              st1) as [[s1 b1]|],
    (each_entry programName (set_verbose config b) maxDepth _ dir d entries
       complete st2) as [[s2 b2]|];
    cbn [same_pending_loop] in H; try contradiction; [|exact I].
  destruct H as [H <-]. destruct b1; exact H.
Qed.

Lemma collectTopLevel_verbosity dir complete :
  forall entries st1 st2 skipped,
    fst st1 = fst st2 ->
    pending_part
      (collectTopLevel programName config dir entries complete st1 skipped)
    = pending_part
        (collectTopLevel programName (set_verbose config b) dir entries
           complete st2 skipped).
Proof.
  intros entries st1 st2 skipped Hst.
  destruct (collectTopLevel_exact programName config dir complete entries
              st1 skipped) as [H1 H2].
  destruct (collectTopLevel_exact programName (set_verbose config b) dir
              complete entries st2 skipped) as [H3 H4].
  unfold pending_part.
  rewrite H1, H2, H3, H4, Hst, !collectTopLevel_returns. reflexivity.
Qed.
End Verbosity.

Section VerbosityMover.
Context {FS : FileSystem}.
Variable clock : nat -> Z.
Variable currentDir : path.
Variable config : Config.
Variable b : bool.

Lemma process_one_verbosity i m s1 s2 :
  core s1 = core s2 ->
  core (fst (process_one clock currentDir config i m s1))
  = core (fst (process_one clock currentDir (set_verbose config b) i m s2))
  /\ snd (process_one clock currentDir config i m s1)
     = snd (process_one clock currentDir (set_verbose config b) i m s2).
Proof.
  intros Hc. unfold core in Hc. injection Hc as Hw Hm He.
  destruct m as [filePath category]. unfold process_one.
  change (folder_name (set_verbose config b) category)
    with (folder_name config category).
  cbn [dryRun verbose set_verbose]. rewrite <- Hw.
  destruct (if negb (dryRun config)
            then create_directories (m_world s1)
                   (path_append currentDir (folder_name config category))
            else (m_world s1, true)) as [w1 [|]].
  - destruct (getUniquePath w1 (clock i)
                (path_append currentDir (folder_name config category))
                (path_filename filePath)) as [targetPath|].
    + destruct (negb (dryRun config)).
      * destruct (fs_rename w1 filePath _);
          unfold core;
          cbn [fst snd count_moved count_error print with_world m_world
                 m_movedCount m_errorCount];
          destruct (verbose config), b;
          cbn [print_if print with_world m_world m_movedCount
                 m_errorCount];
          rewrite ?Hm, ?He; split; reflexivity.
      * unfold core;
          cbn [fst snd count_moved print m_world m_movedCount
                 m_errorCount];
          destruct (verbose config), b;
          cbn [print_if print with_world m_world m_movedCount
                 m_errorCount];
          rewrite ?Hm, ?He; split; reflexivity.
    + unfold core. cbn [fst snd with_world m_world m_movedCount
                          m_errorCount].
      rewrite Hm, He. split; reflexivity.
  - unfold core.
    cbn [fst snd count_error print with_world m_world m_movedCount
           m_errorCount].
    rewrite Hm, He. split; reflexivity.
Qed.

Lemma process_files_verbosity files :
  forall i s1 s2,
    core s1 = core s2 ->
    core (fst (process_files clock currentDir config i files s1))
    = core (fst (process_files clock currentDir (set_verbose config b) i
                   files s2))
    /\ snd (process_files clock currentDir config i files s1)
       = snd (process_files clock currentDir (set_verbose config b) i files
                s2).
Proof.
  induction files as [|m more IH]; intros i s1 s2 Hc;
    [split; [exact Hc | reflexivity]|].
  cbn [process_files].
  destruct (process_one_verbosity i m s1 s2 Hc) as [H1 H2].
  destruct (process_one clock currentDir config i m s1) as [t1 b1],
    (process_one clock currentDir (set_verbose config b) i m s2)
      as [t2 b2].
  cbn [fst snd] in H1, H2. subst b2.
  destruct b1; [apply IH; exact H1 | split; [exact H1 | reflexivity]].
Qed.
End VerbosityMover.

(** X15.  The verbose flag changes the output and nothing else: with the
    flag set or cleared, the pending moves and [skippedCount] are the
    same, and [organizeFiles] ends in the same way, by the same exit
    status or by the same exception, and leaves the same file system
    behind. *)
Theorem verbose_changes_output_only {FS : FileSystem} (clock : nat -> Z)
  (currentDir : path) (config : Config) (b : bool) (w : World)
  (programName : string) :
  pending_part (collect currentDir (set_verbose config b) w programName)
  = pending_part (collect currentDir config w programName)
  /\ fst (organizeFiles clock currentDir (set_verbose config b) w programName)
     = fst (organizeFiles clock currentDir config w programName).
Proof.
  assert (pending_part (collect currentDir (set_verbose config b) w programName)
          = pending_part (collect currentDir config w programName)) as Same.
  { unfold collect. cbn [recursive depth set_verbose].
    change (banner currentDir (set_verbose config b))
      with (banner currentDir config).
    destruct (recursive config).
    - pose proof (collectFiles_verbosity w programName config b (depth config)
                    (walk_fuel 1 (depth config)) currentDir 1
                    ([], banner currentDir config)
                    ([], banner currentDir config) eq_refl) as H.
      destruct (collectFiles w programName config (depth config) _ _ _ _),
        (collectFiles w programName (set_verbose config b) (depth config)
           _ _ _ _); unfold pending_part; cbn [same_pending fst snd] in *;
        try contradiction; try rewrite H; reflexivity.
    - destruct (directory_iterator w currentDir) as [entries complete].
      symmetry. apply collectTopLevel_verbosity. reflexivity. }
  split; [exact Same|].
  unfold organizeFiles.
  destruct (collect currentDir (set_verbose config b) w programName)
    as [[[files1 log1] k1] r1],
    (collect currentDir config w programName) as [[[files2 log2] k2] r2].
  unfold pending_part in Same. cbn [fst snd] in Same.
  injection Same as -> -> ->.
  destruct r2; [|reflexivity].
  destruct files2 as [|m more]; [reflexivity|].
  destruct (process_files_verbosity clock currentDir config b (m :: more) O
              (mkMstate w [] 0 log2) (mkMstate w [] 0 log1) eq_refl)
    as [H B].
  destruct (process_files clock currentDir config 0 (m :: more)
              (mkMstate w [] 0 log2)) as [s2 b2],
    (process_files clock currentDir (set_verbose config b) 0 (m :: more)
       (mkMstate w [] 0 log1)) as [s1 b1].
  cbn [fst snd] in H, B. subst b1.
  unfold core in H. injection H as Hw Hm He.
  rewrite <- Hw, <- He.
  destruct b2; [|reflexivity].
  destruct (m_errorCount s2 >? 0); reflexivity.
Qed.

(** ** The help text *)

Lemma append_nil_r (s : string) : s ++ "" = s.
Proof. induction s as [|c s IH]; simpl; [reflexivity | rewrite IH; reflexivity]. Qed.

Lemma firstn_skipn_cons {A : Type} (d : A) :
  forall l i n,
    (i < length l)%nat ->
    firstn (S n) (skipn i l) = nth i l d :: firstn n (skipn (S i) l).
Proof.
  induction l as [|x l IH]; intros i n Hi; [simpl in Hi; lia|].
  destruct i as [|i]; [reflexivity|].
  cbn [skipn nth]. apply IH. simpl in Hi. lia.
Qed.

(** The inner loop of [printHelp] from index [i] on. *)
Lemma help_extensions_from extensions count :
  (count <= length extensions)%nat ->
  forall n i out,
    (i + n = count)%nat ->
    fold_left
      (fun out i =>
         out ++ nth i extensions ""
         ++ (if Nat.ltb i (count - 1) then ", " else ""))
      (seq i n) out
    = out ++ String.concat ", " (firstn n (skipn i extensions)).
Proof.
  intros Hc. induction n as [|n IH]; intros i out Hi.
  - simpl. rewrite append_nil_r. reflexivity.
  - cbn [seq fold_left]. rewrite (IH (S i)) by lia.
    rewrite (firstn_skipn_cons "" extensions i n) by lia.
    rewrite append_assoc. f_equal.
    destruct n as [|n].
    + destruct (Nat.ltb_spec i (count - 1)); [lia|].
      simpl. rewrite !append_nil_r. reflexivity.
    + destruct (Nat.ltb_spec i (count - 1)); [|lia].
      rewrite (firstn_skipn_cons "" extensions (S i) n) by lia.
      cbn [String.concat]. rewrite !append_assoc. reflexivity.
Qed.

Lemma first_category_pair table ext :
  first_category table ext = "Others"
  \/ exists extensions, In (first_category table ext, extensions) table.
Proof.
  induction table as [|[c e] table IH]; simpl; [auto|].
  destruct (vec_contains e ext); [right; exists e; auto|].
  destruct IH as [H|(e' & H)]; [auto | right; exists e'; auto].
Qed.

Lemma getCategory_in_table extension :
  getCategory extension = "Others"
  \/ exists extensions, In (getCategory extension, extensions) FILE_CATEGORIES.
Proof.
  unfold getCategory. destruct (String.eqb extension ""); [auto|].
  apply first_category_pair.
Qed.

(** X16.  The help lists a category by its name and at most its first
    five extensions, separated by commas, followed by the number of the
    remaining ones when there are more than five; and every category the
    classifier can return has its line in the help, so the help names all
    folders the program may create. *)
Theorem help_lists_categories :
  (forall category extensions,
      help_category_line (category, extensions)
      = "  " ++ COLOR_BLUE ++ category ++ COLOR_RESET ++ ": "
        ++ String.concat ", " (firstn 5 extensions)
        ++ (if Nat.leb (length extensions) 5 then ""
            else " + " ++ to_string (Z.of_nat (length extensions - 5))
                 ++ " more"))
  /\ (forall filename,
        exists rest,
          In ("  " ++ COLOR_BLUE ++ classify filename ++ COLOR_RESET ++ ": "
              ++ rest) printHelp).
Proof.
  split.
  - intros category extensions. unfold help_category_line, help_extensions.
    rewrite (help_extensions_from extensions (Nat.min 5 (length extensions)))
      by lia.
    cbn [skipn]. change ("" ++ ?x) with x.
    replace (firstn (Nat.min 5 (length extensions)) extensions)
      with (firstn 5 extensions).
    + destruct (Nat.ltb_spec 5 (length extensions)),
        (Nat.leb_spec (length extensions) 5); try lia; reflexivity.
    + destruct (Nat.le_ge_cases 5 (length extensions)) as [H|H].
      * rewrite Nat.min_l by exact H. reflexivity.
      * rewrite Nat.min_r by exact H.
        rewrite !firstn_all2; [reflexivity | lia | exact H].
  - intros filename. unfold printHelp.
    destruct (getCategory_in_table (getFileExtension filename))
      as [E|(extensions & Hin)]; fold (classify filename) in *.
    + rewrite E. exists "Files with unrecognized extensions".
      apply in_app_iff. right. apply in_app_iff. right. left. reflexivity.
    + eexists. apply in_app_iff. right. apply in_app_iff. left.
      apply in_map_iff. exists (classify filename, extensions).
      split; [reflexivity | exact Hin].
Qed.

(** ** The categories of the summary *)

Lemma map_increment_pairs k (m : list (string * Z)) p :
  In p (map_increment k m) ->
  (fst p = k /\ (snd p = 1 \/ exists v, In (k, v) m /\ snd p = v + 1))
  \/ In p m.
Proof.
  induction m as [|[k' v'] m IH]; simpl.
  - intros [<-|[]]. left. simpl. auto.
  - destruct (String.compare k k') eqn:E; simpl; intros H.
    + apply String.compare_eq_iff in E. subst k'.
      destruct H as [<-|H]; [|auto].
      left. simpl. split; [reflexivity|]. right. exists v'. auto.
    + destruct H as [<-|H]; [|auto]. left. simpl. auto.
    + destruct H as [<-|H]; [auto|].
      destruct (IH H) as [(Hk & [H1|(v & Hin & Hv)])|Hin]; auto.
      left. split; [exact Hk|]. right. exists v. auto.
Qed.

Lemma map_increment_increasing k (m : list (string * Z)) :
  increasing m -> increasing (map_increment k m).
Proof.
  induction m as [|[k' v'] m IH]; simpl.
  - intros _. split; [constructor | exact I].
  - intros [Hb Hi]. destruct (String.compare k k') eqn:E; simpl.
    + auto.
    + split; [|auto]. constructor; [exact E|].
      apply below_weaken with k'; assumption.
    + split; [|auto]. unfold below. rewrite Forall_forall.
      intros p Hp. destruct (map_increment_pairs _ _ _ Hp) as [[Hk _]|Hin].
      * rewrite Hk. apply compare_gt_lt. exact E.
      * unfold below in Hb. rewrite Forall_forall in Hb. auto.
Qed.

Section SummaryCategories.
Context {FS : FileSystem}.
Variable clock : nat -> Z.
Variable currentDir : path.
Variable config : Config.

(** The counts of a [movedCount] map: positive, under keys that are
    categories of the pending moves [files], each key once and in
    order. *)
Local Abbreviation counts_ok :=
  (fun (files : list PendingMove) (m : list (string * Z)) =>
     increasing m
     /\ forall category count,
         In (category, count) m ->
         1 <= count /\ exists src, In (src, category) files).

Lemma counts_ok_increment (files : list PendingMove) src category m :
  In (src, category) files ->
  counts_ok files m -> counts_ok files (map_increment category m).
Proof.
  intros Hf [Hi Hc]. split; [apply map_increment_increasing; exact Hi|].
  intros c n Hin.
  destruct (map_increment_pairs _ _ _ Hin)
    as [(Hk & [H1|(v & Hv & Hn)])|Hold]; simpl in *.
  - subst. split; [lia | eauto].
  - subst. destruct (Hc _ _ Hv) as [Hpos _]. split; [lia | eauto].
  - apply (Hc _ _ Hold).
Qed.

Lemma process_one_counts (files : list PendingMove) i filePath category s :
  In (filePath, category) files ->
  counts_ok files (m_movedCount s) ->
  counts_ok files
    (m_movedCount (fst (process_one clock currentDir config i
                          (filePath, category) s))).
Proof.
  intros Hf Hok.
  destruct (process_one_cases clock currentDir config i filePath category s)
    as [(w1 & _ & _ & ->)
       |[(w1 & _ & _ & [(_ & ->)
                       |(targetPath & _ & [(w2 & _ & ->)|(_ & ->)])])
        |(_ & [(_ & ->)|(targetPath & _ & ->)])]];
    cbn [fst count_error count_moved print with_world m_movedCount];
    try (destruct (verbose config);
         cbn [print_if print with_world m_movedCount]);
    try exact Hok;
    apply (counts_ok_increment files filePath); assumption.
Qed.

Lemma process_files_counts (files : list PendingMove) :
  forall todo i s,
    (forall m, In m todo -> In m files) ->
    counts_ok files (m_movedCount s) ->
    counts_ok files
      (m_movedCount (fst (process_files clock currentDir config i todo s))).
Proof.
  induction todo as [|[filePath category] more IH]; intros i s Hsub Hok.
  - exact Hok.
  - cbn [process_files].
    pose proof (process_one_counts files i filePath category s
                  (Hsub _ (or_introl eq_refl)) Hok) as H1.
    destruct (process_one clock currentDir config i (filePath, category) s)
      as [s1 [|]]; cbn [fst] in *; [|exact H1].
    apply IH; [|exact H1].
    intros m Hm. apply Hsub. right. exact Hm.
Qed.
End SummaryCategories.

(** X17.  The summary lists each category at most once, in the order of
    the category names, and only categories that received a file: every
    count is at least 1, and its category is one of the ten names and the
    category of some pending move. *)
Theorem summary_categories {FS : FileSystem} (clock : nat -> Z)
  (currentDir : path) (config : Config) (w : World) (programName : string)
  (movedCount : list (string * Z)) (total : nat) (skippedCount errorCount : Z) :
  In (MsgSummary movedCount total skippedCount errorCount)
    (snd (organizeFiles clock currentDir config w programName)) ->
  increasing movedCount
  /\ forall category count,
      In (category, count) movedCount ->
      1 <= count
      /\ In category category_names
      /\ exists files log src,
          collect currentDir config w programName
          = ((files, log), skippedCount, true)
          /\ In (src, category) files.
Proof.
  intros Hin.
  destruct (summary_line clock currentDir config w programName _ _ _ _ Hin)
    as (m & more & log & C & _ & _ & _ & Hm & _ & _).
  destruct (collect_sound currentDir config w programName _ _ _ _ C)
    as [_ Hok].
  destruct (process_files_counts clock currentDir config (m :: more)
              (m :: more) O (mkMstate w [] 0 log) (fun _ H => H))
    as [Hi Hc].
  { split; [exact I|]. intros c n []. }
  rewrite <- Hm in Hi, Hc.
  split; [exact Hi|].
  intros category count Hcat. destruct (Hc _ _ Hcat) as [Hpos (src & Hsrc)].
  split; [exact Hpos|]. split.
  - destruct (Hok _ Hsrc) as (_ & name & _ & _ & _ & _ & Hname & _).
    simpl in Hname. rewrite Hname. apply getCategory_in_names.
  - exists (m :: more), log, src. auto.
Qed.

(** The theorem on the scenario of the specification. *)
Lemma summary_categories_witness :
  increasing
    [("Archives", 1); ("Documents", 1); ("Images", 1); ("Others", 1)].
Proof.
  assert (Hin : In (MsgSummary
                      [("Archives", 1); ("Documents", 1); ("Images", 1);
                       ("Others", 1)] 4 0 0)
                  (snd (organizeFiles (FS := FlatFS.fs) clock0 home
                          default_config scenario "forg"))).
  { vm_compute. repeat (first [left; reflexivity | right]). }
  exact (proj1 (summary_categories (FS := FlatFS.fs) clock0 home
                  default_config scenario "forg" _ _ _ _ Hin)).
Defined.

(** ** Nothing to organise *)

(** X18.  Without the recursive option, "No files to organize." is printed
    exactly when the working directory can be listed and no entry is a
    file that is neither the program nor skipped: a directory that is empty
    or holds only directories, hidden and system files and the program.
    The run then exits 0 and leaves the file system as it was, dry run or
    not, and prints no summary. *)
Theorem nothing_to_organize {FS : FileSystem} (clock : nat -> Z)
  (currentDir : path) (config : Config) (w : World) (programName : string)
  (entries : list dirent) (complete : bool) :
  recursive config = false ->
  directory_iterator w currentDir = (entries, complete) ->
  (In MsgNoFiles (snd (organizeFiles clock currentDir config w programName))
   <-> listing_throws (entries, complete) = false
       /\ filter (eligible programName) entries = [])
  /\ (listing_throws (entries, complete) = false ->
      filter (eligible programName) entries = [] ->
      fst (organizeFiles clock currentDir config w programName) = (Exit 0, w)
      /\ forall movedCount total skippedCount errorCount,
          ~ In (MsgSummary movedCount total skippedCount errorCount)
              (snd (organizeFiles clock currentDir config w programName))).
Proof.
  intros Hr Hlist.
  pose proof (collect_top_level currentDir config w programName entries
                complete Hr Hlist) as Hpart.
  destruct (collect currentDir config w programName)
    as [[[files log] skipped] returned] eqn:C.
  unfold pending_part in Hpart. cbn [fst snd] in Hpart.
  injection Hpart as Hf _ Hret.
  destruct (collect_sound currentDir config w programName _ _ _ _ C)
    as [Hlog _].
  rewrite Forall_forall in Hlog.
  destruct (listing_throws (entries, complete)) eqn:T; cbn [negb] in Hret;
    subst returned.
  - assert (organizeFiles clock currentDir config w programName
            = (Terminate, w, log)) as Hout.
    { unfold organizeFiles. rewrite C. reflexivity. }
    rewrite Hout. cbn [fst snd]. split; [|discriminate].
    split; [|intros [E _]; discriminate].
    intros Hin. specialize (Hlog _ Hin). discriminate.
  - rewrite (answered_all entries complete T) in Hf.
    destruct files as [|m more].
    + assert (filter (eligible programName) entries = []) as Hnone.
      { destruct (filter (eligible programName) entries); [reflexivity|].
        discriminate. }
      assert (organizeFiles clock currentDir config w programName
              = (Exit 0, w, (log ++ [MsgNoFiles])%list)) as Hout.
      { unfold organizeFiles. rewrite C. reflexivity. }
      rewrite Hout. cbn [fst snd]. split.
      * split; [intros _; split; [reflexivity | exact Hnone]|].
        intros _. apply in_app_iff. right. left. reflexivity.
      * intros _ _. split; [reflexivity|].
        intros movedCount total skippedCount errorCount Hin.
        apply in_app_iff in Hin as [Hin|[Hin|[]]]; [|discriminate].
        specialize (Hlog _ Hin). discriminate.
    + assert (filter (eligible programName) entries <> []) as Hsome.
      { intros E. rewrite E in Hf. discriminate. }
      split; [|intros _ E; contradiction].
      split; [|intros [_ E]; contradiction].
      intros Hin. exfalso.
      destruct (process_files_log clock currentDir config (m :: more) O
                  (mkMstate w [] 0 log))
        as (added & _ & _ & _ & L & _ & P & _).
      cbn [m_log] in L.
      assert (~ In MsgNoFiles
                (m_log (fst (process_files clock currentDir config 0
                               (m :: more) (mkMstate w [] 0 log)))))
        as Hnot.
      { rewrite L. intros H. apply in_app_iff in H as [H|H].
        - specialize (Hlog _ H). discriminate.
        - rewrite Forall_forall in P. apply (P _ H). }
      unfold organizeFiles in Hin. rewrite C in Hin.
      destruct (process_files clock currentDir config 0 (m :: more)
                  (mkMstate w [] 0 log)) as [s [|]]; cbn [fst snd] in *.
      * destruct (m_errorCount s >? 0); cbn [snd] in Hin;
          apply in_app_iff in Hin as [Hin|[Hin|[]]];
          try discriminate; contradiction.
      * contradiction.
Qed.

(** The theorem on a directory of hidden files and folders. *)
Lemma nothing_to_organize_witness :
  In MsgNoFiles
    (snd (organizeFiles (FS := FlatFS.fs) clock0 home default_config dotfiles
            "forg"))
  /\ fst (organizeFiles (FS := FlatFS.fs) clock0 home default_config dotfiles
            "forg")
     = (Exit 0, dotfiles).
Proof.
  assert (filter (eligible "forg")
            [ Build_dirent ".bashrc" (Some false);
              Build_dirent "Thumbs.db" (Some false);
              Build_dirent "forg" (Some false);
              Build_dirent ".git" (Some true);
              Build_dirent "Documents" (Some true) ] = []) as Hnone
    by (vm_compute; reflexivity).
  assert (directory_iterator (FileSystem := FlatFS.fs) dotfiles home
          = ([ Build_dirent ".bashrc" (Some false);
               Build_dirent "Thumbs.db" (Some false);
               Build_dirent "forg" (Some false);
               Build_dirent ".git" (Some true);
               Build_dirent "Documents" (Some true) ], true)) as Hlist
    by (vm_compute; reflexivity).
  destruct (nothing_to_organize (FS := FlatFS.fs) clock0 home default_config
              dotfiles "forg" _ _ eq_refl Hlist) as [Hiff Hexit].
  split; [apply Hiff; split; [reflexivity | exact Hnone]
         |apply (Hexit eq_refl Hnone)].
Defined.

(** ** What the selection of files depends on *)

Section Selection.
Context {FS : FileSystem}.
Variable w : World.
Variable programName : string.
Variables config1 config2 : Config.
Variable maxDepth : Z.
Hypothesis same_mode : recursive config1 = recursive config2.

Lemma each_entry_selection recurse1 recurse2 dir d complete :
  (forall sub st1 st2,
      fst st1 = fst st2 ->
      same_pending (recurse1 sub (d + 1) st1) (recurse2 sub (d + 1) st2)) ->
  forall entries st1 st2,
    fst st1 = fst st2 ->
    same_pending_loop
      (each_entry programName config1 maxDepth recurse1 dir d entries
         complete st1)
      (each_entry programName config2 maxDepth recurse2 dir d entries
         complete st2).
Proof.
  intros Hrec. induction entries as [|entry more IH]; intros st1 st2 Hst.
  - split; [exact Hst | reflexivity].
  - cbn [each_entry]. rewrite <- same_mode.
    destruct (d_is_directory entry) as [[|]|].
    + destruct (shouldSkip (path_child dir (d_name entry))).
      * apply IH. rewrite !fst_say_if. exact Hst.
      * destruct (recursive config1 && (d <? maxDepth))%bool.
        -- specialize (Hrec (path_child dir (d_name entry)) st1 st2 Hst).
           destruct (recurse1 (path_child dir (d_name entry)) (d + 1) st1),
             (recurse2 (path_child dir (d_name entry)) (d + 1) st2);
             cbn [same_pending] in *; try contradiction; auto.
        -- apply IH. rewrite !fst_say_if. exact Hst.
    + destruct (is_program _ programName).
      * apply IH. rewrite !fst_say_if. exact Hst.
      * destruct (shouldSkip (path_child dir (d_name entry))).
        -- apply IH. rewrite !fst_say_if. exact Hst.
        -- apply IH. cbn [push_back fst]. rewrite Hst. reflexivity.
    + split; [exact Hst | reflexivity].
Qed.

Lemma collectFiles_selection fuel :
  forall dir d st1 st2,
    fst st1 = fst st2 ->
    same_pending
      (collectFiles w programName config1 maxDepth fuel dir d st1)
      (collectFiles w programName config2 maxDepth fuel dir d st2).
Proof.
  induction fuel as [|fuel IH]; intros dir d st1 st2 Hst; [exact I|].
  cbn [collectFiles]. destruct (d >? maxDepth); [exact Hst|].
  destruct (directory_iterator w dir) as [entries complete].
  pose proof (each_entry_selection
                (collectFiles w programName config1 maxDepth fuel)
                (collectFiles w programName config2 maxDepth fuel)
                dir d complete
                (fun sub s1 s2 => IH sub (d + 1) s1 s2) entries st1 st2 Hst)
    as H.
  destruct (each_entry programName config1 maxDepth _ dir d entries complete
              st1) as [[s1 b1]|],
    (each_entry programName config2 maxDepth _ dir d entries complete st2)
      as [[s2 b2]|];
    cbn [same_pending_loop] in H; try contradiction; [|exact I].
  destruct H as [H <-]. destruct b1; exact H.
Qed.
End Selection.

(** The pending moves of two runs in the same mode. *)
Lemma collect_selection {FS : FileSystem} currentDir config1 config2
  (w : World) programName :
  recursive config1 = recursive config2 ->
  depth config1 = depth config2 ->
  pending_part (collect currentDir config1 w programName)
  = pending_part (collect currentDir config2 w programName).
Proof.
  intros Hr Hd. unfold collect. rewrite <- Hr, <- Hd.
  destruct (recursive config1) eqn:R1.
  - rewrite <- R1 in Hr.
    pose proof (collectFiles_selection w programName config1 config2
                  (depth config1) Hr (walk_fuel 1 (depth config1))
                  currentDir 1 ([], banner currentDir config1)
                  ([], banner currentDir config2) eq_refl) as H.
    destruct (collectFiles w programName config1 (depth config1) _ _ _ _),
      (collectFiles w programName config2 (depth config1) _ _ _ _);
      unfold pending_part; cbn [same_pending fst snd] in *;
      try contradiction; try rewrite H; reflexivity.
  - destruct (directory_iterator w currentDir) as [entries complete].
    destruct (collectTopLevel_exact programName config1 currentDir complete
                entries ([], banner currentDir config1) 0) as [H1 H2].
    destruct (collectTopLevel_exact programName config2 currentDir complete
                entries ([], banner currentDir config2) 0) as [H3 H4].
    unfold pending_part.
    rewrite H1, H2, H3, H4, !collectTopLevel_returns. reflexivity.
Qed.

(** X19.  Which files a run deals with depends on the file system, the
    program name, the recursive flag and the depth only: two runs that
    agree on these have the same pending moves and the same
    [skippedCount], whatever their prefix, verbosity, dry-run flag and
    clock.  Each of them prints its result lines for an initial part of
    these pending moves, in their order; and when both come to their end,
    neither stopped by an exception, they print their result lines for the
    same files in the same order.  In particular a dry run that comes to
    its end previews exactly the files that a real run that comes to its
    end deals with. *)
Theorem selection_depends_on_mode_only {FS : FileSystem}
  (clock1 clock2 : nat -> Z) (currentDir : path) (config1 config2 : Config)
  (w : World) (programName : string) :
  recursive config1 = recursive config2 ->
  depth config1 = depth config2 ->
  let run1 := organizeFiles clock1 currentDir config1 w programName in
  let run2 := organizeFiles clock2 currentDir config2 w programName in
  pending_part (collect currentDir config1 w programName)
  = pending_part (collect currentDir config2 w programName)
  /\ (exists done rest,
         pending_moves currentDir config2 w programName = (done ++ rest)%list
         /\ result_sources (snd run1) = map fst done)
  /\ (fst (fst run1) <> Terminate ->
      fst (fst run2) <> Terminate ->
      result_sources (snd run1) = result_sources (snd run2)).
Proof.
  intros Hr Hd. cbv zeta.
  pose proof (collect_selection currentDir config1 config2 w programName
                Hr Hd) as Same.
  assert (pending_moves currentDir config1 w programName
          = pending_moves currentDir config2 w programName) as Files.
  { unfold pending_moves.
    change (fst (fst (pending_part (collect currentDir config1 w programName)))
            = fst (fst (pending_part
                          (collect currentDir config2 w programName)))).
    rewrite Same. reflexivity. }
  destruct (organizeFiles_result_sources clock1 currentDir config1 w
              programName) as (done1 & rest1 & F1 & R1 & E1).
  destruct (organizeFiles_result_sources clock2 currentDir config2 w
              programName) as (done2 & rest2 & F2 & R2 & E2).
  split; [exact Same|]. split.
  - exists done1, rest1. rewrite <- Files. auto.
  - intros H1 H2. rewrite R1, R2.
    rewrite (E1 H1), app_nil_r in F1. rewrite (E2 H2), app_nil_r in F2.
    rewrite <- F1, <- F2, Files. reflexivity.
Qed.

(** The theorem on the scenario of the specification: the plain run and a
    verbose dry run with a prefix. *)
Lemma selection_depends_on_mode_only_witness :
  result_sources
    (snd (organizeFiles (FS := FlatFS.fs) clock0 home default_config scenario
            "forg"))
  = result_sources
      (snd (organizeFiles (FS := FlatFS.fs) clock0 home
              (set_verbose (set_dryRun (set_prefix default_config "My_") true)
                 true)
              scenario "forg")).
Proof.
  destruct (selection_depends_on_mode_only (FS := FlatFS.fs) clock0 clock0
              home default_config
              (set_verbose (set_dryRun (set_prefix default_config "My_") true)
                 true)
              scenario "forg" eq_refl eq_refl) as (_ & _ & H).
  apply H; vm_compute; discriminate.
Defined.

(** ** Help and version from the command line *)

(** X20.  On a command line where no argument is a depth or prefix
    option: if [-h] or [--help] occurs anywhere, [main] prints the
    warnings for the unknown arguments and then the help text, exits 0 and
    leaves the file system alone, also when [--version] is given as well;
    without a help flag, [--version] does the same with the version text;
    with neither, [main] prints the warnings and runs [organizeFiles] with
    the parsed configuration and the file name of the program path, and
    passes its exit status on.  The short [-v] is the verbose flag and
    counts as neither. *)
Theorem main_help_and_version {FS : FileSystem} (clock : nat -> Z)
  (currentDir : path) (w : World) (program : string) (args : list string) :
  forallb (fun arg => negb (takes_value arg)) args = true ->
  (existsb (fun a => is_flag a "-h" "--help") args = true ->
   main clock currentDir w (program :: args)
   = (Exit 0, w,
      (map UnknownOption (filter (fun a => negb (known_flag a)) args)
       ++ [PrintHelp])%list))
  /\ (existsb (fun a => is_flag a "-h" "--help") args = false ->
      existsb (fun a => String.eqb a "--version") args = true ->
      main clock currentDir w (program :: args)
      = (Exit 0, w,
         (map UnknownOption (filter (fun a => negb (known_flag a)) args)
          ++ [PrintVersion])%list))
  /\ (existsb (fun a => is_flag a "-h" "--help") args = false ->
      existsb (fun a => String.eqb a "--version") args = false ->
      main clock currentDir w (program :: args)
      = (fst (fst (organizeFiles clock currentDir
                     (fst (parse_loop args default_config)) w
                     (filename_of_string program))),
         snd (fst (organizeFiles clock currentDir
                     (fst (parse_loop args default_config)) w
                     (filename_of_string program))),
         (map UnknownOption (filter (fun a => negb (known_flag a)) args)
          ++ snd (organizeFiles clock currentDir
                    (fst (parse_loop args default_config)) w
                    (filename_of_string program)))%list)).
Proof.
  intros Hv.
  destruct (parse_loop_flags args default_config Hv)
    as (Hh & Hver & _ & _ & _ & _ & _ & Hw).
  unfold main, parseArguments. cbn [tl hd].
  destruct (parse_loop args default_config) as [config warnings].
  cbn [fst snd showHelp showVersion default_config orb] in Hh, Hver, Hw.
  rewrite Hh, Hver, Hw.
  split; [|split].
  - intros ->. reflexivity.
  - intros -> ->. reflexivity.
  - intros -> ->. cbn [fst].
    destruct (organizeFiles clock currentDir config w
                (filename_of_string program)) as [[result w'] output].
    reflexivity.
Qed.

(** The theorem on [forg --version stray -h] and [forg -v --version]. *)
Lemma main_help_and_version_witness :
  main (FS := FlatFS.fs) clock0 home scenario
    ["./forg"; "--version"; "stray"; "-h"]
  = (Exit 0, scenario, [UnknownOption "stray"; PrintHelp])
  /\ main (FS := FlatFS.fs) clock0 home scenario ["./forg"; "-v"; "--version"]
     = (Exit 0, scenario, [PrintVersion]).
Proof.
  split.
  - apply (main_help_and_version (FS := FlatFS.fs) clock0 home scenario
             "./forg" ["--version"; "stray"; "-h"]); reflexivity.
  - apply (main_help_and_version (FS := FlatFS.fs) clock0 home scenario
             "./forg" ["-v"; "--version"]); reflexivity.
Defined.

(** ** The walker only appends *)

Lemma extend_empty (st : wstate) : extend st ([], []) = st.
Proof. destruct st. unfold extend. cbn [fst snd]. rewrite !app_nil_r. reflexivity. Qed.

Lemma extend_assoc (st x y : wstate) :
  extend (extend st x) y = extend st (extend x y).
Proof. unfold extend. cbn [fst snd]. rewrite !app_assoc. reflexivity. Qed.

Lemma say_if_extend b e (st : wstate) :
  say_if b e st = extend st (say_if b e ([], [])).
Proof.
  destruct st as [files log], b; unfold extend; cbn [say_if say fst snd];
    rewrite ?app_nil_r; reflexivity.
Qed.

Lemma push_back_extend m (st : wstate) :
  push_back m st = extend st (push_back m ([], [])).
Proof.
  destruct st as [files log]. unfold extend, push_back. cbn [fst snd].
  rewrite ?app_nil_r. reflexivity.
Qed.

Lemma say_extend e (st added : wstate) :
  say e (extend st added) = extend st (say e added).
Proof.
  unfold extend, say. cbn [fst snd]. rewrite app_assoc. reflexivity.
Qed.

(** A run of the loop from [extend st x] and from [x]. *)
Lemma appends_loop_chain (st x : wstate) o o' o0 :
  appends_loop (extend st x) o o0 -> appends_loop x o' o0 ->
  appends_loop st o o'.
Proof.
  destruct o as [[s b]|], o' as [[s' b']|], o0 as [[a b0]|];
    cbn [appends_loop]; try tauto.
  intros [-> ->] [-> ->]. split; [apply extend_assoc | reflexivity].
Qed.

Section WalkerAppends.
Context {FS : FileSystem}.
Variable w : World.
Variable programName : string.
Variable config : Config.
Variable maxDepth : Z.

Lemma each_entry_appends recurse dir d complete :
  (forall sub st,
      appends st (recurse sub (d + 1) st) (recurse sub (d + 1) ([], []))) ->
  forall entries st,
    appends_loop st
      (each_entry programName config maxDepth recurse dir d entries
         complete st)
      (each_entry programName config maxDepth recurse dir d entries
         complete ([], [])).
Proof.
  intros Hrec. induction entries as [|entry more IH]; intros st.
  - cbn [each_entry appends_loop]. split; [|reflexivity].
    symmetry. apply extend_empty.
  - assert (Hstep : forall x,
               appends_loop st
                 (each_entry programName config maxDepth recurse dir d more
                    complete (extend st x))
                 (each_entry programName config maxDepth recurse dir d more
                    complete x)).
    { intros x. eapply appends_loop_chain; apply IH. }
    cbn [each_entry].
    destruct (d_is_directory entry) as [[|]|].
    + destruct (shouldSkip (path_child dir (d_name entry))).
      * rewrite (say_if_extend _ _ st). apply Hstep.
      * destruct (recursive config && (d <? maxDepth))%bool.
        -- specialize (Hrec (path_child dir (d_name entry)) st).
           destruct (recurse (path_child dir (d_name entry)) (d + 1) st)
             as [st'|],
             (recurse (path_child dir (d_name entry)) (d + 1) ([], []))
             as [added|];
             cbn [appends] in Hrec; try contradiction; [|exact I].
           rewrite Hrec. apply Hstep.
        -- rewrite (say_if_extend _ _ st). apply Hstep.
    + destruct (is_program _ programName).
      * rewrite (say_if_extend _ _ st). apply Hstep.
      * destruct (shouldSkip (path_child dir (d_name entry))).
        -- rewrite (say_if_extend _ _ st). apply Hstep.
        -- rewrite (push_back_extend _ st). apply Hstep.
    + cbn [appends_loop]. split; [|reflexivity].
      symmetry. apply extend_empty.
Qed.
End WalkerAppends.

(** The same for [collectFiles], fuel by fuel. *)
Lemma collectFiles_appends_fuel {FS : FileSystem} (w : World)
  (programName : string) (config : Config) (maxDepth : Z) (fuel : nat) :
  forall dir currentDepth st,
    appends st
      (collectFiles w programName config maxDepth fuel dir currentDepth st)
      (collectFiles w programName config maxDepth fuel dir currentDepth
         ([], [])).
Proof.
  induction fuel as [|fuel IH]; intros dir d st; [exact I|].
  cbn [collectFiles]. destruct (d >? maxDepth).
  - cbn [appends]. symmetry. apply extend_empty.
  - destruct (directory_iterator w dir) as [entries complete].
    pose proof (each_entry_appends programName config maxDepth
                  (collectFiles w programName config maxDepth fuel) dir d
                  complete (fun sub s => IH sub (d + 1) s) entries st) as H.
    destruct (each_entry programName config maxDepth _ dir d entries complete
                st) as [[s1 b1]|],
      (each_entry programName config maxDepth _ dir d entries complete
         ([], [])) as [[s0 b0]|];
      cbn [appends_loop] in H; try contradiction; [|exact I].
    destruct H as [-> ->]. destruct b0; cbn [appends]; [reflexivity|].
    apply say_extend.
Qed.

(** X21.  [collectFiles] only appends: whatever the directory tree, a
    call returns, keeps the pending moves and the output it was handed, in
    place and in order, and what it adds after them is what the same call
    adds to an empty vector, so it does not depend on what was collected
    before.  (The fuel bound is the one that covers every nested call.) *)
Theorem collectFiles_appends {FS : FileSystem} (w : World)
  (programName : string) (config : Config) (maxDepth : Z) (fuel : nat)
  (dir : path) (currentDepth : Z) (st : wstate) :
  (Z.to_nat (maxDepth - currentDepth) < fuel)%nat ->
  exists added,
    collectFiles w programName config maxDepth fuel dir currentDepth ([], [])
    = Some added
    /\ collectFiles w programName config maxDepth fuel dir currentDepth st
       = Some (extend st added).
Proof.
  intros Hfuel.
  destruct (collectFiles_total w programName config maxDepth fuel dir
              currentDepth ([], []) Hfuel) as [added E].
  exists added. split; [exact E|].
  pose proof (collectFiles_appends_fuel w programName config maxDepth fuel
                dir currentDepth st) as H.
  rewrite E in H.
  destruct (collectFiles w programName config maxDepth fuel dir currentDepth
              st) as [st'|]; cbn [appends] in H; [|contradiction].
  rewrite H. reflexivity.
Qed.

(** The theorem on the project directory, two levels deep, after one file
    was collected elsewhere. *)
Lemma collectFiles_appends_witness :
  exists added,
    collectFiles (FS := FlatFS.fs) project "forg"
      (set_recursive default_config true) 2 3 home 1 ([], [])
    = Some added
    /\ collectFiles (FS := FlatFS.fs) project "forg"
         (set_recursive default_config true) 2 3 home 1
         ([(["tmp"; "a.txt"], "Documents")], [MsgOrganizing home])
       = Some (extend ([(["tmp"; "a.txt"], "Documents")], [MsgOrganizing home])
                 added).
Proof.
  apply (collectFiles_appends (FS := FlatFS.fs) project "forg"
           (set_recursive default_config true) 2 3 home 1
           ([(["tmp"; "a.txt"], "Documents")], [MsgOrganizing home])).
  vm_compute. lia.
Defined.

(** ** The output of a dry run *)

Section DryRun.
Context {FS : FileSystem}.
Variable clock : nat -> Z.
Variable currentDir : path.
Variable config : Config.
Hypothesis dry : dryRun config = true.

Lemma process_files_dry_run files :
  forall i s,
    process_files clock currentDir config i files s
    = (mkMstate (m_world s)
         (count_categories
            (snd (fst (dry_run_lines clock currentDir config (m_world s) i
                         files)))
            (m_movedCount s))
         (m_errorCount s)
         (m_log s
          ++ fst (fst (dry_run_lines clock currentDir config (m_world s) i
                         files))),
       snd (dry_run_lines clock currentDir config (m_world s) i files)).
Proof.
  induction files as [|[filePath category] more IH]; intros i s.
  - destruct s. cbn [process_files dry_run_lines count_categories fold_left
                       m_world m_movedCount m_errorCount m_log fst snd].
    rewrite app_nil_r. reflexivity.
  - destruct s as [w0 counts errors log].
    cbn [process_files dry_run_lines]. unfold process_one. rewrite dry.
    cbn [negb with_world m_world m_movedCount m_errorCount m_log].
    destruct (getUniquePath w0 (clock i)
                (path_append currentDir (folder_name config category))
                (path_filename filePath)) as [targetPath|].
    + rewrite IH.
      destruct (verbose config);
        unfold print_if, print, count_moved, with_world;
        cbn [m_world m_movedCount m_errorCount m_log];
        destruct (dry_run_lines clock currentDir config w0 (S i) more)
          as [[lines previewed] complete];
        cbn [fst snd count_categories fold_left app];
        rewrite <- ?app_assoc; reflexivity.
    + cbn [fst snd count_categories fold_left]. rewrite app_nil_r.
      reflexivity.
Qed.

(** The pending moves that were previewed are all of them when the end
    is reached. *)
Lemma dry_run_lines_complete (w : World) files :
  forall i,
    snd (dry_run_lines clock currentDir config w i files) = true ->
    snd (fst (dry_run_lines clock currentDir config w i files)) = files.
Proof.
  induction files as [|[filePath category] more IH]; intros i;
    [reflexivity|].
  cbn [dry_run_lines].
  destruct (getUniquePath w (clock i)
              (path_append currentDir (folder_name config category))
              (path_filename filePath)); [|discriminate].
  specialize (IH (S i)).
  destruct (dry_run_lines clock currentDir config w (S i) more)
    as [[lines previewed] complete].
  cbn [fst snd] in *. intros H. rewrite (IH H). reflexivity.
Qed.
End DryRun.

(** X22.  A dry run looks every target up in the file system as it was
    at the start: after the walker's output it prints, for each pending
    move in order, the preview line (after the three "Moving" lines when
    verbose) whose target [getUniquePath] picks in the untouched file
    system.  When every one of these look-ups returns, the summary
    follows, with every pending move counted in its category and no error,
    and the run exits 0; when one throws, the run ends there, by
    [std::terminate], with the lines printed so far.  Either way nothing
    is changed. *)
Theorem dry_run_output {FS : FileSystem} (clock : nat -> Z)
  (currentDir : path) (config : Config) (w : World) (programName : string)
  (m : PendingMove) (more : list PendingMove) (log : list event)
  (skipped : Z) :
  dryRun config = true ->
  collect currentDir config w programName
  = ((m :: more, log), skipped, true) ->
  let lines :=
    fst (fst (dry_run_lines clock currentDir config w 0 (m :: more))) in
  let complete :=
    snd (dry_run_lines clock currentDir config w 0 (m :: more)) in
  organizeFiles clock currentDir config w programName
  = if complete then
      (Exit 0, w,
       (log ++ lines
        ++ [MsgSummary (count_categories (m :: more) [])
              (length (m :: more)) skipped 0])%list)
    else (Terminate, w, (log ++ lines)%list).
Proof.
  intros Hdry C. cbv zeta. unfold organizeFiles. rewrite C.
  rewrite (process_files_dry_run clock currentDir config Hdry (m :: more) O
             (mkMstate w [] 0 log)).
  cbn [m_world m_movedCount m_errorCount m_log].
  pose proof (dry_run_lines_complete clock currentDir config w (m :: more) O)
    as Hall.
  destruct (snd (dry_run_lines clock currentDir config w 0 (m :: more)));
    [|reflexivity].
  rewrite (Hall eq_refl), <- app_assoc. reflexivity.
Qed.

(** The theorem on two files of the same name in the working directory
    and in a subdirectory: both are shown the target [Documents/a.txt];
    and on the directory whose Documents folder cannot be searched, where
    the run ends before the first preview. *)
Lemma dry_run_output_witness :
  organizeFiles (FS := FlatFS.fs) clock0 home
    (set_dryRun (set_depth (set_recursive default_config true) 2) true)
    namesakes "forg"
  = (Exit 0, namesakes,
     [ MsgOrganizing home; MsgRecursive 2; MsgDryRun;
       MsgPreview (path_child home "a.txt")
         (path_child (path_child home "Documents") "a.txt") "Documents";
       MsgPreview (path_child (path_child home "sub") "a.txt")
         (path_child (path_child home "Documents") "a.txt") "Documents";
       MsgSummary [("Documents", 2)] 2 0 0 ])
  /\ organizeFiles (FS := FlatFS.fs) clock0 home
       (set_dryRun default_config true) locked_documents "forg"
     = (Terminate, locked_documents, [MsgOrganizing home; MsgDryRun]).
Proof.
  split.
  - apply (dry_run_output (FS := FlatFS.fs) clock0 home
             (set_dryRun (set_depth (set_recursive default_config true) 2)
                true)
             namesakes "forg" (path_child home "a.txt", "Documents")
             [(path_child (path_child home "sub") "a.txt", "Documents")]
             [MsgOrganizing home; MsgRecursive 2; MsgDryRun] 0).
    + reflexivity.
    + vm_compute. reflexivity.
  - apply (dry_run_output (FS := FlatFS.fs) clock0 home
             (set_dryRun default_config true) locked_documents "forg"
             (path_child home "a.txt", "Documents") []
             [MsgOrganizing home; MsgDryRun] 0).
    + reflexivity.
    + vm_compute. reflexivity.
Defined.
